(** * Map-colouring CSP engine: model, heuristics, inference, backtracking

    Shallow embedding of
      - [csp/model.py]        (CSPModel),
      - [solver/heuristics.py] (mrv, degree_heuristic, lcv, ...),
      - [solver/inference.py]  (ForwardChecking, AC3),
      - [solver/backtracking.py] (BacktrackingSolver),
    followed by the properties of section 8 of the specification.

    Python dictionaries are finite maps ([gmap]); lists are lists;
    a raised exception is the [Raise] outcome; loops that Python runs
    with [while] or by recursion are unrolled with a fuel argument and
    report [OutOfFuel] when the fuel given does not suffice. *)

From stdpp Require Import gmap strings list fin_maps fin_sets sorting.

Local Open Scope Z_scope.

(** ** Outcomes of a call *)

Inductive exn := KeyError | IndexError | NetworkXError.

Inductive res (A : Type) :=
  | Ret (a : A)
  | Raise (e : exn)
  | OutOfFuel.
Arguments Ret {A} a.
Arguments Raise {A} e.
Arguments OutOfFuel {A}.

Global Instance res_ret : MRet res := λ A a, Ret a.
Global Instance res_bind : MBind res := λ A B f m,
  match m with
  | Ret a => f a
  | Raise e => Raise e
  | OutOfFuel => OutOfFuel
  end.

Definition returns {A} (m : res A) : Prop := ∃ a, m = Ret a.

(** ** csp/model.py *)

Abbreviation Assignment := (gmap string string).
Abbreviation Domains := (gmap string (list string)).

Record CSPModel := {
  variables : list string;
  domains : Domains;
  constraints : list (string * string)
}.

(** [DEFAULT_COLORS] *)
Definition DEFAULT_COLORS : list string := ["Red"; "Green"; "Blue"; "Yellow"]%string.

(** [CSPModel.from_dict]: every region gets its own copy of the palette. *)
Definition from_dict (regions : list string) (adjacencies : list (string * string))
    (colors : option (list string)) : CSPModel :=
  let colors := default DEFAULT_COLORS colors in
  {| variables := regions;
     domains := list_to_map ((λ var, (var, colors)) <$> regions);
     constraints := adjacencies |}.

(** The undirected graph built by [__post_init__]: its nodes are the
    variables and every end point of a constraint. *)
Definition graph_nodes (csp : CSPModel) : list string :=
  variables csp ++ flat_map (λ e, [e.1; e.2]) (constraints csp).

(** Keys of an adjacency dictionary, in order of first insertion. *)
Fixpoint uniq (l : list string) : list string :=
  match l with
  | [] => []
  | x :: r => x :: filter (λ y, y ≠ x) (uniq r)
  end.

(** [add_edges_from]: the edge (u, v) enters v under u and u under v. *)
Definition adj (csp : CSPModel) (x : string) : list string :=
  uniq (flat_map (λ e, (if decide (e.1 = x) then [e.2] else []) ++
                       (if decide (e.2 = x) then [e.1] else []))
                 (constraints csp)).

(** [CSPModel.get_neighbors]; networkx raises on a node it does not have. *)
Definition get_neighbors (csp : CSPModel) (variable : string) : res (list string) :=
  if bool_decide (variable ∈ graph_nodes csp) then Ret (adj csp variable)
  else Raise NetworkXError.

(** [CSPModel.is_consistent] *)
Definition is_consistent (csp : CSPModel) (variable value : string)
    (assignment : Assignment) : res bool :=
  nbrs ← get_neighbors csp variable;
  Ret (forallb (λ neighbor, negb (bool_decide (assignment !! neighbor = Some value))) nbrs).

(** [CSPModel.is_complete] *)
Definition is_complete (csp : CSPModel) (assignment : Assignment) : bool :=
  bool_decide (size assignment = length (variables csp)).

(** The loop of [CSPModel.is_valid_solution] over the constraints. *)
Fixpoint no_conflict (assignment : Assignment) (cs : list (string * string)) : res bool :=
  match cs with
  | [] => Ret true
  | (var1, var2) :: rest =>
      match assignment !! var1, assignment !! var2 with
      | Some c1, Some c2 =>
          if bool_decide (c1 = c2) then Ret false else no_conflict assignment rest
      | _, _ => Raise KeyError
      end
  end.

(** [CSPModel.is_valid_solution] *)
Definition is_valid_solution (csp : CSPModel) (assignment : Assignment) : res bool :=
  if negb (is_complete csp assignment) then Ret false
  else no_conflict assignment (constraints csp).

(** [CSPModel.copy_domains]: as a value, the copy is the mapping itself
    (the store-level copy is in module [Store] below). *)
Definition copy_domains (csp : CSPModel) : Domains := domains csp.

(** ** solver/heuristics.py *)

(** One round of the loop of [mrv]: [acc] is (min_values, best_var),
    with [None] for the initial infinity. *)
Definition mrv_step (assignment : Assignment) (doms : Domains)
    (acc : option nat * option string) (var : string)
    : res (option nat * option string) :=
  match assignment !! var with
  | Some _ => Ret acc
  | None =>
      match doms !! var with
      | None => Raise KeyError
      | Some dv =>
          let domain_size := length dv in
          match acc.1 with
          | None => Ret (Some domain_size, Some var)
          | Some min_values =>
              if bool_decide (domain_size < min_values)%nat
              then Ret (Some domain_size, Some var) else Ret acc
          end
      end
  end.

Fixpoint mrv_loop (assignment : Assignment) (doms : Domains)
    (vars : list string) (acc : option nat * option string)
    : res (option nat * option string) :=
  match vars with
  | [] => Ret acc
  | var :: rest =>
      acc' ← mrv_step assignment doms acc var;
      mrv_loop assignment doms rest acc'
  end.

(** [mrv] *)
Definition mrv (csp : CSPModel) (assignment : Assignment) (doms : Domains)
    : res (option string) :=
  acc ← mrv_loop assignment doms (variables csp) (None, None);
  Ret acc.2.

(** Number of neighbours of [var] outside the assignment. *)
Definition unassigned_degree (csp : CSPModel) (assignment : Assignment)
    (var : string) : res Z :=
  nbrs ← get_neighbors csp var;
  Ret (Z.of_nat (length (filter (λ n, assignment !! n = None) nbrs))).

Fixpoint degree_loop (csp : CSPModel) (assignment : Assignment)
    (vars : list string) (max_degree : Z) (best_var : option string)
    : res (option string) :=
  match vars with
  | [] => Ret best_var
  | var :: rest =>
      match assignment !! var with
      | Some _ => degree_loop csp assignment rest max_degree best_var
      | None =>
          degree ← unassigned_degree csp assignment var;
          if bool_decide (degree > max_degree)
          then degree_loop csp assignment rest degree (Some var)
          else degree_loop csp assignment rest max_degree best_var
      end
  end.

(** [degree_heuristic] *)
Definition degree_heuristic (csp : CSPModel) (assignment : Assignment)
    (doms : Domains) : res (option string) :=
  degree_loop csp assignment (variables csp) (-1) None.

(** First loop of [mrv_with_degree_tiebreaker]: the candidates tied at the
    minimum domain size. *)
Fixpoint mrv_candidates (assignment : Assignment) (doms : Domains)
    (vars : list string) (min_values : option nat) (candidates : list string)
    : res (list string) :=
  match vars with
  | [] => Ret candidates
  | var :: rest =>
      match assignment !! var with
      | Some _ => mrv_candidates assignment doms rest min_values candidates
      | None =>
          match doms !! var with
          | None => Raise KeyError
          | Some dv =>
              let domain_size := length dv in
              match min_values with
              | None => mrv_candidates assignment doms rest (Some domain_size) [var]
              | Some m =>
                  if bool_decide (domain_size < m)%nat
                  then mrv_candidates assignment doms rest (Some domain_size) [var]
                  else if bool_decide (domain_size = m)
                  then mrv_candidates assignment doms rest min_values (candidates ++ [var])
                  else mrv_candidates assignment doms rest min_values candidates
              end
          end
      end
  end.

Fixpoint tiebreak_loop (csp : CSPModel) (assignment : Assignment)
    (cands : list string) (max_degree : Z) (best_var : string) : res string :=
  match cands with
  | [] => Ret best_var
  | var :: rest =>
      degree ← unassigned_degree csp assignment var;
      if bool_decide (degree > max_degree)
      then tiebreak_loop csp assignment rest degree var
      else tiebreak_loop csp assignment rest max_degree best_var
  end.

(** [mrv_with_degree_tiebreaker]; [candidates[0]] raises on the empty list. *)
Definition mrv_with_degree_tiebreaker (csp : CSPModel) (assignment : Assignment)
    (doms : Domains) : res (option string) :=
  candidates ← mrv_candidates assignment doms (variables csp) None [];
  match candidates with
  | [c] => Ret (Some c)
  | [] => Raise IndexError
  | c0 :: _ => best ← tiebreak_loop csp assignment candidates (-1) c0; Ret (Some best)
  end.

(** Stable insertion on a key, as [list.sort(key=...)] orders equal keys. *)
Fixpoint insert_by (x : string * nat) (l : list (string * nat)) : list (string * nat) :=
  match l with
  | [] => [x]
  | y :: r => if bool_decide (x.2 ≤ y.2)%nat then x :: y :: r else y :: insert_by x r
  end.

Definition sort_by_score (l : list (string * nat)) : list (string * nat) :=
  foldr insert_by [] l.

(** [lcv] *)
Definition lcv (csp : CSPModel) (variable : string) (assignment : Assignment)
    (doms : Domains) : res (list string) :=
  match doms !! variable with
  | None => Raise KeyError
  | Some dv =>
      match dv with
      | [] => Ret []
      | _ =>
          nbrs ← get_neighbors csp variable;
          let open := filter (λ n, assignment !! n = None) nbrs in
          if bool_decide (Forall (λ n, is_Some (doms !! n)) open) then
            let eliminated value :=
              length (filter (λ n, value ∈ default [] (doms !! n)) open) in
            Ret ((sort_by_score ((λ value, (value, eliminated value)) <$> dv)).*1)
          else Raise KeyError
      end
  end.

(** [no_order] *)
Definition no_order (csp : CSPModel) (variable : string) (assignment : Assignment)
    (doms : Domains) : res (list string) :=
  match doms !! variable with
  | None => Raise KeyError
  | Some dv => Ret dv
  end.

(** ** solver/inference.py *)

(** What an inference call hands back: [False] (a domain was wiped out)
    or the number of values it pruned. *)
Inductive infer_result :=
  | Wipeout
  | Pruned (n : Z).

(** [list.remove(x)]: drops the first occurrence. *)
Fixpoint list_remove_first (x : string) (l : list string) : list string :=
  match l with
  | [] => []
  | y :: r => if decide (y = x) then r else y :: list_remove_first x r
  end.

(** The loop of [ForwardChecking.infer] over the neighbours. *)
Fixpoint fc_loop (value : string) (assignment : Assignment)
    (nbrs : list string) (doms : Domains) (pruned : Z)
    : res (Domains * infer_result) :=
  match nbrs with
  | [] => Ret (doms, Pruned pruned)
  | neighbor :: rest =>
      match assignment !! neighbor with
      | Some _ => fc_loop value assignment rest doms pruned
      | None =>
          match doms !! neighbor with
          | None => Raise KeyError
          | Some dn =>
              if bool_decide (value ∈ dn) then
                let dn' := list_remove_first value dn in
                let doms' := <[neighbor := dn']> doms in
                if bool_decide (length dn' = 0%nat) then Ret (doms', Wipeout)
                else fc_loop value assignment rest doms' (pruned + 1)
              else fc_loop value assignment rest doms pruned
          end
      end
  end.

(** [ForwardChecking.infer], also exported as [forward_checking] *)
Definition forward_checking (csp : CSPModel) (variable value : string)
    (assignment : Assignment) (doms : Domains) : res (Domains * infer_result) :=
  nbrs ← get_neighbors csp variable;
  fc_loop value assignment nbrs doms 0.

(** [AC3.get_all_arcs] *)
Definition get_all_arcs (csp : CSPModel) : list (string * string) :=
  flat_map (λ e, [(e.1, e.2); (e.2, e.1)]) (constraints csp).

(** The inner loop of [AC3.revise]: some y in Xj's domain differs from x. *)
Definition has_support (x : string) (dj : list string) : bool :=
  existsb (λ y, bool_decide (x ≠ y)) dj.

(** [AC3.revise]; Xj's domain is read only when Xi's has a value. *)
Definition revise (doms : Domains) (xi xj : string) : res (Domains * bool) :=
  match doms !! xi with
  | None => Raise KeyError
  | Some di =>
      match di with
      | [] => Ret (doms, false)
      | _ =>
          match doms !! xj with
          | None => Raise KeyError
          | Some dj =>
              let values_to_remove := filter (λ x, has_support x dj = false) di in
              let di' := foldl (λ l x, list_remove_first x l) di values_to_remove in
              Ret (<[xi := di']> doms, bool_decide (values_to_remove ≠ []))
          end
      end
  end.

(** [AC3.enforce]; the [while queue] loop runs on fuel. [assignment] is
    [None] when the caller leaves the argument out. *)
Fixpoint enforce_loop (fuel : nat) (csp : CSPModel) (assignment : option Assignment)
    (queue : list (string * string)) (doms : Domains) : res (Domains * bool) :=
  match fuel with
  | O => OutOfFuel
  | S fuel' =>
      match queue with
      | [] => Ret (doms, true)
      | (xi, xj) :: queue' =>
          if bool_decide (is_Some (assignment ≫= (.!! xi)))
          then enforce_loop fuel' csp assignment queue' doms
          else
            '(doms', revised) ← revise doms xi xj;
            if revised : bool then
              if bool_decide (length (default [] (doms' !! xi)) = 0%nat)
              then Ret (doms', false)
              else
                nbrs ← get_neighbors csp xi;
                let arcs := (λ xk, (xk, xi)) <$> filter (λ xk, xk ≠ xj) nbrs in
                enforce_loop fuel' csp assignment (queue' ++ arcs) doms'
            else enforce_loop fuel' csp assignment queue' doms'
      end
  end.

Definition enforce (fuel : nat) (csp : CSPModel) (doms : Domains)
    (assignment : option Assignment) : res (Domains * bool) :=
  enforce_loop fuel csp assignment (get_all_arcs csp) doms.

(** [sum(len(d) for d in domains.values())] *)
Definition total_size (doms : Domains) : Z :=
  map_fold (λ _ (dv : list string) acc, Z.of_nat (length dv) + acc) 0 doms.

(** The forward-checking pass at the head of [AC3.infer]. *)
Fixpoint ac3_prepass (value : string) (assignment : Assignment)
    (nbrs : list string) (doms : Domains) : res (Domains * bool) :=
  match nbrs with
  | [] => Ret (doms, true)
  | neighbor :: rest =>
      match assignment !! neighbor with
      | Some _ => ac3_prepass value assignment rest doms
      | None =>
          match doms !! neighbor with
          | None => Raise KeyError
          | Some dn =>
              if bool_decide (value ∈ dn) then
                let dn' := list_remove_first value dn in
                let doms' := <[neighbor := dn']> doms in
                if bool_decide (length dn' = 0%nat) then Ret (doms', false)
                else ac3_prepass value assignment rest doms'
              else ac3_prepass value assignment rest doms
          end
      end
  end.

(** [AC3.infer], also exported as [ac3_inference] *)
Definition ac3_inference (fuel : nat) (csp : CSPModel) (variable value : string)
    (assignment : Assignment) (doms : Domains) : res (Domains * infer_result) :=
  let initial_sizes := total_size doms in
  nbrs ← get_neighbors csp variable;
  '(doms1, ok) ← ac3_prepass value assignment nbrs doms;
  if ok : bool then
    '(doms2, consistent) ← enforce fuel csp doms1 (Some assignment);
    if consistent : bool then
      let final_sizes := total_size doms2 in
      Ret (doms2, Pruned (initial_sizes - final_sizes))
    else Ret (doms2, Wipeout)
  else Ret (doms1, Wipeout).

(** ** solver/backtracking.py *)

(** [SolverStats]; the wall clock is read as a number of ticks. *)
Record SolverStats := {
  nodes_explored : Z;
  backtracks : Z;
  time_elapsed : Z;
  inference_calls : Z;
  pruned_values : Z;
  solution_found : bool
}.

(** [SolverStats()] *)
Definition fresh_stats : SolverStats :=
  {| nodes_explored := 0; backtracks := 0; time_elapsed := 0;
     inference_calls := 0; pruned_values := 0; solution_found := false |}.

Definition incr_nodes (st : SolverStats) : SolverStats :=
  {| nodes_explored := nodes_explored st + 1; backtracks := backtracks st;
     time_elapsed := time_elapsed st; inference_calls := inference_calls st;
     pruned_values := pruned_values st; solution_found := solution_found st |}.

Definition incr_backtracks (st : SolverStats) : SolverStats :=
  {| nodes_explored := nodes_explored st; backtracks := backtracks st + 1;
     time_elapsed := time_elapsed st; inference_calls := inference_calls st;
     pruned_values := pruned_values st; solution_found := solution_found st |}.

Definition incr_inference_calls (st : SolverStats) : SolverStats :=
  {| nodes_explored := nodes_explored st; backtracks := backtracks st;
     time_elapsed := time_elapsed st; inference_calls := inference_calls st + 1;
     pruned_values := pruned_values st; solution_found := solution_found st |}.

Definition add_pruned (n : Z) (st : SolverStats) : SolverStats :=
  {| nodes_explored := nodes_explored st; backtracks := backtracks st;
     time_elapsed := time_elapsed st; inference_calls := inference_calls st;
     pruned_values := pruned_values st + n; solution_found := solution_found st |}.

Definition finish_stats (elapsed : Z) (found : bool) (st : SolverStats) : SolverStats :=
  {| nodes_explored := nodes_explored st; backtracks := backtracks st;
     time_elapsed := elapsed; inference_calls := inference_calls st;
     pruned_values := pruned_values st; solution_found := found |}.

(** The three callables a solver may be built with. *)
Definition select_fn := CSPModel → Assignment → Domains → res (option string).
Definition order_fn := CSPModel → string → Assignment → Domains → res (list string).
Definition inference_fn :=
  CSPModel → string → string → Assignment → Domains → res (Domains * infer_result).

(** The arguments of [BacktrackingSolver.__init__] that the search reads. *)
Record Config := {
  inference : option inference_fn;
  select_variable : option select_fn;
  order_values : option order_fn;
  max_nodes : Z
}.

(** [BacktrackingSolver._select_variable] *)
Definition _select_variable (cfg : Config) (csp : CSPModel)
    (assignment : Assignment) (doms : Domains) : res (option string) :=
  match select_variable cfg with
  | Some f => f csp assignment doms
  | None => Ret (list_find (λ var, assignment !! var = None) (variables csp) ≫= (λ p, Some p.2))
  end.

(** [BacktrackingSolver._order_values]; a [None] variable is not a key of
    the domains. *)
Definition _order_values (cfg : Config) (csp : CSPModel) (variable : option string)
    (assignment : Assignment) (doms : Domains) : res (list string) :=
  match variable with
  | None => Raise KeyError
  | Some variable =>
      match order_values cfg with
      | Some f => f csp variable assignment doms
      | None =>
          match doms !! variable with
          | None => Raise KeyError
          | Some dv => Ret dv
          end
      end
  end.

(** The state a call of [_backtrack] leaves behind: its return value, the
    shared assignment and domains dictionaries, and the statistics. *)
Definition search_state : Type :=
  option Assignment * Assignment * Domains * SolverStats.

(** The inference step inside the candidate loop. *)
Definition apply_inference (cfg : Config) (csp : CSPModel) (var value : string)
    (assignment : Assignment) (doms : Domains) (st : SolverStats)
    : res (Domains * SolverStats * bool) :=
  match inference cfg with
  | None => Ret (doms, st, true)
  | Some infer =>
      '(doms', inference_result) ← infer csp var value assignment doms;
      let st' := incr_inference_calls st in
      match inference_result with
      | Wipeout => Ret (doms', st', false)
      | Pruned n => Ret (doms', add_pruned n st', true)
      end
  end.

(** The [for value in values] loop of [_backtrack]; [rec] is the recursive
    call. *)
Fixpoint try_values (rec : Assignment → Domains → SolverStats → res search_state)
    (cfg : Config) (csp : CSPModel) (var : string) (values : list string)
    (assignment : Assignment) (doms : Domains) (st : SolverStats)
    : res search_state :=
  match values with
  | [] => Ret (None, assignment, doms, st)
  | value :: rest =>
      consistent ← is_consistent csp var value assignment;
      if consistent : bool then
        let assignment1 := <[var := value]> assignment in
        let saved_domains := doms in
        '(doms1, st1, inference_ok) ←
          apply_inference cfg csp var value assignment1 doms st;
        '(result, assignment2, doms2, st2) ←
          (if inference_ok : bool then rec assignment1 doms1 st1
           else Ret (None, assignment1, doms1, st1));
        match result with
        | Some solution => Ret (Some solution, assignment2, doms2, st2)
        | None =>
            match assignment2 !! var with
            | None => Raise KeyError
            | Some _ =>
                try_values rec cfg csp var rest (delete var assignment2)
                  (saved_domains ∪ doms2) (incr_backtracks st2)
            end
        end
      else try_values rec cfg csp var rest assignment doms st
  end.

(** [BacktrackingSolver._backtrack] *)
Fixpoint _backtrack (fuel : nat) (cfg : Config) (csp : CSPModel)
    (assignment : Assignment) (doms : Domains) (st : SolverStats)
    : res search_state :=
  match fuel with
  | O => OutOfFuel
  | S fuel' =>
      if bool_decide (nodes_explored st >= max_nodes cfg)
      then Ret (None, assignment, doms, st)
      else if is_complete csp assignment
      then Ret (Some assignment, assignment, doms, st)
      else
        let st := incr_nodes st in
        var ← _select_variable cfg csp assignment doms;
        values ← _order_values cfg csp var assignment doms;
        match var with
        | None => Raise KeyError
        | Some var =>
            try_values (_backtrack fuel' cfg csp) cfg csp var values assignment doms st
        end
  end.

(** [BacktrackingSolver.solve]. [self_stats] is the statistics object the
    solver holds when the call starts; [start_time] and [end_time] are the
    two readings of the clock. *)
Definition solve (fuel : nat) (cfg : Config) (csp : CSPModel)
    (start_time end_time : Z) (self_stats : SolverStats)
    : res (option Assignment * SolverStats) :=
  let stats := fresh_stats in
  let doms := copy_domains csp in
  let assignment : Assignment := ∅ in
  '(result, _, _, stats') ← _backtrack fuel cfg csp assignment doms stats;
  Ret (result,
       finish_stats (end_time - start_time) (bool_decide (is_Some result)) stats').

(** ** ui/app.py: the configurations the front end builds *)

Inductive var_choice := VarDeclared | VarMRV | VarDegree | VarMRVDegree.
Inductive val_choice := ValDefault | ValNone | ValLCV.
Inductive inf_choice := InfNone | InfForwardChecking | InfAC3.

(** [create_solver]; [ac3_fuel] bounds the [while] loop of AC-3. *)
Definition create_solver (ac3_fuel : nat) (vh : var_choice) (oh : val_choice)
    (ih : inf_choice) (budget : Z) : Config :=
  {| inference :=
       match ih with
       | InfNone => None
       | InfForwardChecking => Some forward_checking
       | InfAC3 => Some (ac3_inference ac3_fuel)
       end;
     select_variable :=
       match vh with
       | VarDeclared => None
       | VarMRV => Some mrv
       | VarDegree => Some degree_heuristic
       | VarMRVDegree => Some mrv_with_degree_tiebreaker
       end;
     order_values :=
       match oh with
       | ValDefault => None
       | ValNone => Some no_order
       | ValLCV => Some lcv
       end;
     max_nodes := budget |}.

(** ** Scenarios of the specification, run on the embedding *)

Definition triangle (colors : list string) : CSPModel :=
  from_dict ["A"; "B"; "C"]%string
            [("A", "B"); ("B", "C"); ("A", "C")]%string (Some colors).

Definition australia : CSPModel :=
  from_dict ["WA"; "NT"; "SA"; "Q"; "NSW"; "V"]%string
    [("WA","NT"); ("WA","SA"); ("NT","SA"); ("NT","Q"); ("SA","Q");
     ("SA","NSW"); ("SA","V"); ("Q","NSW"); ("NSW","V")]%string None.

Example scenario_A :
  (solve 10 (create_solver 100 VarMRVDegree ValLCV InfAC3 100000)
         (triangle ["Red"; "Green"]%string) 0 0 fresh_stats) ≫= (λ r, Ret r.1)
  = Ret None.
Proof. vm_compute. reflexivity. Qed.

Example scenario_C :
  (solve 10 (create_solver 1000 VarMRVDegree ValLCV InfAC3 100000)
         australia 0 0 fresh_stats) ≫= (λ r, is_valid_solution australia (default ∅ r.1))
  = Ret true.
Proof. vm_compute. reflexivity. Qed.

(** * Properties *)

(** ** The outcome monad *)

Lemma bind_Ret {A B} (m : res A) (f : A → res B) (b : B) :
  m ≫= f = Ret b → ∃ a, m = Ret a ∧ f a = Ret b.
Proof. destruct m as [a| |]; simpl; [eauto | done | done]. Qed.

Lemma bind_not_OutOfFuel {A B} (m : res A) (f : A → res B) :
  m ≠ OutOfFuel → (∀ a, m = Ret a → f a ≠ OutOfFuel) → m ≫= f ≠ OutOfFuel.
Proof. destruct m as [a| |]; simpl; [eauto | done | done]. Qed.

(** Settles a decidable closed proposition by evaluation. *)
Ltac by_compute := apply (bool_decide_unpack _); vm_compute; exact I.

Ltac inv_bind H :=
  let a := fresh "a" in
  let Ha := fresh "Hcall" in
  apply bind_Ret in H as [a [Ha H]].

(** ** The constraint graph *)

Lemma elem_of_uniq (l : list string) x : x ∈ uniq l ↔ x ∈ l.
Proof.
  induction l as [|y l IH]; simpl; [done|].
  rewrite !elem_of_cons, list_elem_of_filter, IH.
  destruct (decide (x = y)); tauto.
Qed.

Lemma NoDup_uniq (l : list string) : NoDup (uniq l).
Proof.
  induction l as [|y l IH]; simpl; [constructor|].
  constructor.
  - rewrite list_elem_of_filter. tauto.
  - by apply NoDup_filter.
Qed.

Lemma elem_of_adj csp x n :
  n ∈ adj csp x ↔ (x, n) ∈ constraints csp ∨ (n, x) ∈ constraints csp.
Proof.
  unfold adj. rewrite elem_of_uniq, list_elem_of_In, in_flat_map. split.
  - intros [[u v] [Hin Hn]]. apply list_elem_of_In in Hin. simpl in Hn.
    apply list_elem_of_In, elem_of_app in Hn as [Hn|Hn].
    + destruct (decide (u = x)) as [->|]; [|by apply elem_of_nil in Hn].
      apply list_elem_of_singleton in Hn as ->. by left.
    + destruct (decide (v = x)) as [->|]; [|by apply elem_of_nil in Hn].
      apply list_elem_of_singleton in Hn as ->. by right.
  - intros [H|H].
    + exists (x, n). split; [by apply list_elem_of_In|]. simpl.
      apply list_elem_of_In, elem_of_app. left.
      rewrite decide_True by done. by apply list_elem_of_singleton.
    + exists (n, x). split; [by apply list_elem_of_In|]. simpl.
      apply list_elem_of_In, elem_of_app. right.
      rewrite decide_True by done. by apply list_elem_of_singleton.
Qed.

Lemma adj_sym csp x n : n ∈ adj csp x ↔ x ∈ adj csp n.
Proof. rewrite !elem_of_adj. tauto. Qed.

Lemma NoDup_adj csp x : NoDup (adj csp x).
Proof. apply NoDup_uniq. Qed.

Lemma adj_in_nodes csp x n : n ∈ adj csp x → n ∈ graph_nodes csp.
Proof.
  rewrite elem_of_adj. unfold graph_nodes. rewrite elem_of_app.
  intros H. right. apply list_elem_of_In, in_flat_map.
  destruct H as [H|H]; eexists; (split; [apply list_elem_of_In, H|]);
    simpl; tauto.
Qed.

Lemma get_neighbors_Ret csp x l :
  get_neighbors csp x = Ret l → l = adj csp x ∧ x ∈ graph_nodes csp.
Proof.
  unfold get_neighbors. case_bool_decide; [|done]. by intros [= <-].
Qed.

Lemma get_neighbors_node csp x :
  x ∈ graph_nodes csp → get_neighbors csp x = Ret (adj csp x).
Proof. intros H. unfold get_neighbors. by rewrite bool_decide_eq_true_2. Qed.

Lemma get_neighbors_variable csp x :
  x ∈ variables csp → get_neighbors csp x = Ret (adj csp x).
Proof.
  intros H. apply get_neighbors_node. unfold graph_nodes.
  apply elem_of_app. by left.
Qed.

Lemma get_neighbors_fuel csp x : get_neighbors csp x ≠ OutOfFuel.
Proof. unfold get_neighbors. by case_bool_decide. Qed.

(** ** Minimum remaining values *)

Definition dsize (doms : Domains) (x : string) : nat :=
  length (default [] (doms !! x)).

(** What the accumulator of [mrv_loop] knows after the variables [seen]. *)
Definition mrv_inv (assignment : Assignment) (doms : Domains)
    (seen : list string) (acc : option nat * option string) : Prop :=
  match acc with
  | (None, None) => ∀ u, u ∈ seen → is_Some (assignment !! u)
  | (Some m, Some best) =>
      assignment !! best = None ∧ is_Some (doms !! best) ∧ dsize doms best = m ∧
      ∃ pre post, seen = pre ++ best :: post ∧
        (∀ u, u ∈ pre → assignment !! u = None → (m < dsize doms u)%nat) ∧
        (∀ u, u ∈ post → assignment !! u = None → (m ≤ dsize doms u)%nat)
  | _ => False
  end.

Lemma mrv_loop_inv assignment doms vars : ∀ seen acc,
  (∀ u, u ∈ vars → assignment !! u = None → is_Some (doms !! u)) →
  mrv_inv assignment doms seen acc →
  ∃ acc', mrv_loop assignment doms vars acc = Ret acc' ∧
          mrv_inv assignment doms (seen ++ vars) acc'.
Proof.
  induction vars as [|var vars IH]; intros seen acc Hcov Hinv; simpl.
  { exists acc. by rewrite app_nil_r. }
  assert (Hcov' : ∀ u, u ∈ vars → assignment !! u = None → is_Some (doms !! u)).
  { intros u Hu. apply Hcov. by right. }
  assert (Hstep : ∃ acc1, mrv_step assignment doms acc var = Ret acc1 ∧
            mrv_inv assignment doms (seen ++ [var]) acc1).
  { unfold mrv_step. destruct (assignment !! var) as [c|] eqn:Ha.
    - exists acc. split; [done|].
      destruct acc as [[m|] [best|]]; simpl in *; try done.
      + destruct Hinv as (Hb & Hd & Hm & pre & post & -> & Hpre & Hpost).
        repeat split; try done. exists pre, (post ++ [var]).
        split; [by rewrite <- app_assoc|]. split; [done|].
        intros u [Hu|Hu]%elem_of_app; [by apply Hpost|].
        apply list_elem_of_singleton in Hu as ->. congruence.
      + intros u [Hu|Hu]%elem_of_app; [by apply Hinv|].
        apply list_elem_of_singleton in Hu as ->. by eexists.
    - destruct (Hcov var) as [dv Hdv]; [by left|done|]. rewrite Hdv.
      destruct acc as [[m|] [best|]]; simpl in *; try done.
      + destruct Hinv as (Hb & Hd & Hm & pre & post & -> & Hpre & Hpost).
        case_bool_decide as Hlt.
        * eexists. split; [done|]. simpl. repeat split; try done.
          { unfold dsize. by rewrite Hdv. }
          exists (pre ++ best :: post), []. split; [done|].
          split; [|by intros u Hu%elem_of_nil].
          intros u [Hu|Hu]%elem_of_app Hun.
          { specialize (Hpre u Hu Hun). lia. }
          apply elem_of_cons in Hu as [->|Hu]; [lia|].
          specialize (Hpost u Hu Hun). lia.
        * eexists. split; [done|]. simpl. repeat split; try done.
          exists pre, (post ++ [var]). split; [by rewrite <- app_assoc|].
          split; [done|].
          intros u [Hu|Hu]%elem_of_app Hun; [by apply Hpost|].
          apply list_elem_of_singleton in Hu as ->.
          unfold dsize at 1. rewrite Hdv. simpl. lia.
      + eexists. split; [done|]. simpl. repeat split; try done.
        { unfold dsize. by rewrite Hdv. }
        exists seen, []. split; [done|].
        split; [|by intros u Hu%elem_of_nil].
        intros u Hu Hun. destruct (Hinv u Hu) as [? ?]. congruence. }
  destruct Hstep as (acc1 & -> & Hinv1). simpl.
  destruct (IH (seen ++ [var]) acc1 Hcov' Hinv1) as (acc' & Hl & Hinv').
  exists acc'. split; [done|]. by rewrite <- app_assoc in Hinv'.
Qed.

(** C9. Given at least one unassigned variable (and a domain for every
    unassigned variable), [mrv] returns an unassigned variable [best] whose
    domain is no larger than that of any other unassigned variable, and
    every unassigned variable declared before [best] has a strictly larger
    domain: among the variables of minimal size, [best] is the first in
    declaration order. *)
Theorem mrv_selects_first_minimum csp (assignment : Assignment) (doms : Domains) :
  (∀ u, u ∈ variables csp → assignment !! u = None → is_Some (doms !! u)) →
  (∃ u, u ∈ variables csp ∧ assignment !! u = None) →
  ∃ best pre post,
    mrv csp assignment doms = Ret (Some best) ∧
    variables csp = pre ++ best :: post ∧
    assignment !! best = None ∧
    (∀ u, u ∈ variables csp → assignment !! u = None →
          (dsize doms best ≤ dsize doms u)%nat) ∧
    (∀ u, u ∈ pre → assignment !! u = None →
          (dsize doms best < dsize doms u)%nat).
Proof.
  intros Hcov (u0 & Hu0 & Hun0).
  destruct (mrv_loop_inv assignment doms (variables csp) [] (None, None) Hcov)
    as (acc & Hloop & Hinv).
  { intros u Hu. by apply elem_of_nil in Hu. }
  simpl in Hinv. unfold mrv. rewrite Hloop. simpl.
  destruct acc as [[m|] [best|]]; simpl in *; try done.
  - destruct Hinv as (Hb & Hd & Hm & pre & post & Heq & Hpre & Hpost).
    exists best, pre, post. repeat split; try done.
    + intros u Hu Hun. rewrite Heq in Hu. rewrite Hm.
      apply elem_of_app in Hu as [Hu|Hu]; [specialize (Hpre u Hu Hun); lia|].
      apply elem_of_cons in Hu as [->|Hu]; [lia|]. by apply Hpost.
    + intros u Hu Hun. rewrite Hm. by apply Hpre.
  - destruct (Hinv u0 Hu0) as [? ?]. congruence.
Qed.

Lemma mrv_selects_first_minimum_witness :
  ∃ best pre post,
    mrv (triangle ["Red"; "Green"]%string) {["A"%string := "Red"%string]}
        (<["B"%string := ["Green"]%string]> (domains (triangle ["Red"; "Green"]%string)))
      = Ret (Some best) ∧
    variables (triangle ["Red"; "Green"]%string) = pre ++ best :: post ∧ best = "B"%string.
Proof.
  destruct (mrv_selects_first_minimum (triangle ["Red"; "Green"]%string)
              {["A"%string := "Red"%string]}
              (<["B"%string := ["Green"]%string]> (domains (triangle ["Red"; "Green"]%string))))
    as (best & pre & post & Hm & Hv & _).
  - intros u Hu _. revert u Hu. apply Forall_forall. vm_compute.
    repeat constructor; by eexists.
  - exists "B"%string. split; [|done]. vm_compute. right. left.
  - exists best, pre, post. repeat split; try done.
    vm_compute in Hm. congruence.
Defined.

(** ** AC-3 revise *)

(** No value of Xj's domain differs from [x]. *)
Definition unsupported (dj : list string) (x : string) : Prop :=
  Forall (λ y, y = x) dj.

Lemma has_support_false x dj : has_support x dj = false ↔ unsupported dj x.
Proof.
  unfold has_support, unsupported. induction dj as [|y dj IH]; simpl.
  - split; [constructor|done].
  - rewrite orb_false_iff, IH, Forall_cons, bool_decide_eq_false. split.
    + intros [Hxy ?]. split; [|done].
      destruct (decide (y = x)) as [|Hn]; [done|].
      exfalso. apply Hxy. congruence.
    + intros [-> ?]. split; [|done]. intros Hne. by apply Hne.
Qed.

Lemma list_remove_first_app x pre l :
  x ∉ pre → list_remove_first x (pre ++ x :: l) = pre ++ l.
Proof.
  induction pre as [|y pre IH]; intros Hx; simpl.
  - by rewrite decide_True.
  - apply not_elem_of_cons in Hx as [Hne Hx].
    rewrite decide_False by congruence. by rewrite IH.
Qed.

Lemma remove_each_is_filter (bad : string → Prop) `{∀ x, Decision (bad x)} l :
  ∀ pre, (∀ x, x ∈ pre → ¬ bad x) →
    foldl (λ l x, list_remove_first x l) (pre ++ l) (filter bad l)
    = pre ++ filter (λ x, ¬ bad x) l.
Proof.
  induction l as [|x l IH]; intros pre Hpre; simpl; [done|].
  rewrite !filter_cons. destruct (decide (bad x)) as [Hb|Hb].
  - rewrite decide_False by tauto. simpl.
    rewrite list_remove_first_app; [by apply IH|].
    intros Hx. by apply (Hpre x).
  - rewrite decide_True by done.
    replace (pre ++ x :: l) with ((pre ++ [x]) ++ l) by by rewrite <- app_assoc.
    rewrite IH; [by rewrite <- app_assoc|].
    intros y [Hy|Hy]%elem_of_app; [by apply Hpre|].
    by apply list_elem_of_singleton in Hy as ->.
Qed.

Lemma revise_Some doms xi xj di dj :
  doms !! xi = Some di → doms !! xj = Some dj →
  revise doms xi xj =
    Ret (<[xi := filter (λ x, ¬ unsupported dj x) di]> doms,
         bool_decide (Exists (unsupported dj) di)).
Proof.
  intros Hi Hj. unfold revise. rewrite Hi.
  destruct (decide (di = [])) as [->|Hdi].
  { rewrite insert_id by done. rewrite bool_decide_eq_false_2; [done|].
    by intros ?%Exists_nil. }
  assert (∀ T (k1 k2 : T), match di with [] => k1 | _ :: _ => k2 end = k2) as ->
    by (intros; by destruct di).
  rewrite Hj.
  assert (Hf : filter (λ x, has_support x dj = false) di = filter (unsupported dj) di).
  { apply list_filter_iff. intros x. apply has_support_false. }
  rewrite Hf.
  pose proof (remove_each_is_filter (unsupported dj) di []) as Hr. simpl in Hr.
  rewrite Hr by (intros x Hx; by apply elem_of_nil in Hx).
  do 2 f_equal. apply bool_decide_ext.
  rewrite Exists_exists. split.
  - intros Hne. destruct (filter (unsupported dj) di) as [|x r] eqn:E; [done|].
    exists x. apply and_comm, (list_elem_of_filter (unsupported dj)).
    rewrite E. by left.
  - intros (x & Hx & Hu) E.
    assert (x ∈ filter (unsupported dj) di) as Hin by by apply list_elem_of_filter.
    rewrite E in Hin. by apply elem_of_nil in Hin.
Qed.

Lemma unsupported_singleton dj x :
  dj ≠ [] → unsupported dj x ↔ list_to_set dj = ({[x]} : gset string).
Proof.
  intros Hne. unfold unsupported. rewrite Forall_forall. split.
  - intros Hall. apply set_eq. intros y.
    rewrite elem_of_list_to_set, elem_of_singleton. split; [by apply Hall|].
    intros ->. destruct dj as [|z dj]; [done|].
    rewrite <- (Hall z) by by left. by left.
  - intros Heq y Hy.
    assert (y ∈ (list_to_set dj : gset string)) as Hin by by apply elem_of_list_to_set.
    rewrite Heq in Hin. by apply elem_of_singleton in Hin.
Qed.

Lemma unsupported_NoDup dj x :
  dj ≠ [] → NoDup dj → unsupported dj x ↔ dj = [x].
Proof.
  intros Hne Hnd. unfold unsupported. split.
  - intros Hall. destruct dj as [|y dj]; [done|].
    apply Forall_cons in Hall as [-> Hall].
    destruct dj as [|z dj]; [done|].
    apply Forall_cons in Hall as [-> _].
    apply NoDup_cons in Hnd as [Hnd _]. exfalso. apply Hnd. by left.
  - intros ->. by repeat constructor.
Qed.

(** C7. For two variables Xi, Xj with domains [di], [dj], [dj] non-empty,
    [revise] keeps in Xi's domain exactly the values that some value of
    [dj] differs from, in their order; a value is dropped exactly when the
    values of [dj] form the singleton of it (for a duplicate-free [dj]:
    when [dj] is that one-element list); every other variable, Xj among
    them, keeps its domain; and the result is true exactly when some value
    of [di] was dropped. *)
Theorem revise_removes_unsupported (doms : Domains) xi xj di dj :
  doms !! xi = Some di → doms !! xj = Some dj → dj ≠ [] → xi ≠ xj →
  ∃ doms' revised,
    revise doms xi xj = Ret (doms', revised) ∧
    doms' !! xi = Some (filter (λ x, ¬ unsupported dj x) di) ∧
    (∀ x, x ∈ di → (x ∉ default [] (doms' !! xi) ↔ (∀ y, y ∈ dj → y = x))) ∧
    (∀ x, (∀ y, y ∈ dj → y = x) ↔ list_to_set dj = ({[x]} : gset string)) ∧
    (∀ x, NoDup dj → ((∀ y, y ∈ dj → y = x) ↔ dj = [x])) ∧
    doms' !! xj = Some dj ∧
    (∀ z, z ≠ xi → doms' !! z = doms !! z) ∧
    (revised = true ↔ ∃ x, x ∈ di ∧ x ∉ default [] (doms' !! xi)).
Proof.
  intros Hi Hj Hne Hij. eexists _, _. split; [by apply revise_Some|].
  rewrite lookup_insert_eq. simpl.
  assert (Hdrop : ∀ x, x ∈ di →
    (x ∉ filter (λ x, ¬ unsupported dj x) di ↔ (∀ y, y ∈ dj → y = x))).
  { intros x Hx. rewrite list_elem_of_filter. unfold unsupported.
    rewrite Forall_forall. split; [|tauto].
    intros Hn. destruct (decide (Forall (λ y, y = x) dj)) as [Hd|Hd].
    - by apply Forall_forall.
    - exfalso. apply Hn. split; [|done]. by rewrite <- Forall_forall. }
  repeat split; try done.
  - by apply Hdrop.
  - by apply Hdrop.
  - rewrite <- unsupported_singleton by done. unfold unsupported.
    by rewrite Forall_forall.
  - rewrite <- unsupported_singleton by done. unfold unsupported.
    by rewrite Forall_forall.
  - intros Hy. apply unsupported_NoDup; try done. unfold unsupported.
    by rewrite Forall_forall.
  - intros ->. by intros y ->%list_elem_of_singleton.
  - by rewrite lookup_insert_ne.
  - intros z Hz. by rewrite lookup_insert_ne.
  - intros Hr%bool_decide_eq_true. apply Exists_exists in Hr as (x & Hx & Hu).
    exists x. split; [done|]. apply Hdrop; [done|]. by apply Forall_forall.
  - intros (x & Hx & Hn). apply bool_decide_eq_true, Exists_exists.
    exists x. split; [done|]. apply Forall_forall. by apply Hdrop.
Qed.

(** Scenario E: A has {Red}, B has {Red, Green}; [revise(B, A)] leaves
    B with {Green} and reports a revision. *)
Lemma revise_removes_unsupported_witness :
  ∃ doms',
    revise {["A" := ["Red"]; "B" := ["Red"; "Green"]]}%string "B"%string "A"%string
      = Ret (doms', true) ∧
    doms' !! "B"%string = Some ["Green"%string] ∧
    doms' !! "A"%string = Some ["Red"%string].
Proof.
  destruct (revise_removes_unsupported
              {["A" := ["Red"]; "B" := ["Red"; "Green"]]}%string
              "B"%string "A"%string ["Red"; "Green"]%string ["Red"]%string)
    as (doms' & revised & Hr & Hb & _ & _ & _ & Ha & _ & Hrev);
    [reflexivity | reflexivity | done | done |].
  exists doms'. split; [|split; [|done]].
  - rewrite Hr. f_equal. f_equal. apply Hrev.
    exists "Red"%string. split; [by left|]. rewrite Hb. vm_compute.
    intros H. apply list_elem_of_singleton in H. discriminate.
  - rewrite Hb. reflexivity.
Defined.

(** ** Forward checking *)

(** [n] is a neighbour forward checking prunes: unassigned, with [value]
    in its domain. *)
Definition fc_hit (value : string) (assignment : Assignment) (doms : Domains)
    (n : string) : Prop :=
  assignment !! n = None ∧ value ∈ default [] (doms !! n).

Global Instance fc_hit_dec value assignment doms n :
  Decision (fc_hit value assignment doms n).
Proof. unfold fc_hit. apply _. Defined.

(** The domain of [z] once the neighbours [ns] have been processed. *)
Definition fc_pruned (value : string) (assignment : Assignment) (doms : Domains)
    (ns : list string) (z : string) : option (list string) :=
  if decide (z ∈ ns ∧ fc_hit value assignment doms z)
  then list_remove_first value <$> doms !! z
  else doms !! z.

Lemma list_remove_first_nil x l :
  x ∈ l → (list_remove_first x l = [] ↔ l = [x]).
Proof.
  destruct l as [|y l]; [by intros ?%elem_of_nil|]. simpl. intros Hx.
  destruct (decide (y = x)) as [->|Hne].
  - split; [by intros ->|congruence].
  - split; [done|]. intros [= ? ?]. congruence.
Qed.

Lemma list_remove_first_length x l :
  x ∈ l → S (length (list_remove_first x l)) = length l.
Proof.
  induction l as [|y l IH]; [by intros ?%elem_of_nil|]. simpl.
  destruct (decide (y = x)) as [->|Hne]; [done|].
  intros [?|Hx]%elem_of_cons; [congruence|]. simpl. by rewrite IH.
Qed.

Lemma list_remove_first_subseteq x l : list_remove_first x l ⊆ l.
Proof.
  induction l as [|y l IH]; simpl; [done|].
  destruct (decide (y = x)); [by apply list_subseteq_cons|].
  intros z [->|Hz]%elem_of_cons; [by left|]. right. by apply IH.
Qed.

Lemma list_remove_first_other x y l :
  y ≠ x → y ∈ l → y ∈ list_remove_first x l.
Proof.
  intros Hne. induction l as [|z l IH]; simpl; [done|].
  intros [->|Hy]%elem_of_cons.
  - rewrite decide_False by done. by left.
  - destruct (decide (z = x)); [done|]. right. by apply IH.
Qed.

Lemma list_filter_iff_in {A} (P Q : A → Prop)
    `{!∀ x, Decision (P x), !∀ x, Decision (Q x)} (l : list A) :
  (∀ x, x ∈ l → P x ↔ Q x) → filter P l = filter Q l.
Proof.
  induction l as [|x l IH]; intros Hpq; [done|]. rewrite !filter_cons.
  rewrite IH by (intros y Hy; apply Hpq; by right).
  apply decide_ext, Hpq. by left.
Qed.

Lemma fc_hit_insert_ne value assignment (doms : Domains) n m l :
  n ≠ m →
  fc_hit value assignment (<[n := l]> doms) m ↔ fc_hit value assignment doms m.
Proof. intros Hne. unfold fc_hit. by rewrite lookup_insert_ne. Qed.

Lemma fc_loop_no_wipeout value assignment nbrs : ∀ (doms : Domains) k,
  NoDup nbrs →
  (∀ n, n ∈ nbrs → assignment !! n = None → is_Some (doms !! n)) →
  (∀ n, n ∈ nbrs → fc_hit value assignment doms n → doms !! n ≠ Some [value]) →
  ∃ doms',
    fc_loop value assignment nbrs doms k
      = Ret (doms', Pruned (k + Z.of_nat (length (filter (fc_hit value assignment doms) nbrs)))) ∧
    ∀ z, doms' !! z = fc_pruned value assignment doms nbrs z.
Proof.
  induction nbrs as [|n nbrs IH]; intros doms k Hnd Hcov Hnw; simpl.
  { exists doms. split; [by rewrite Z.add_0_r|]. intros z. unfold fc_pruned.
    rewrite decide_False; [done|]. by intros [?%elem_of_nil _]. }
  apply NoDup_cons in Hnd as [Hn Hnd]. rewrite filter_cons.
  destruct (assignment !! n) as [c|] eqn:Ha.
  - rewrite decide_False by (intros [? _]; congruence).
    destruct (IH doms k Hnd) as (doms' & -> & Hd').
    { intros m Hm. apply Hcov. by right. }
    { intros m Hm. apply Hnw. by right. }
    exists doms'. split; [done|]. intros z. rewrite Hd'. unfold fc_pruned.
    apply decide_ext. rewrite elem_of_cons. unfold fc_hit. split; [tauto|].
    intros [[->|?] [? ?]]; [congruence|tauto].
  - destruct (Hcov n) as [dn Hdn]; [by left|done|]. rewrite Hdn.
    case_bool_decide as Hin.
    + assert (Hhit : fc_hit value assignment doms n).
      { split; [done|]. by rewrite Hdn. }
      rewrite decide_True by done.
      rewrite bool_decide_eq_false_2.
      2:{ rewrite length_zero_iff_nil, list_remove_first_nil by done.
          intros ->. by eapply Hnw; [left|..]. }
      destruct (IH (<[n := list_remove_first value dn]> doms) (k + 1) Hnd)
        as (doms' & -> & Hd').
      { intros m Hm Hma. rewrite lookup_insert_ne by (intros ->; done).
        apply Hcov; [by right|done]. }
      { intros m Hm. rewrite fc_hit_insert_ne by (intros ->; done).
        rewrite lookup_insert_ne by (intros ->; done). apply Hnw. by right. }
      exists doms'. split.
      * do 3 f_equal. simpl.
        rewrite (list_filter_iff_in (fc_hit value assignment (<[n:=list_remove_first value dn]> doms))
                   (fc_hit value assignment doms) nbrs).
        { lia. }
        intros m Hm. apply fc_hit_insert_ne. by intros ->.
      * intros z. rewrite Hd'. unfold fc_pruned.
        destruct (decide (z = n)) as [->|Hzn].
        -- rewrite decide_False by tauto. rewrite lookup_insert_eq.
           rewrite decide_True by (split; [by left|done]). by rewrite Hdn.
        -- rewrite lookup_insert_ne by done.
           apply decide_ext. rewrite fc_hit_insert_ne by done.
           rewrite elem_of_cons. tauto.
    + rewrite decide_False.
      2:{ intros [_ Hv]. by rewrite Hdn in Hv. }
      destruct (IH doms k Hnd) as (doms' & -> & Hd').
      { intros m Hm. apply Hcov. by right. }
      { intros m Hm. apply Hnw. by right. }
      exists doms'. split; [done|]. intros z. rewrite Hd'. unfold fc_pruned.
      apply decide_ext. rewrite elem_of_cons. unfold fc_hit. split; [tauto|].
      intros [[->|?] [? Hv]]; [|tauto]. by rewrite Hdn in Hv.
Qed.

Lemma fc_loop_wipeout value assignment pre : ∀ (doms : Domains) k y post,
  NoDup (pre ++ y :: post) →
  (∀ n, n ∈ pre → assignment !! n = None → is_Some (doms !! n)) →
  (∀ n, n ∈ pre → fc_hit value assignment doms n → doms !! n ≠ Some [value]) →
  assignment !! y = None → doms !! y = Some [value] →
  ∃ doms',
    fc_loop value assignment (pre ++ y :: post) doms k = Ret (doms', Wipeout) ∧
    doms' !! y = Some [] ∧
    ∀ z, z ≠ y → doms' !! z = fc_pruned value assignment doms pre z.
Proof.
  induction pre as [|n pre IH]; intros doms k y post Hnd Hcov Hnw Hay Hdy; simpl.
  { rewrite Hay, Hdy. rewrite bool_decide_eq_true_2 by by left. simpl.
    rewrite decide_True by done. simpl. eexists. split; [done|].
    split; [by rewrite lookup_insert_eq|]. intros z Hz.
    rewrite lookup_insert_ne by done. unfold fc_pruned.
    rewrite decide_False; [done|]. by intros [?%elem_of_nil _]. }
  apply NoDup_cons in Hnd as [Hn Hnd].
  assert (Hny : n ≠ y).
  { intros ->. apply Hn, elem_of_app. right. by left. }
  assert (Hnpre : n ∉ pre).
  { intros H. apply Hn, elem_of_app. by left. }
  destruct (assignment !! n) as [c|] eqn:Ha.
  - destruct (IH doms k y post Hnd) as (doms' & -> & Hy' & Hd'); try done.
    { intros m Hm. apply Hcov. by right. }
    { intros m Hm. apply Hnw. by right. }
    exists doms'. repeat split; try done. intros z Hz. rewrite Hd' by done.
    unfold fc_pruned. apply decide_ext. rewrite elem_of_cons. unfold fc_hit.
    split; [tauto|]. intros [[->|?] [? ?]]; [congruence|tauto].
  - destruct (Hcov n) as [dn Hdn]; [by left|done|]. rewrite Hdn.
    case_bool_decide as Hin.
    + assert (Hhit : fc_hit value assignment doms n).
      { split; [done|]. by rewrite Hdn. }
      rewrite bool_decide_eq_false_2.
      2:{ rewrite length_zero_iff_nil, list_remove_first_nil by done.
          intros ->. by eapply Hnw; [left|..]. }
      destruct (IH (<[n := list_remove_first value dn]> doms) (k + 1) y post Hnd)
        as (doms' & -> & Hy' & Hd'); try done.
      { intros m Hm Hma. rewrite lookup_insert_ne by (intros ->; done).
        apply Hcov; [by right|done]. }
      { intros m Hm. rewrite fc_hit_insert_ne by (intros ->; done).
        rewrite lookup_insert_ne by (intros ->; done). apply Hnw. by right. }
      { by rewrite lookup_insert_ne. }
      exists doms'. repeat split; try done. intros z Hz. rewrite Hd' by done.
      unfold fc_pruned. destruct (decide (z = n)) as [->|Hzn].
      * rewrite decide_False by tauto. rewrite lookup_insert_eq.
        rewrite decide_True by (split; [by left|done]). by rewrite Hdn.
      * rewrite lookup_insert_ne by done.
        apply decide_ext. rewrite fc_hit_insert_ne by done.
        rewrite elem_of_cons. tauto.
    + destruct (IH doms k y post Hnd) as (doms' & -> & Hy' & Hd'); try done.
      { intros m Hm. apply Hcov. by right. }
      { intros m Hm. apply Hnw. by right. }
      exists doms'. repeat split; try done. intros z Hz. rewrite Hd' by done.
      unfold fc_pruned. apply decide_ext. rewrite elem_of_cons. unfold fc_hit.
      split; [tauto|]. intros [[->|?] [? Hv]]; [|tauto]. by rewrite Hdn in Hv.
Qed.

Lemma first_such {A} (P : A → Prop) `{!∀ x, Decision (P x)} (l : list A) y :
  y ∈ l → P y →
  ∃ pre y' post, l = pre ++ y' :: post ∧ P y' ∧ ∀ n, n ∈ pre → ¬ P n.
Proof.
  induction l as [|x l IH]; [by intros ?%elem_of_nil|]. intros Hy HP.
  destruct (decide (P x)) as [Hx|Hx].
  - exists [], x, l. repeat split; [done|]. by intros n ?%elem_of_nil.
  - apply elem_of_cons in Hy as [->|Hy]; [done|].
    destruct (IH Hy HP) as (pre & y' & post & -> & Hy' & Hpre).
    exists (x :: pre), y', post. repeat split; [done|].
    intros n [->|Hn]%elem_of_cons; [done|]. by apply Hpre.
Qed.

(** C6 (as amended). Forward checking walks the neighbours of X in
    neighbour order. When no unassigned neighbour has the domain [[v]], it
    returns the number of unassigned neighbours whose domain held [v], and
    exactly those domains have lost (the first occurrence of) [v]. When
    [y] is the first unassigned neighbour whose domain is [[v]], it
    returns failure with [y]'s domain empty, the removals made for the
    neighbours before [y] in place, and the neighbours after [y]
    untouched. Whenever some unassigned neighbour has the domain [[v]], it
    returns failure. *)
Theorem forward_checking_contract csp (X v : string) (assignment : Assignment)
    (doms : Domains) :
  X ∈ graph_nodes csp →
  (∀ n, n ∈ adj csp X → assignment !! n = None → is_Some (doms !! n)) →
  ((∀ n, n ∈ adj csp X → fc_hit v assignment doms n → doms !! n ≠ Some [v]) →
     ∃ doms',
       forward_checking csp X v assignment doms
         = Ret (doms', Pruned (Z.of_nat (length (filter (fc_hit v assignment doms) (adj csp X))))) ∧
       ∀ z, doms' !! z = fc_pruned v assignment doms (adj csp X) z) ∧
  (∀ pre y post,
     adj csp X = pre ++ y :: post →
     assignment !! y = None → doms !! y = Some [v] →
     (∀ n, n ∈ pre → fc_hit v assignment doms n → doms !! n ≠ Some [v]) →
     ∃ doms',
       forward_checking csp X v assignment doms = Ret (doms', Wipeout) ∧
       doms' !! y = Some [] ∧
       (∀ z, z ∈ pre → doms' !! z = fc_pruned v assignment doms pre z) ∧
       (∀ z, z ∉ pre → z ≠ y → doms' !! z = doms !! z)) ∧
  (∀ y, y ∈ adj csp X → assignment !! y = None → doms !! y = Some [v] →
     ∃ doms', forward_checking csp X v assignment doms = Ret (doms', Wipeout)).
Proof.
  intros HX Hcov. unfold forward_checking. rewrite get_neighbors_node by done.
  simpl.
  assert (Hwipe : ∀ pre y post,
     adj csp X = pre ++ y :: post →
     assignment !! y = None → doms !! y = Some [v] →
     (∀ n, n ∈ pre → fc_hit v assignment doms n → doms !! n ≠ Some [v]) →
     ∃ doms',
       fc_loop v assignment (adj csp X) doms 0 = Ret (doms', Wipeout) ∧
       doms' !! y = Some [] ∧
       (∀ z, z ∈ pre → doms' !! z = fc_pruned v assignment doms pre z) ∧
       (∀ z, z ∉ pre → z ≠ y → doms' !! z = doms !! z)).
  { intros pre y post Heq Hay Hdy Hnw.
    pose proof (NoDup_adj csp X) as Hnd. rewrite Heq in Hnd |- *.
    destruct (fc_loop_wipeout v assignment pre doms 0 y post Hnd)
      as (doms' & -> & Hy' & Hd'); try done.
    { intros n Hn. apply Hcov. rewrite Heq. apply elem_of_app. by left. }
    exists doms'. repeat split; try done.
    - intros z Hz. apply Hd'. intros ->.
      apply NoDup_app in Hnd as (_ & Hnd & _). apply (Hnd y Hz). by left.
    - intros z Hz Hzy. rewrite Hd' by done. unfold fc_pruned.
      rewrite decide_False; [done|]. tauto. }
  split; [|split].
  - intros Hnw.
    destruct (fc_loop_no_wipeout v assignment (adj csp X) doms 0
                (NoDup_adj csp X) Hcov Hnw) as (doms' & -> & Hd').
    by exists doms'.
  - done.
  - intros y Hy Hay Hdy.
    destruct (first_such (λ n, assignment !! n = None ∧ doms !! n = Some [v])
                (adj csp X) y Hy) as (pre & y' & post & Heq & [Hay' Hdy'] & Hpre);
      [done|].
    destruct (Hwipe pre y' post Heq Hay' Hdy') as (doms' & -> & _).
    { intros n Hn [Hh _] Hd. apply (Hpre n Hn). by split. }
    by exists doms'.
Qed.

Definition scenario_D_model : CSPModel :=
  {| variables := ["X"; "Y"]%string;
     domains := {["X" := ["Red"; "Green"]; "Y" := ["Red"]]}%string;
     constraints := [("X", "Y")]%string |}.

(** Scenario D: X is assigned Red, its only neighbour Y has {Red}. *)
Lemma forward_checking_contract_witness :
  ∃ doms',
    forward_checking scenario_D_model "X"%string "Red"%string
        {["X" := "Red"]}%string (domains scenario_D_model)
      = Ret (doms', Wipeout) ∧
    doms' !! "Y"%string = Some [].
Proof.
  destruct (forward_checking_contract scenario_D_model "X"%string "Red"%string
              {["X" := "Red"]}%string (domains scenario_D_model))
    as (_ & Hw & _).
  - vm_compute. left.
  - intros n Hn _. revert n Hn. apply Forall_forall. vm_compute.
    repeat constructor. by eexists.
  - destruct (Hw [] "Y"%string []) as (doms' & Hfc & Hy & _);
      [reflexivity | reflexivity | reflexivity | |].
    + by intros n ?%elem_of_nil.
    + by exists doms'.
Defined.

Definition two_singletons : CSPModel :=
  {| variables := ["X"; "W"; "Y"]%string;
     domains := {["X" := ["Red"; "Green"]; "W" := ["Red"]; "Y" := ["Red"]]}%string;
     constraints := [("X", "W"); ("X", "Y")]%string |}.

(** Against C6 as stated: Y is an unassigned neighbour of X with domain
    exactly {Red}, yet after the failing call its domain still holds Red,
    because the earlier neighbour W was wiped out first. *)
Lemma forward_checking_later_singleton_kept :
  "Y"%string ∈ adj two_singletons "X"%string ∧
  ({["X" := "Red"]}%string : Assignment) !! "Y"%string = None ∧
  domains two_singletons !! "Y"%string = Some ["Red"%string] ∧
  ∃ doms',
    forward_checking two_singletons "X"%string "Red"%string
        {["X" := "Red"]}%string (domains two_singletons)
      = Ret (doms', Wipeout) ∧
    doms' !! "Y"%string = Some ["Red"%string] ∧
    doms' !! "Y"%string ≠ Some [].
Proof.
  split; [vm_compute; right; left|].
  split; [reflexivity|]. split; [reflexivity|].
  eexists. split; [vm_compute; reflexivity|].
  split; [reflexivity|]. vm_compute. discriminate.
Qed.

(** ** Inference only narrows domains *)

(** [doms'] has the keys of [doms], every domain is a sublist of what it
    was, and the domains of the protected variables are what they were. *)
Definition narrows (prot : string → Prop) (doms doms' : Domains) : Prop :=
  ∀ z, match doms !! z with
       | Some l => ∃ l', doms' !! z = Some l' ∧ l' `sublist_of` l ∧ (prot z → l' = l)
       | None => doms' !! z = None
       end.

Lemma narrows_refl prot doms : narrows prot doms doms.
Proof. intros z. destruct (doms !! z) as [l|] eqn:E; [|done]. by exists l. Qed.

Lemma narrows_trans prot d1 d2 d3 :
  narrows prot d1 d2 → narrows prot d2 d3 → narrows prot d1 d3.
Proof.
  intros H12 H23 z. specialize (H12 z). specialize (H23 z).
  destruct (d1 !! z) as [l1|].
  - destruct H12 as (l2 & E2 & Hs2 & Hp2). rewrite E2 in H23.
    destruct H23 as (l3 & E3 & Hs3 & Hp3). exists l3. split; [done|].
    split; [by etrans|]. intros Hp. by rewrite Hp3, Hp2.
  - by rewrite H12 in H23.
Qed.

Lemma narrows_insert prot (doms : Domains) x l l' :
  doms !! x = Some l → l' `sublist_of` l → (prot x → l' = l) →
  narrows prot doms (<[x := l']> doms).
Proof.
  intros Hx Hs Hp z. destruct (decide (z = x)) as [->|Hne].
  - rewrite Hx, lookup_insert_eq. by exists l'.
  - rewrite lookup_insert_ne by done.
    destruct (doms !! z) as [lz|] eqn:E; [|done]. by exists lz.
Qed.

Lemma narrows_lookup prot doms doms' z l' :
  narrows prot doms doms' → doms' !! z = Some l' →
  ∃ l, doms !! z = Some l ∧ l' `sublist_of` l ∧ (prot z → l' = l).
Proof.
  intros H E. specialize (H z). destruct (doms !! z) as [l|]; [|congruence].
  destruct H as (l'' & E' & ? & ?). exists l. by simplify_eq.
Qed.

Lemma narrows_is_Some prot doms doms' z :
  narrows prot doms doms' → is_Some (doms' !! z) ↔ is_Some (doms !! z).
Proof.
  intros H. specialize (H z). destruct (doms !! z) as [l|].
  - destruct H as (l' & -> & _). split; by eexists.
  - rewrite H. split; by intros [? ?].
Qed.

Lemma narrows_protected prot doms doms' z :
  narrows prot doms doms' → prot z → doms' !! z = doms !! z.
Proof.
  intros H Hp. specialize (H z). destruct (doms !! z) as [l|]; [|done].
  destruct H as (l' & -> & _ & Heq). by rewrite Heq.
Qed.

Lemma narrows_weaken (prot prot' : string → Prop) doms doms' :
  (∀ z, prot' z → prot z) → narrows prot doms doms' → narrows prot' doms doms'.
Proof.
  intros Hw H z. specialize (H z). destruct (doms !! z) as [l|]; [|done].
  destruct H as (l' & ? & ? & ?). exists l'. eauto.
Qed.

Lemma narrows_union prot (doms doms' : Domains) :
  narrows prot doms doms' → doms ∪ doms' = doms.
Proof.
  intros H. apply map_eq. intros z. rewrite lookup_union. specialize (H z).
  destruct (doms !! z) as [l|]; [|by rewrite H].
  destruct H as (l' & -> & _). done.
Qed.

Lemma total_size_comm (j1 j2 : string) (z1 z2 : list string) (y : Z) :
  Z.of_nat (length z1) + (Z.of_nat (length z2) + y)
  = Z.of_nat (length z2) + (Z.of_nat (length z1) + y).
Proof. lia. Qed.

Lemma total_size_insert_fresh (doms : Domains) x l :
  doms !! x = None →
  total_size (<[x := l]> doms) = Z.of_nat (length l) + total_size doms.
Proof.
  intros Hx. unfold total_size. rewrite map_fold_insert_L; [done| |done].
  intros. apply total_size_comm; done.
Qed.

Lemma total_size_delete (doms : Domains) x l :
  doms !! x = Some l →
  total_size doms = Z.of_nat (length l) + total_size (delete x doms).
Proof.
  intros Hx. unfold total_size. rewrite (map_fold_delete_L _ _ x l); [done| |done].
  intros. apply total_size_comm; done.
Qed.

Lemma total_size_insert (doms : Domains) x l l' :
  doms !! x = Some l →
  total_size (<[x := l']> doms)
  = total_size doms - Z.of_nat (length l) + Z.of_nat (length l').
Proof.
  intros Hx. rewrite <- insert_delete_eq.
  rewrite total_size_insert_fresh by apply lookup_delete_eq.
  rewrite (total_size_delete doms x l) by done. lia.
Qed.

Lemma total_size_nonneg (doms : Domains) : 0 ≤ total_size doms.
Proof.
  induction doms as [|x l m Hx IH] using map_ind; [done|].
  rewrite total_size_insert_fresh by done. lia.
Qed.

Lemma narrows_total_size prot doms : ∀ doms',
  narrows prot doms doms' → total_size doms' ≤ total_size doms.
Proof.
  induction doms as [|x l m Hx IH] using map_ind; intros doms' H.
  - assert (doms' = ∅) as ->; [|done]. apply map_eq. intros z.
    specialize (H z). by rewrite lookup_empty in H |- *.
  - pose proof (H x) as Hxx. rewrite lookup_insert_eq in Hxx.
    destruct Hxx as (l' & E' & Hs & _).
    rewrite total_size_insert_fresh by done.
    rewrite (total_size_delete doms' x l') by done.
    assert (narrows prot m (delete x doms')) as Hn.
    { intros z. destruct (decide (z = x)) as [->|Hne].
      - by rewrite Hx, lookup_delete_eq.
      - specialize (H z). rewrite lookup_insert_ne in H by done.
        by rewrite lookup_delete_ne. }
    apply IH in Hn. apply sublist_length in Hs. lia.
Qed.

Lemma list_remove_first_sublist x l : list_remove_first x l `sublist_of` l.
Proof.
  induction l as [|y l IH]; simpl; [done|].
  destruct (decide (y = x)); [by apply sublist_cons|by apply sublist_skip].
Qed.

Definition assigned (assignment : Assignment) (x : string) : Prop :=
  is_Some (assignment !! x).

Lemma fc_loop_narrows value assignment nbrs : ∀ (doms : Domains) k doms' r,
  fc_loop value assignment nbrs doms k = Ret (doms', r) →
  narrows (assigned assignment) doms doms' ∧ (∀ n, r = Pruned n → k ≤ n).
Proof.
  induction nbrs as [|n nbrs IH]; intros doms k doms' r; simpl.
  { intros [= <- <-]. split; [apply narrows_refl|]. intros ? [= <-]. lia. }
  destruct (assignment !! n) as [c|] eqn:Ha; [by apply IH|].
  destruct (doms !! n) as [dn|] eqn:Hdn; [|done].
  case_bool_decide; [|by apply IH].
  assert (narrows (assigned assignment) doms (<[n:=list_remove_first value dn]> doms)) as Hn.
  { eapply narrows_insert; [done|apply list_remove_first_sublist|].
    intros [? ?]. congruence. }
  case_bool_decide.
  - intros [= <- <-]. split; [done|]. by intros ? [=].
  - intros Hl. apply IH in Hl as [Hn' Hk]. split; [by eapply narrows_trans|].
    intros m Hm. specialize (Hk m Hm). lia.
Qed.

Lemma ac3_prepass_fc_loop value assignment nbrs : ∀ (doms : Domains) k,
  ac3_prepass value assignment nbrs doms
  = fc_loop value assignment nbrs doms k ≫=
      (λ p, Ret (p.1, match p.2 with Wipeout => false | Pruned _ => true end)).
Proof.
  induction nbrs as [|n nbrs IH]; intros doms k; simpl; [done|].
  destruct (assignment !! n); [by apply IH|].
  destruct (doms !! n); [|done].
  case_bool_decide; [|by apply IH].
  case_bool_decide; [done|by apply IH].
Qed.

Lemma ac3_prepass_narrows value assignment nbrs (doms : Domains) doms' ok :
  ac3_prepass value assignment nbrs doms = Ret (doms', ok) →
  narrows (assigned assignment) doms doms'.
Proof.
  rewrite (ac3_prepass_fc_loop _ _ _ _ 0). intros H. inv_bind H.
  destruct a as [d1 r]. simpl in H. injection H as <- _.
  by apply fc_loop_narrows in Hcall as [? _].
Qed.

Lemma revise_narrows prot (doms : Domains) xi xj doms' revised :
  revise doms xi xj = Ret (doms', revised) → ¬ prot xi →
  narrows prot doms doms' ∧
  (revised = true → total_size doms' < total_size doms).
Proof.
  unfold revise. destruct (doms !! xi) as [di|] eqn:Hi; [|done].
  destruct (decide (di = [])) as [->|Hne].
  { intros [= <- <-] _. split; [apply narrows_refl|done]. }
  assert (∀ T (k1 k2 : T), match di with [] => k1 | _ :: _ => k2 end = k2) as ->
    by (intros; by destruct di).
  destruct (doms !! xj) as [dj|] eqn:Hj; [|done].
  pose proof (remove_each_is_filter (λ x, has_support x dj = false) di []) as Hr.
  simpl in Hr. rewrite Hr by (intros x Hx; by apply elem_of_nil in Hx).
  intros [= <- <-] Hp. split.
  - eapply narrows_insert; [done|apply sublist_filter|tauto].
  - intros Hrev%bool_decide_eq_true.
    rewrite (total_size_insert doms xi di) by done.
    destruct (filter (λ x, has_support x dj = false) di) as [|x r] eqn:E; [done|].
    assert (x ∈ filter (λ x, has_support x dj = false) di) as Hx
      by (rewrite E; by left).
    apply list_elem_of_filter in Hx as [Hb Hx].
    pose proof (length_filter_lt (λ x, ¬ has_support x dj = false) di x Hx) as Hlt.
    assert (¬ ¬ has_support x dj = false) as Hnn by tauto.
    specialize (Hlt Hnn). lia.
Qed.

Definition skipped (assignment : option Assignment) (x : string) : Prop :=
  is_Some (assignment ≫= (.!! x)).

Lemma enforce_loop_narrows csp assignment fuel : ∀ queue (doms : Domains) doms' ok,
  enforce_loop fuel csp assignment queue doms = Ret (doms', ok) →
  narrows (skipped assignment) doms doms'.
Proof.
  induction fuel as [|fuel IH]; intros queue doms doms' ok; simpl; [done|].
  destruct queue as [|[xi xj] queue].
  { intros [= <- <-]. apply narrows_refl. }
  case_bool_decide as Hskip; [by apply IH|].
  intros H. inv_bind H. destruct a as [doms1 revised].
  apply (revise_narrows (skipped assignment)) in Hcall as [Hn _]; [|done].
  destruct revised.
  - case_bool_decide.
    + by injection H as <- <-.
    + inv_bind H. apply IH in H. by eapply narrows_trans.
  - apply IH in H. by eapply narrows_trans.
Qed.

Lemma ac3_inference_narrows fuel csp var value assignment (doms : Domains) doms' r :
  ac3_inference fuel csp var value assignment doms = Ret (doms', r) →
  narrows (assigned assignment) doms doms' ∧ (∀ n, r = Pruned n → 0 ≤ n).
Proof.
  unfold ac3_inference. intros H. inv_bind H. inv_bind H.
  destruct a0 as [doms1 ok]. apply ac3_prepass_narrows in Hcall0.
  destruct ok.
  - inv_bind H. destruct a0 as [doms2 consistent].
    apply enforce_loop_narrows in Hcall1.
    assert (narrows (assigned assignment) doms doms2) as Hn
      by by eapply narrows_trans.
    destruct consistent; injection H as <- <-.
    + split; [done|]. intros n [= <-].
      apply narrows_total_size in Hn. lia.
    + split; [done|]. by intros n [=].
  - injection H as <- <-. split; [done|]. by intros n [=].
Qed.

Lemma forward_checking_narrows csp var value assignment (doms : Domains) doms' r :
  forward_checking csp var value assignment doms = Ret (doms', r) →
  narrows (assigned assignment) doms doms' ∧ (∀ n, r = Pruned n → 0 ≤ n).
Proof.
  unfold forward_checking. intros H. inv_bind H. by apply fc_loop_narrows in H.
Qed.

(** C8. Whatever [forward_checking] or [ac3_inference] returns (a count
    or a failure), the domains it leaves have the keys they had, each
    domain is a sublist of what it was, and the domain of every variable
    of the assignment is exactly what it was. *)
Theorem inference_keeps_assigned_domains fuel csp (var value : string)
    (assignment : Assignment) (doms doms' : Domains) (r : infer_result) :
  forward_checking csp var value assignment doms = Ret (doms', r) ∨
  ac3_inference fuel csp var value assignment doms = Ret (doms', r) →
  (∀ x, is_Some (assignment !! x) → doms' !! x = doms !! x) ∧
  (∀ z l', doms' !! z = Some l' →
     ∃ l, doms !! z = Some l ∧ l' `sublist_of` l ∧
          (l' ≠ l → assignment !! z = None)) ∧
  dom doms' = dom doms.
Proof.
  intros H.
  assert (narrows (assigned assignment) doms doms') as Hn.
  { destruct H as [H|H].
    - by apply forward_checking_narrows in H as [? _].
    - by apply ac3_inference_narrows in H as [? _]. }
  split; [|split].
  - intros x Hx. by eapply narrows_protected.
  - intros z l' Hz.
    destruct (narrows_lookup _ _ _ _ _ Hn Hz) as (l & Hl & Hs & Hp).
    exists l. repeat split; try done. intros Hne.
    destruct (assignment !! z) eqn:E; [|done].
    exfalso. apply Hne, Hp. by eexists.
  - apply set_eq. intros z. rewrite !elem_of_dom. by eapply narrows_is_Some.
Qed.

(** Both entry points on the Australia map after WA := Red. *)
Lemma inference_keeps_assigned_domains_witness :
  ∃ d1 r1 d2 r2,
    forward_checking australia "WA"%string "Red"%string
      {["WA" := "Red"]}%string (domains australia) = Ret (d1, r1) ∧
    ac3_inference 100 australia "WA"%string "Red"%string
      {["WA" := "Red"]}%string (domains australia) = Ret (d2, r2) ∧
    d1 !! "WA"%string = domains australia !! "WA"%string ∧
    d2 !! "WA"%string = domains australia !! "WA"%string.
Proof.
  eexists _, _, _, _.
  split; [vm_compute; reflexivity|]. split; [vm_compute; reflexivity|].
  split.
  - refine (proj1 (inference_keeps_assigned_domains 100 australia
      "WA"%string "Red"%string {["WA" := "Red"]}%string (domains australia)
      _ _ (or_introl _)) "WA"%string _); [vm_compute; reflexivity|].
    by eexists.
  - refine (proj1 (inference_keeps_assigned_domains 100 australia
      "WA"%string "Red"%string {["WA" := "Red"]}%string (domains australia)
      _ _ (or_intror _)) "WA"%string _); [vm_compute; reflexivity|].
    by eexists.
Defined.

(** ** Soundness of the search *)

Lemma size_list_to_set_le (l : list string) :
  (size (list_to_set l : gset string) ≤ length l)%nat.
Proof.
  induction l as [|x l IH]; [done|].
  rewrite list_to_set_cons, size_union_alt, size_singleton. simpl.
  assert (list_to_set l ∖ {[x]} ⊆ (list_to_set l : gset string)) as Hsub
    by (intros y Hy; by apply elem_of_difference in Hy as [? _]).
  apply subseteq_size in Hsub. lia.
Qed.

Section soundness.
Context (cfg : Config) (csp : CSPModel).
Hypothesis no_self_pairs : ∀ u v, (u, v) ∈ constraints csp → u ≠ v.
Hypothesis constraints_declared :
  ∀ u v, (u, v) ∈ constraints csp → u ∈ variables csp ∧ v ∈ variables csp.

(** The assignment only mentions declared variables, and no two
    neighbours in it hold the same value. *)
Definition conflict_free (assignment : Assignment) : Prop :=
  (∀ x, is_Some (assignment !! x) → x ∈ variables csp) ∧
  (∀ x n cx cn, n ∈ adj csp x →
     assignment !! x = Some cx → assignment !! n = Some cn → cx ≠ cn).

Lemma graph_nodes_declared x : x ∈ graph_nodes csp → x ∈ variables csp.
Proof using constraints_declared.
  unfold graph_nodes. intros [H|H]%elem_of_app; [done|].
  apply list_elem_of_In, in_flat_map in H as ([u v] & Hin & Hx).
  apply list_elem_of_In in Hin. apply constraints_declared in Hin as [? ?].
  simpl in Hx. destruct Hx as [<-|[<-|[]]]; done.
Qed.

Lemma adj_irrefl x : x ∉ adj csp x.
Proof using no_self_pairs.
  rewrite elem_of_adj. intros [H|H]; by apply no_self_pairs in H.
Qed.

Lemma conflict_free_empty : conflict_free ∅.
Proof.
  split.
  - intros x [c Hc]. by rewrite lookup_empty in Hc.
  - intros x n cx cn _ Hx. by rewrite lookup_empty in Hx.
Qed.

Lemma conflict_free_delete assignment x :
  conflict_free assignment → conflict_free (delete x assignment).
Proof.
  intros [Hv Hc]. split.
  - intros y [c Hy]. apply lookup_delete_Some in Hy as [_ Hy]. apply Hv. eauto.
  - intros y n cy cn Hn Hy Hn'.
    apply lookup_delete_Some in Hy as [_ Hy].
    apply lookup_delete_Some in Hn' as [_ Hn']. eauto.
Qed.

Lemma conflict_free_insert assignment var value :
  conflict_free assignment →
  is_consistent csp var value assignment = Ret true →
  conflict_free (<[var := value]> assignment).
Proof using no_self_pairs constraints_declared.
  intros [Hv Hc] Hcons. unfold is_consistent in Hcons. inv_bind Hcons.
  apply get_neighbors_Ret in Hcall as [-> Hnode].
  injection Hcons as Hall. rewrite forallb_forall in Hall.
  assert (Hfree : ∀ n, n ∈ adj csp var → assignment !! n ≠ Some value).
  { intros n Hn. apply list_elem_of_In, Hall in Hn.
    by apply negb_true_iff, bool_decide_eq_false in Hn. }
  split.
  - intros x [c Hx]. destruct (decide (x = var)) as [->|Hne].
    + by apply graph_nodes_declared.
    + rewrite lookup_insert_ne in Hx by done. apply Hv. eauto.
  - intros x n cx cn Hn Hx Hn'.
    destruct (decide (x = var)) as [->|Hxv].
    + rewrite lookup_insert_eq in Hx. injection Hx as <-.
      destruct (decide (n = var)) as [->|Hnv]; [by apply adj_irrefl in Hn|].
      rewrite lookup_insert_ne in Hn' by done.
      intros ->. by apply (Hfree n).
    + rewrite lookup_insert_ne in Hx by done.
      destruct (decide (n = var)) as [->|Hnv].
      * rewrite lookup_insert_eq in Hn'. injection Hn' as <-.
        apply adj_sym in Hn. intros ->. by apply (Hfree x).
      * rewrite lookup_insert_ne in Hn' by done. eauto.
Qed.

(** What soundness asks of one activation of the search. *)
Definition sound_call (rec : Assignment → Domains → SolverStats → res search_state)
    : Prop :=
  ∀ assignment doms st r assignment' doms' st',
    conflict_free assignment →
    rec assignment doms st = Ret (r, assignment', doms', st') →
    conflict_free assignment' ∧
    (∀ sol, r = Some sol → conflict_free sol ∧ is_complete csp sol = true).

Lemma try_values_sound rec var values :
  sound_call rec → sound_call (try_values rec cfg csp var values).
Proof using no_self_pairs constraints_declared.
  intros Hrec. induction values as [|value rest IH];
    intros assignment doms st r assignment' doms' st' Hinv; simpl.
  { intros [= <- <- <- <-]. split; [done|]. by intros sol [=]. }
  intros H. inv_bind H. destruct a.
  - pose proof (conflict_free_insert _ _ _ Hinv Hcall) as Hinv1.
    inv_bind H. destruct a as [[doms1 st1] inference_ok].
    inv_bind H. destruct a as [[[result assignment2] doms2] st2].
    assert (conflict_free assignment2 ∧
            (∀ sol, result = Some sol →
               conflict_free sol ∧ is_complete csp sol = true)) as [Hinv2 Hres].
    { destruct inference_ok.
      - by eapply Hrec.
      - injection Hcall1 as <- <- <- <-. split; [done|]. by intros sol [=]. }
    destruct result as [solution|].
    + injection H as <- <- <- <-. split; [done|].
      intros sol [= <-]. by apply Hres.
    + destruct (assignment2 !! var); [|done].
      eapply IH; [|done]. by apply conflict_free_delete.
  - by eapply IH.
Qed.

Lemma _backtrack_sound fuel : sound_call (_backtrack fuel cfg csp).
Proof using no_self_pairs constraints_declared.
  induction fuel as [|fuel IH];
    intros assignment doms st r assignment' doms' st' Hinv; simpl; [done|].
  case_bool_decide as Hbudget.
  { intros [= <- <- <- <-]. split; [done|]. by intros sol [=]. }
  destruct (is_complete csp assignment) eqn:Hcomp.
  { intros [= <- <- <- <-]. split; [done|]. by intros sol [= <-]. }
  intros H. inv_bind H. inv_bind H. destruct a as [var|]; [|done].
  by eapply (try_values_sound _ var a0 IH).
Qed.

Lemma complete_covers assignment x :
  conflict_free assignment → is_complete csp assignment = true →
  x ∈ variables csp → is_Some (assignment !! x).
Proof.
  intros [Hv _] Hc%bool_decide_eq_true Hx.
  assert (dom assignment ⊆ (list_to_set (variables csp) : gset string)) as Hsub.
  { intros y Hy%elem_of_dom. apply elem_of_list_to_set. by apply Hv. }
  assert (dom assignment = (list_to_set (variables csp) : gset string)) as Heq.
  { apply set_subseteq_size_eq; [done|]. rewrite size_dom, Hc.
    apply size_list_to_set_le. }
  apply elem_of_dom. rewrite Heq. by apply elem_of_list_to_set.
Qed.

Lemma no_conflict_true assignment cs :
  (∀ u v, (u, v) ∈ cs →
     ∃ cu cv, assignment !! u = Some cu ∧ assignment !! v = Some cv ∧ cu ≠ cv) →
  no_conflict assignment cs = Ret true.
Proof.
  induction cs as [|[u v] cs IH]; intros H; simpl; [done|].
  destruct (H u v) as (cu & cv & -> & -> & Hne); [by left|].
  rewrite bool_decide_eq_false_2 by done. apply IH.
  intros u' v' Huv. apply H. by right.
Qed.

Lemma complete_conflict_free_valid assignment :
  conflict_free assignment → is_complete csp assignment = true →
  (∀ x, x ∈ variables csp → is_Some (assignment !! x)) ∧
  (∀ u v, (u, v) ∈ constraints csp →
     ∃ cu cv, assignment !! u = Some cu ∧ assignment !! v = Some cv ∧ cu ≠ cv) ∧
  is_valid_solution csp assignment = Ret true.
Proof using no_self_pairs constraints_declared.
  intros Hinv Hc.
  assert (Hpairs : ∀ u v, (u, v) ∈ constraints csp →
     ∃ cu cv, assignment !! u = Some cu ∧ assignment !! v = Some cv ∧ cu ≠ cv).
  { intros u v Huv. destruct (constraints_declared u v Huv) as [Hu Hv].
    destruct (complete_covers assignment u Hinv Hc Hu) as [cu Hcu].
    destruct (complete_covers assignment v Hinv Hc Hv) as [cv Hcv].
    exists cu, cv. repeat split; try done.
    destruct Hinv as [_ Hfree]. apply (Hfree u v); [|done|done].
    apply elem_of_adj. by left. }
  split; [|split; [done|]].
  - intros x Hx. by apply complete_covers.
  - unfold is_valid_solution. rewrite Hc. simpl. by apply no_conflict_true.
Qed.
End soundness.

(** C1. On a model whose constraints have no self-pairs and relate
    declared variables, with any variable-selection, value-ordering and
    inference callables and any budget and fuel: an assignment returned
    by [solve] assigns every variable, gives the two ends of every
    constraint different values, and [is_valid_solution] returns true on
    it. *)
Theorem solve_sound fuel cfg csp start_time end_time self_stats
    (A : Assignment) (stats : SolverStats) :
  (∀ u v, (u, v) ∈ constraints csp → u ≠ v) →
  (∀ u v, (u, v) ∈ constraints csp → u ∈ variables csp ∧ v ∈ variables csp) →
  solve fuel cfg csp start_time end_time self_stats = Ret (Some A, stats) →
  (∀ x, x ∈ variables csp → is_Some (A !! x)) ∧
  (∀ u v, (u, v) ∈ constraints csp →
     ∃ cu cv, A !! u = Some cu ∧ A !! v = Some cv ∧ cu ≠ cv) ∧
  is_valid_solution csp A = Ret true.
Proof.
  intros Hns Hdecl H. unfold solve in H. inv_bind H.
  destruct a as [[[result assignment'] doms'] st']. injection H as -> _.
  destruct (_backtrack_sound cfg csp Hns Hdecl fuel _ _ _ _ _ _ _
              (conflict_free_empty csp) Hcall) as [_ Hsol].
  destruct (Hsol A eq_refl) as [Hinv Hc].
  by apply complete_conflict_free_valid.
Qed.

Lemma solve_sound_witness :
  ∃ A stats,
    solve 4 (create_solver 0 VarDeclared ValDefault InfNone 100000)
          (triangle ["Red"; "Green"; "Blue"]%string) 0 0 fresh_stats
      = Ret (Some A, stats) ∧
    is_valid_solution (triangle ["Red"; "Green"; "Blue"]%string) A = Ret true.
Proof.
  eexists _, _. split; [vm_compute; reflexivity|].
  refine (proj2 (proj2 (solve_sound 4
    (create_solver 0 VarDeclared ValDefault InfNone 100000)
    (triangle ["Red"; "Green"; "Blue"]%string) 0 0 fresh_stats _ _ _ _ _))).
  - intros u v Huv.
    assert (Forall (λ e : string * string, e.1 ≠ e.2)
              (constraints (triangle ["Red"; "Green"; "Blue"]%string))) as HF
      by by_compute.
    rewrite Forall_forall in HF. apply (HF (u, v) Huv).
  - intros u v Huv.
    assert (Forall (λ e : string * string,
              e.1 ∈ variables (triangle ["Red"; "Green"; "Blue"]%string) ∧
              e.2 ∈ variables (triangle ["Red"; "Green"; "Blue"]%string))
              (constraints (triangle ["Red"; "Green"; "Blue"]%string))) as HF
      by by_compute.
    rewrite Forall_forall in HF. apply (HF (u, v) Huv).
  - vm_compute. reflexivity.
Defined.

(** ** Counters *)

Section counters.
Context (cfg : Config) (csp : CSPModel).

(** Every count an inference call reports is non-negative. *)
Definition counts_nonneg : Prop :=
  ∀ infer var value assignment doms doms' n,
    inference cfg = Some infer →
    infer csp var value assignment doms = Ret (doms', Pruned n) → 0 ≤ n.

(** No counter goes down, and the node counter stays within the budget;
    a call that returns an assignment leaves the counter below it. *)
Definition counted (st : SolverStats) (r : option Assignment) (st' : SolverStats)
    : Prop :=
  nodes_explored st ≤ nodes_explored st' ∧
  backtracks st ≤ backtracks st' ∧
  inference_calls st ≤ inference_calls st' ∧
  (counts_nonneg → pruned_values st ≤ pruned_values st') ∧
  (nodes_explored st ≤ max_nodes cfg → nodes_explored st' ≤ max_nodes cfg) ∧
  (is_Some r → nodes_explored st' < max_nodes cfg).

Definition counted_call (rec : Assignment → Domains → SolverStats → res search_state)
    : Prop :=
  ∀ assignment doms st r assignment' doms' st',
    rec assignment doms st = Ret (r, assignment', doms', st') → counted st r st'.

Lemma apply_inference_counted var value assignment doms st doms' st' ok :
  apply_inference cfg csp var value assignment doms st = Ret (doms', st', ok) →
  nodes_explored st' = nodes_explored st ∧
  backtracks st' = backtracks st ∧
  inference_calls st ≤ inference_calls st' ∧
  (counts_nonneg → pruned_values st ≤ pruned_values st') ∧
  (inference cfg = None → st' = st ∧ ok = true) ∧
  (inference cfg ≠ None → inference_calls st' = inference_calls st + 1).
Proof.
  unfold apply_inference. destruct (inference cfg) as [infer|] eqn:E.
  - intros H. inv_bind H. destruct a as [d1 [|n]]; injection H as <- <- <-; simpl.
    + repeat split; try done; try lia.
    + repeat split; try done; try lia.
      intros Hnn. specialize (Hnn infer _ _ _ _ _ _ E Hcall). lia.
  - intros [= <- <- <-]. repeat split; try done; lia.
Qed.

Lemma try_values_counted rec var values :
  counted_call rec → counted_call (try_values rec cfg csp var values).
Proof.
  intros Hrec. induction values as [|value rest IH];
    intros assignment doms st r assignment' doms' st'; simpl.
  { intros [= <- <- <- <-]. unfold counted.
    repeat split; try done; try lia; try by intros [? ?]. }
  intros H. inv_bind H. destruct a; [|by eapply IH].
  inv_bind H. destruct a as [[doms1 st1] inference_ok].
  apply apply_inference_counted in Hcall0 as (Hn1 & Hb1 & Hi1 & Hp1 & _).
  inv_bind H. destruct a as [[[result assignment2] doms2] st2].
  assert (counted st1 result st2) as (Hn2 & Hb2 & Hi2 & Hp2 & Hm2 & Hs2).
  { destruct inference_ok; [by eapply Hrec|].
    injection Hcall0 as <- <- <- <-. unfold counted.
    repeat split; try done; try lia; try by intros [? ?]. }
  destruct result as [solution|].
  - injection H as <- <- <- <-. unfold counted. repeat split; try lia.
    + intros Hnn. specialize (Hp1 Hnn). specialize (Hp2 Hnn). lia.
    + intros _. by apply Hs2.
  - destruct (assignment2 !! var); [|done].
    apply IH in H as (Hn3 & Hb3 & Hi3 & Hp3 & Hm3 & Hs3). simpl in *.
    unfold counted. repeat split; try lia; try done.
    intros Hnn. specialize (Hp1 Hnn). specialize (Hp2 Hnn).
    specialize (Hp3 Hnn). lia.
Qed.

Lemma _backtrack_counted fuel : counted_call (_backtrack fuel cfg csp).
Proof.
  induction fuel as [|fuel IH];
    intros assignment doms st r assignment' doms' st'; simpl; [done|].
  case_bool_decide as Hbudget.
  { intros [= <- <- <- <-]. unfold counted.
    repeat split; try done; try lia; try by intros [? ?]. }
  destruct (is_complete csp assignment).
  { intros [= <- <- <- <-]. unfold counted. repeat split; try done; lia. }
  intros H. inv_bind H. inv_bind H. destruct a as [var|]; [|done].
  apply (try_values_counted _ var a0 IH) in H
    as (Hn & Hb & Hi & Hp & Hm & Hs). simpl in *.
  unfold counted. repeat split; try lia; done.
Qed.

(** Without inference and below the budget, every backtrack answers a
    node that was explored. *)
Definition matched (slack : Z) (st st' : SolverStats) : Prop :=
  nodes_explored st' < max_nodes cfg →
  backtracks st' - backtracks st + slack ≤ nodes_explored st' - nodes_explored st.

Lemma try_values_matched rec var values :
  inference cfg = None → counted_call rec →
  (∀ assignment doms st r assignment' doms' st',
     rec assignment doms st = Ret (r, assignment', doms', st') →
     matched (match r with Some _ => 0 | None => 1 end) st st') →
  ∀ assignment doms st r assignment' doms' st',
    try_values rec cfg csp var values assignment doms st
      = Ret (r, assignment', doms', st') →
    matched 0 st st'.
Proof.
  intros Hnone Hcnt Hrec. induction values as [|value rest IH];
    intros assignment doms st r assignment' doms' st'; simpl.
  { intros [= <- <- <- <-]. unfold matched. lia. }
  intros H. inv_bind H. destruct a; [|by eapply IH].
  inv_bind H. destruct a as [[doms1 st1] inference_ok].
  apply apply_inference_counted in Hcall0 as (_ & _ & _ & _ & Hsame & _).
  destruct (Hsame Hnone) as [-> ->].
  inv_bind H. destruct a as [[[result assignment2] doms2] st2].
  pose proof (Hrec _ _ _ _ _ _ _ Hcall0) as Hm2.
  destruct result as [solution|].
  - injection H as <- <- <- <-. unfold matched in *. lia.
  - destruct (assignment2 !! var); [|done].
    pose proof (try_values_counted rec var rest Hcnt _ _ _ _ _ _ _ H)
      as (Hn3 & _).
    apply IH in H. unfold matched in *. simpl in *. lia.
Qed.

Lemma _backtrack_matched fuel :
  inference cfg = None →
  ∀ assignment doms st r assignment' doms' st',
    _backtrack fuel cfg csp assignment doms st = Ret (r, assignment', doms', st') →
    matched (match r with Some _ => 0 | None => 1 end) st st'.
Proof.
  intros Hnone. induction fuel as [|fuel IH];
    intros assignment doms st r assignment' doms' st'; simpl; [done|].
  case_bool_decide as Hbudget.
  { intros [= <- <- <- <-]. unfold matched. lia. }
  destruct (is_complete csp assignment).
  { intros [= <- <- <- <-]. unfold matched. lia. }
  intros H. inv_bind H. inv_bind H. destruct a as [var|]; [|done].
  apply (try_values_matched _ var a0 Hnone (_backtrack_counted fuel) IH) in H.
  unfold matched in *. simpl in *. destruct r; lia.
Qed.

(** With an inference strategy, every backtrack answers an inference
    call. *)
Definition inferred (st st' : SolverStats) : Prop :=
  backtracks st' - backtracks st ≤ inference_calls st' - inference_calls st.

Lemma try_values_inferred rec var values :
  inference cfg ≠ None →
  (∀ assignment doms st r assignment' doms' st',
     rec assignment doms st = Ret (r, assignment', doms', st') → inferred st st') →
  ∀ assignment doms st r assignment' doms' st',
    try_values rec cfg csp var values assignment doms st
      = Ret (r, assignment', doms', st') →
    inferred st st'.
Proof.
  intros Hsome Hrec. induction values as [|value rest IH];
    intros assignment doms st r assignment' doms' st'; simpl.
  { intros [= <- <- <- <-]. unfold inferred. lia. }
  intros H. inv_bind H. destruct a; [|by eapply IH].
  inv_bind H. destruct a as [[doms1 st1] inference_ok].
  apply apply_inference_counted in Hcall0 as (_ & Hb1 & _ & _ & _ & Hi1).
  specialize (Hi1 Hsome).
  inv_bind H. destruct a as [[[result assignment2] doms2] st2].
  assert (inferred st1 st2) as Hm2.
  { destruct inference_ok; [by eapply Hrec|].
    injection Hcall0 as <- <- <- <-. unfold inferred. lia. }
  destruct result as [solution|].
  - injection H as <- <- <- <-. unfold inferred in *. lia.
  - destruct (assignment2 !! var); [|done].
    apply IH in H. unfold inferred in *. simpl in *. lia.
Qed.

Lemma _backtrack_inferred fuel :
  inference cfg ≠ None →
  ∀ assignment doms st r assignment' doms' st',
    _backtrack fuel cfg csp assignment doms st = Ret (r, assignment', doms', st') →
    inferred st st'.
Proof.
  intros Hsome. induction fuel as [|fuel IH];
    intros assignment doms st r assignment' doms' st'; simpl; [done|].
  case_bool_decide as Hbudget.
  { intros [= <- <- <- <-]. unfold inferred. lia. }
  destruct (is_complete csp assignment).
  { intros [= <- <- <- <-]. unfold inferred. lia. }
  intros H. inv_bind H. inv_bind H. destruct a as [var|]; [|done].
  apply (try_values_inferred _ var a0 Hsome IH) in H.
  unfold inferred in *. simpl in *. lia.
Qed.
End counters.

(** C5. With a non-negative budget: every activation of [_backtrack] that
    starts with the node counter within the budget leaves it within the
    budget, never lowers it, and returns no assignment when the counter
    has reached the budget; hence the counter of a [solve] call stays
    between 0 and the budget, and a call whose counter reached the budget
    returns no solution. *)
Theorem node_budget_cutoff fuel cfg csp :
  0 ≤ max_nodes cfg →
  (∀ assignment doms st r assignment' doms' st',
     nodes_explored st ≤ max_nodes cfg →
     _backtrack fuel cfg csp assignment doms st = Ret (r, assignment', doms', st') →
     nodes_explored st ≤ nodes_explored st' ≤ max_nodes cfg ∧
     (max_nodes cfg ≤ nodes_explored st' → r = None)) ∧
  (∀ start_time end_time self_stats r stats,
     solve fuel cfg csp start_time end_time self_stats = Ret (r, stats) →
     0 ≤ nodes_explored stats ≤ max_nodes cfg ∧
     (nodes_explored stats = max_nodes cfg → r = None)).
Proof.
  intros Hbudget.
  assert (Hcall : ∀ assignment doms st r assignment' doms' st',
     nodes_explored st ≤ max_nodes cfg →
     _backtrack fuel cfg csp assignment doms st = Ret (r, assignment', doms', st') →
     nodes_explored st ≤ nodes_explored st' ≤ max_nodes cfg ∧
     (max_nodes cfg ≤ nodes_explored st' → r = None)).
  { intros assignment doms st r assignment' doms' st' Hle H.
    apply _backtrack_counted in H as (Hn & _ & _ & _ & Hm & Hs).
    split; [split; [done|by apply Hm]|].
    intros Hge. destruct r as [sol|]; [|done].
    assert (nodes_explored st' < max_nodes cfg) by (apply Hs; by eexists). lia. }
  split; [done|].
  intros start_time end_time self_stats r stats H. unfold solve in H.
  inv_bind H. destruct a as [[[result assignment'] doms'] st'].
  injection H as <- <-. simpl.
  apply Hcall in Hcall0 as [[Hn Hm] Hnone]; [|done]. simpl in Hn.
  split; [lia|]. intros Heq. apply Hnone. lia.
Qed.

(** The triangle with three colours has a solution (a budget of 4 finds
    it), yet with a budget of 3 the counter reaches 3 and the call
    returns no solution. *)
Lemma node_budget_cutoff_witness :
  ∃ stats A stats',
    solve 4 (create_solver 0 VarDeclared ValDefault InfNone 3)
          (triangle ["Red"; "Green"; "Blue"]%string) 0 0 fresh_stats
      = Ret (None, stats) ∧
    nodes_explored stats = 3 ∧
    solve 4 (create_solver 0 VarDeclared ValDefault InfNone 4)
          (triangle ["Red"; "Green"; "Blue"]%string) 0 0 fresh_stats
      = Ret (Some A, stats').
Proof.
  destruct (solve 4 (create_solver 0 VarDeclared ValDefault InfNone 3)
              (triangle ["Red"; "Green"; "Blue"]%string) 0 0 fresh_stats)
    as [[r stats]| |] eqn:E; [|vm_compute in E; discriminate..].
  destruct (node_budget_cutoff 4 (create_solver 0 VarDeclared ValDefault InfNone 3)
              (triangle ["Red"; "Green"; "Blue"]%string)) as [_ Hsolve];
    [simpl; lia|].
  destruct (Hsolve 0 0 fresh_stats r stats E) as [_ Hnone].
  assert (nodes_explored stats = 3) as Hn.
  { vm_compute in E. by injection E as _ <-. }
  rewrite (Hnone Hn). exists stats. eexists _, _.
  split; [done|]. split; [done|]. vm_compute. reflexivity.
Defined.

Lemma create_solver_counts_nonneg ac3_fuel vh oh ih budget csp :
  counts_nonneg (create_solver ac3_fuel vh oh ih budget) csp.
Proof.
  intros infer var value assignment doms doms' n Hinf Hcall.
  destruct ih; simpl in Hinf; [done| |]; injection Hinf as <-.
  - apply forward_checking_narrows in Hcall as [_ Hn]. by apply Hn.
  - apply ac3_inference_narrows in Hcall as [_ Hn]. by apply Hn.
Qed.

(** C2 (as amended). After a [solve] call of any configuration that
    [create_solver] builds, no counter is negative; with an inference
    strategy the backtracks do not exceed the inference calls; without
    one, and when the node counter ended below the budget, the backtracks
    do not exceed the nodes explored. The call does not depend on the
    statistics the solver held before: the search starts from
    [fresh_stats], whose counters are all zero. *)
Theorem statistics_sanity fuel ac3_fuel vh oh ih budget csp
    start_time end_time self_stats r stats :
  solve fuel (create_solver ac3_fuel vh oh ih budget) csp
        start_time end_time self_stats = Ret (r, stats) →
  0 ≤ nodes_explored stats ∧ 0 ≤ backtracks stats ∧
  0 ≤ pruned_values stats ∧ 0 ≤ inference_calls stats ∧
  (ih = InfNone → nodes_explored stats < budget →
     backtracks stats ≤ nodes_explored stats) ∧
  (ih ≠ InfNone → backtracks stats ≤ inference_calls stats) ∧
  (∀ other_stats,
     solve fuel (create_solver ac3_fuel vh oh ih budget) csp
           start_time end_time other_stats = Ret (r, stats)) ∧
  (∃ assignment' doms' stats',
     _backtrack fuel (create_solver ac3_fuel vh oh ih budget) csp
                ∅ (copy_domains csp) fresh_stats
       = Ret (r, assignment', doms', stats') ∧
     stats = finish_stats (end_time - start_time) (bool_decide (is_Some r)) stats') ∧
  nodes_explored fresh_stats = 0 ∧ backtracks fresh_stats = 0 ∧
  inference_calls fresh_stats = 0 ∧ pruned_values fresh_stats = 0 ∧
  time_elapsed fresh_stats = 0 ∧ solution_found fresh_stats = false.
Proof.
  intros H. pose proof H as Hsolve. unfold solve in H. inv_bind H.
  destruct a as [[[result assignment'] doms'] st']. injection H as <- <-.
  pose proof (_backtrack_counted _ _ _ _ _ _ _ _ _ _ Hcall)
    as (Hn & Hb & Hi & Hp & _ & _).
  specialize (Hp (create_solver_counts_nonneg _ _ _ _ _ _)).
  simpl in *. repeat split; try done.
  - intros -> Hlt.
    pose proof (_backtrack_matched
      (create_solver ac3_fuel vh oh InfNone budget) csp fuel eq_refl
      _ _ _ _ _ _ _ Hcall) as Hm.
    unfold matched in Hm. simpl in Hm. specialize (Hm Hlt). destruct result; lia.
  - intros Hne.
    assert (inference (create_solver ac3_fuel vh oh ih budget) ≠ None) as Hsome
      by by destruct ih.
    pose proof (_backtrack_inferred _ _ _ Hsome _ _ _ _ _ _ _ Hcall) as Hm.
    unfold inferred in Hm. simpl in Hm. lia.
  - eexists _, _, _. split; [exact Hcall|done].
Qed.

Lemma statistics_sanity_witness :
  ∃ stats,
    solve 10 (create_solver 100 VarMRV ValLCV InfAC3 100000) australia 0 7 fresh_stats
      = Ret (Some {[ "WA" := "Red"; "NT" := "Green"; "SA" := "Blue";
                     "Q" := "Red"; "NSW" := "Green"; "V" := "Red" ]}%string, stats) ∧
    0 ≤ pruned_values stats ∧ backtracks stats ≤ inference_calls stats.
Proof.
  eexists. split; [vm_compute; reflexivity|].
  pose proof (statistics_sanity 10 100 VarMRV ValLCV InfAC3 100000 australia
                0 7 fresh_stats _ _ ltac:(vm_compute; reflexivity))
    as (_ & _ & Hp & _ & _ & Hb & _).
  split; [exact Hp|]. by apply Hb.
Defined.

Definition k4 : CSPModel :=
  from_dict ["A"; "B"; "C"; "D"]%string
    [("A","B"); ("A","C"); ("A","D"); ("B","C"); ("B","D"); ("C","D")]%string
    (Some ["Red"; "Green"; "Blue"]%string).

(** Against C2 as stated: four mutually adjacent variables with three
    colours under forward checking end with 15 backtracks for 10 nodes;
    the three-colour triangle with a budget of one node ends with 3
    backtracks for 1 node. *)
Lemma statistics_backtracks_exceed_nodes :
  (∃ stats,
     solve 10 (create_solver 0 VarDeclared ValDefault InfForwardChecking 100000)
           k4 0 0 fresh_stats = Ret (None, stats) ∧
     nodes_explored stats = 10 ∧ backtracks stats = 15 ∧
     ¬ backtracks stats ≤ nodes_explored stats) ∧
  (∃ stats,
     solve 10 (create_solver 0 VarDeclared ValDefault InfNone 1)
           (triangle ["Red"; "Green"; "Blue"]%string) 0 0 fresh_stats
       = Ret (None, stats) ∧
     nodes_explored stats = 1 ∧ backtracks stats = 3 ∧
     ¬ backtracks stats ≤ nodes_explored stats).
Proof.
  split; eexists; (split; [vm_compute; reflexivity|]); simpl; repeat split; lia.
Qed.

(** ** The built-in strategies select, order and prune as the search needs *)

Definition unassigned (assignment : Assignment) (x : string) : Prop :=
  assignment !! x = None.

Global Instance unassigned_dec assignment x : Decision (unassigned assignment x).
Proof. unfold unassigned. apply _. Defined.

(** Every variable has a domain. *)
Definition covers (csp : CSPModel) (doms : Domains) : Prop :=
  ∀ x, x ∈ variables csp → is_Some (doms !! x).

(** *** Variable selection *)

Lemma mrv_loop_picks assignment doms vars : ∀ acc acc' v,
  mrv_loop assignment doms vars acc = Ret acc' → acc'.2 = Some v →
  (assignment !! v = None ∧ v ∈ vars) ∨ acc.2 = Some v.
Proof.
  induction vars as [|var vars IH]; intros acc acc' v; simpl.
  { intros [= <-]. by right. }
  intros H Hv. inv_bind H. destruct (IH _ _ _ H Hv) as [[? ?]|Ha].
  { left. split; [done|by right]. }
  unfold mrv_step in Hcall. destruct (assignment !! var) eqn:E.
  { injection Hcall as <-. by right. }
  destruct (doms !! var); [|done]. destruct acc.1.
  - case_bool_decide; injection Hcall as <-; [|by right].
    injection Ha as <-. left. split; [done|by left].
  - injection Hcall as <-. injection Ha as <-. left. split; [done|by left].
Qed.

Lemma mrv_loop_fuel assignment doms vars : ∀ acc,
  mrv_loop assignment doms vars acc ≠ OutOfFuel.
Proof.
  induction vars as [|var vars IH]; intros acc; simpl; [done|].
  apply bind_not_OutOfFuel; [|by intros].
  unfold mrv_step. destruct (assignment !! var); [done|].
  destruct (doms !! var); [|done]. destruct acc.1; [|done]. by case_bool_decide.
Qed.

Lemma unassigned_degree_variable csp assignment var :
  var ∈ variables csp →
  ∃ n, unassigned_degree csp assignment var = Ret n ∧ 0 ≤ n.
Proof.
  intros Hv. unfold unassigned_degree. rewrite get_neighbors_variable by done.
  simpl. eexists. split; [done|]. lia.
Qed.

Lemma degree_loop_picks csp assignment vars : ∀ max_degree best v,
  degree_loop csp assignment vars max_degree best = Ret (Some v) →
  (assignment !! v = None ∧ v ∈ vars) ∨ best = Some v.
Proof.
  induction vars as [|var vars IH]; intros max_degree best v; simpl.
  { intros [= <-]. by right. }
  destruct (assignment !! var) eqn:E.
  { intros H. destruct (IH _ _ _ H) as [[? ?]|?]; [left|by right].
    split; [done|by right]. }
  intros H. inv_bind H. case_bool_decide.
  - destruct (IH _ _ _ H) as [[? ?]|[= <-]]; left; (split; [done|]);
      [by right|by left].
  - destruct (IH _ _ _ H) as [[? ?]|?]; [left|by right].
    split; [done|by right].
Qed.

Lemma degree_loop_fuel csp assignment vars : ∀ max_degree best,
  degree_loop csp assignment vars max_degree best ≠ OutOfFuel.
Proof.
  induction vars as [|var vars IH]; intros max_degree best; simpl; [done|].
  destruct (assignment !! var); [by apply IH|].
  apply bind_not_OutOfFuel.
  - unfold unassigned_degree. apply bind_not_OutOfFuel; [|done].
    apply get_neighbors_fuel.
  - intros a _. case_bool_decide; apply IH.
Qed.

Lemma degree_loop_total csp assignment vars : ∀ max_degree best,
  (∀ x, x ∈ vars → x ∈ variables csp) →
  (best = None → max_degree < 0) →
  (is_Some best ∨ ∃ x, x ∈ vars ∧ assignment !! x = None) →
  ∃ v, degree_loop csp assignment vars max_degree best = Ret (Some v).
Proof.
  induction vars as [|var vars IH]; intros max_degree best Hsub Hmax Hex; simpl.
  { destruct Hex as [[v ->]|(x & Hx & _)]; [by exists v|by apply elem_of_nil in Hx]. }
  assert (Hsub' : ∀ x, x ∈ vars → x ∈ variables csp)
    by (intros x Hx; apply Hsub; by right).
  destruct (assignment !! var) eqn:E.
  { apply IH; try done. destruct Hex as [?|(x & Hx & Hun)]; [by left|].
    apply elem_of_cons in Hx as [->|Hx]; [congruence|]. right. by exists x. }
  destruct (unassigned_degree_variable csp assignment var) as (n & -> & Hn);
    [apply Hsub; by left|]. simpl.
  case_bool_decide as Hgt.
  - apply IH; try done. left. by eexists.
  - apply IH; try done. left. destruct best; [by eexists|]. specialize (Hmax eq_refl). lia.
Qed.

Lemma mrv_candidates_picks assignment doms vars : ∀ min_values cands cands',
  mrv_candidates assignment doms vars min_values cands = Ret cands' →
  ∀ c, c ∈ cands' → (assignment !! c = None ∧ c ∈ vars) ∨ c ∈ cands.
Proof.
  induction vars as [|var vars IH]; intros min_values cands cands'; simpl.
  { intros [= <-] c Hc. by right. }
  assert (Hstep : ∀ m cs, assignment !! var = None →
    mrv_candidates assignment doms vars m cs = Ret cands' →
    (∀ c, c ∈ cs → c = var ∨ c ∈ cands) →
    ∀ c, c ∈ cands' → (assignment !! c = None ∧ c ∈ var :: vars) ∨ c ∈ cands).
  { intros m cs Hvar H Hcs c Hc. destruct (IH _ _ _ H c Hc) as [[? ?]|Hin].
    - left. split; [done|by right].
    - destruct (Hcs c Hin) as [->|?]; [left|by right]. split; [done|by left]. }
  destruct (assignment !! var) eqn:E.
  { intros H c Hc. destruct (IH _ _ _ H c Hc) as [[? ?]|?]; [left|by right].
    split; [done|by right]. }
  destruct (doms !! var); [|done]. destruct min_values as [m|].
  - case_bool_decide as Hlt.
    + intros Hl. apply (Hstep _ _ eq_refl Hl).
      intros c ->%list_elem_of_singleton. by left.
    + case_bool_decide as Heq.
      * intros Hl. apply (Hstep _ _ eq_refl Hl).
        intros c [?|Hc']%elem_of_app; [by right|].
        apply list_elem_of_singleton in Hc' as ->. by left.
      * intros Hl. apply (Hstep _ _ eq_refl Hl). intros c ?. by right.
  - intros Hl. apply (Hstep _ _ eq_refl Hl).
    intros c ->%list_elem_of_singleton. by left.
Qed.

Lemma mrv_candidates_fuel assignment doms vars : ∀ min_values cands,
  mrv_candidates assignment doms vars min_values cands ≠ OutOfFuel.
Proof.
  induction vars as [|var vars IH]; intros min_values cands; simpl; [done|].
  destruct (assignment !! var); [by apply IH|].
  destruct (doms !! var); [|done]. destruct min_values; [|by apply IH].
  repeat case_bool_decide; apply IH.
Qed.

Lemma mrv_candidates_total assignment doms vars : ∀ min_values cands,
  (∀ x, x ∈ vars → assignment !! x = None → is_Some (doms !! x)) →
  (min_values = None → cands = []) → (is_Some min_values → cands ≠ []) →
  (cands ≠ [] ∨ ∃ x, x ∈ vars ∧ assignment !! x = None) →
  ∃ cands', mrv_candidates assignment doms vars min_values cands = Ret cands' ∧
            cands' ≠ [].
Proof.
  induction vars as [|var vars IH]; intros min_values cands Hcov Hn Hs Hex; simpl.
  { destruct Hex as [?|(x & Hx & _)]; [by exists cands|by apply elem_of_nil in Hx]. }
  assert (Hcov' : ∀ x, x ∈ vars → assignment !! x = None → is_Some (doms !! x))
    by (intros x Hx; apply Hcov; by right).
  destruct (assignment !! var) eqn:E.
  { apply IH; try done. destruct Hex as [?|(x & Hx & Hun)]; [by left|].
    apply elem_of_cons in Hx as [->|Hx]; [congruence|]. right. by exists x. }
  destruct (Hcov var) as [dv ->]; [by left|done|].
  destruct min_values as [m|].
  - case_bool_decide.
    + apply IH; try done. by left.
    + case_bool_decide.
      * apply IH; try done.
        -- intros _. by destruct cands.
        -- left. by destruct cands.
      * apply IH; try done. left. apply Hs. by eexists.
  - apply IH; try done. by left.
Qed.

Lemma tiebreak_loop_picks csp assignment cands : ∀ max_degree best v,
  tiebreak_loop csp assignment cands max_degree best = Ret v →
  v ∈ cands ∨ v = best.
Proof.
  induction cands as [|c cands IH]; intros max_degree best v; simpl.
  { intros [= <-]. by right. }
  intros H. inv_bind H. case_bool_decide.
  - destruct (IH _ _ _ H) as [?|Heq]; left; [by right|subst; by left].
  - destruct (IH _ _ _ H) as [?|Heq]; [left; by right|by right].
Qed.

Lemma tiebreak_loop_fuel csp assignment cands : ∀ max_degree best,
  tiebreak_loop csp assignment cands max_degree best ≠ OutOfFuel.
Proof.
  induction cands as [|c cands IH]; intros max_degree best; simpl; [done|].
  apply bind_not_OutOfFuel.
  - unfold unassigned_degree. apply bind_not_OutOfFuel; [|done].
    apply get_neighbors_fuel.
  - intros a _. case_bool_decide; apply IH.
Qed.

Lemma tiebreak_loop_total csp assignment cands : ∀ max_degree best,
  (∀ x, x ∈ cands → x ∈ variables csp) →
  ∃ v, tiebreak_loop csp assignment cands max_degree best = Ret v.
Proof.
  induction cands as [|c cands IH]; intros max_degree best Hsub; simpl.
  { by exists best. }
  destruct (unassigned_degree_variable csp assignment c) as (n & -> & _);
    [apply Hsub; by left|]. simpl.
  case_bool_decide; apply IH; intros x Hx; apply Hsub; by right.
Qed.

Lemma select_picks ac3_fuel vh oh ih budget csp assignment doms v :
  _select_variable (create_solver ac3_fuel vh oh ih budget) csp assignment doms
    = Ret (Some v) →
  assignment !! v = None ∧ v ∈ variables csp.
Proof.
  unfold _select_variable. destruct vh; simpl.
  - intros [= H]. destruct (list_find _ _) as [[i x]|] eqn:E; [|done].
    injection H as ->. apply list_find_Some in E as (Hl & Hp & _).
    split; [done|]. by eapply list_elem_of_lookup_2.
  - unfold mrv. intros H. inv_bind H. injection H as H.
    by destruct (mrv_loop_picks _ _ _ _ _ _ Hcall H) as [?|?].
  - unfold degree_heuristic. intros H.
    by destruct (degree_loop_picks _ _ _ _ _ _ H) as [?|?].
  - unfold mrv_with_degree_tiebreaker. intros H. inv_bind H.
    pose proof (mrv_candidates_picks _ _ _ _ _ _ Hcall) as Hc.
    assert (Hin : v ∈ a).
    { destruct a as [|c0 [|c1 cs]]; [done| |].
      - injection H as <-. by left.
      - inv_bind H. injection H as <-.
        destruct (tiebreak_loop_picks _ _ _ _ _ _ Hcall0) as [?| ->]; [done|by left]. }
    destruct (Hc v Hin) as [?|?%elem_of_nil]; done.
Qed.

Lemma select_fuel ac3_fuel vh oh ih budget csp assignment doms :
  _select_variable (create_solver ac3_fuel vh oh ih budget) csp assignment doms
    ≠ OutOfFuel.
Proof.
  unfold _select_variable. destruct vh; simpl; [done| | |].
  - unfold mrv. apply bind_not_OutOfFuel; [apply mrv_loop_fuel|done].
  - apply degree_loop_fuel.
  - unfold mrv_with_degree_tiebreaker.
    apply bind_not_OutOfFuel; [apply mrv_candidates_fuel|].
    intros a _. destruct a as [|c0 [|c1 cs]]; [done|done|].
    apply bind_not_OutOfFuel; [apply tiebreak_loop_fuel|done].
Qed.

Lemma select_total ac3_fuel vh oh ih budget csp assignment doms :
  covers csp doms →
  (∃ x, x ∈ variables csp ∧ assignment !! x = None) →
  ∃ v, _select_variable (create_solver ac3_fuel vh oh ih budget) csp assignment doms
         = Ret (Some v).
Proof.
  intros Hcov Hex. unfold _select_variable. destruct vh; simpl.
  - destruct Hex as (x & Hx & Hun).
    destruct (list_find (λ var, assignment !! var = None) (variables csp))
      as [[i v]|] eqn:E.
    + by exists v.
    + apply list_find_None in E. rewrite Forall_forall in E. by destruct (E x Hx).
  - destruct (mrv_loop_inv assignment doms (variables csp) [] (None, None))
      as (acc & Hl & Hinv).
    { intros u Hu _. by apply Hcov. }
    { intros u Hu. by apply elem_of_nil in Hu. }
    unfold mrv. rewrite Hl. simpl. simpl in Hinv.
    destruct acc as [[m|] [best|]]; simpl in *; try done.
    + by exists best.
    + destruct Hex as (x & Hx & Hun). destruct (Hinv x Hx) as [? ?]. congruence.
  - unfold degree_heuristic. apply degree_loop_total; [done|lia|by right].
  - unfold mrv_with_degree_tiebreaker.
    assert (Hcov' : ∀ x, x ∈ variables csp → assignment !! x = None →
              is_Some (doms !! x)) by (intros x Hx _; by apply Hcov).
    assert (Hs : is_Some (None : option nat) → ([] : list string) ≠ [])
      by by intros [? ?].
    destruct (mrv_candidates_total assignment doms (variables csp) None []
                Hcov' (λ _, eq_refl) Hs (or_intror Hex)) as (cands & Hc & Hne).
    rewrite Hc. simpl. destruct cands as [|c0 [|c1 cs]]; [done|by exists c0|].
    destruct (tiebreak_loop_total csp assignment (c0 :: c1 :: cs) (-1) c0)
      as (v & ->).
    { intros x Hx.
      destruct (mrv_candidates_picks _ _ _ _ _ _ Hc x Hx) as [[_ ?]|?%elem_of_nil];
        done. }
    by exists v.
Qed.

(** *** Value ordering *)

Lemma insert_by_Permutation x l : insert_by x l ≡ₚ x :: l.
Proof.
  induction l as [|y l IH]; simpl; [done|].
  case_bool_decide; [done|]. rewrite IH. apply Permutation_swap.
Qed.

Lemma sort_by_score_Permutation l : sort_by_score l ≡ₚ l.
Proof.
  unfold sort_by_score. induction l as [|x l IH]; simpl; [done|].
  by rewrite insert_by_Permutation, IH.
Qed.

Lemma sorted_scores_Permutation (score : string → nat) (l : list string) :
  (sort_by_score ((λ value, (value, score value)) <$> l)).*1 ≡ₚ l.
Proof.
  etrans; [apply fmap_Permutation, sort_by_score_Permutation|].
  rewrite <- list_fmap_compose.
  induction l as [|x l IH]; simpl; [done|]. by rewrite IH.
Qed.

Lemma order_values_permutation ac3_fuel vh oh ih budget csp var assignment
    (doms : Domains) values :
  _order_values (create_solver ac3_fuel vh oh ih budget) csp (Some var) assignment doms
    = Ret values →
  ∃ dv, doms !! var = Some dv ∧ values ≡ₚ dv.
Proof.
  unfold _order_values. destruct oh; simpl.
  - destruct (doms !! var) as [dv|]; [|done]. intros [= <-]. by exists dv.
  - unfold no_order. destruct (doms !! var) as [dv|]; [|done].
    intros [= <-]. by exists dv.
  - unfold lcv. destruct (doms !! var) as [dv|]; [|done].
    destruct dv as [|x dv]; [intros [= <-]; by exists []|].
    intros H. inv_bind H. case_bool_decide; [|done]. injection H as <-.
    eexists. split; [done|].
    exact (sorted_scores_Permutation
             (λ value, length (filter (λ n, value ∈ default [] (doms !! n))
                                 (filter (λ n, assignment !! n = None) a)))
             (x :: dv)).
Qed.

Lemma order_values_fuel ac3_fuel vh oh ih budget csp var assignment (doms : Domains) :
  _order_values (create_solver ac3_fuel vh oh ih budget) csp var assignment doms
    ≠ OutOfFuel.
Proof.
  unfold _order_values. destruct var as [var|]; [|done]. destruct oh; simpl.
  - by destruct (doms !! var).
  - unfold no_order. by destruct (doms !! var).
  - unfold lcv. destruct (doms !! var) as [dv|]; [|done].
    destruct dv; [done|]. apply bind_not_OutOfFuel; [apply get_neighbors_fuel|].
    intros a _. by case_bool_decide.
Qed.

Lemma order_values_total ac3_fuel vh oh ih budget csp var assignment (doms : Domains) :
  covers csp doms → (∀ n, n ∈ adj csp var → n ∈ variables csp) →
  var ∈ variables csp →
  ∃ values,
    _order_values (create_solver ac3_fuel vh oh ih budget) csp (Some var) assignment doms
      = Ret values.
Proof.
  intros Hcov Hadj Hvar. destruct (Hcov var Hvar) as [dv Hdv].
  unfold _order_values. destruct oh; simpl.
  - rewrite Hdv. by eexists.
  - unfold no_order. rewrite Hdv. by eexists.
  - unfold lcv. rewrite Hdv. destruct dv as [|x dv]; [by eexists|].
    rewrite get_neighbors_variable by done. simpl.
    rewrite bool_decide_eq_true_2; [by eexists|].
    apply Forall_forall. intros n [_ Hn]%list_elem_of_filter.
    by apply Hcov, Hadj.
Qed.

(** *** Inference: fuel *)

Lemma length_uniq (l : list string) : (length (uniq l) ≤ length l)%nat.
Proof.
  induction l as [|x l IH]; simpl; [done|].
  pose proof (length_filter (λ y, y ≠ x) (uniq l)). lia.
Qed.

Lemma length_adj csp x : (length (adj csp x) ≤ length (get_all_arcs csp))%nat.
Proof.
  unfold adj, get_all_arcs. etrans; [apply length_uniq|].
  induction (constraints csp) as [|[u v] cs IH]; simpl; [done|].
  rewrite !length_app. destruct (decide (u = x)), (decide (v = x)); simpl; lia.
Qed.

(** Fuel that lets the [while] loop of AC-3 run dry on domains of total
    size at most [total]. *)
Definition ac3_rounds (csp : CSPModel) (total : Z) : nat :=
  S (length (get_all_arcs csp) * S (Z.to_nat total)).

Lemma revise_fuel (doms : Domains) xi xj : revise doms xi xj ≠ OutOfFuel.
Proof.
  unfold revise. destruct (doms !! xi) as [[|x di]|]; [done| |done].
  by destruct (doms !! xj).
Qed.

Lemma enforce_loop_fuel csp assignment fuel : ∀ queue (doms : Domains),
  (length queue + length (get_all_arcs csp) * Z.to_nat (total_size doms) < fuel)%nat →
  enforce_loop fuel csp assignment queue doms ≠ OutOfFuel.
Proof.
  induction fuel as [|fuel IH]; intros queue doms Hlt; [lia|]. simpl.
  destruct queue as [|[xi xj] queue]; [done|]. simpl in Hlt.
  case_bool_decide as Hskip; [apply IH; lia|].
  apply bind_not_OutOfFuel; [apply revise_fuel|].
  intros [doms' revised] Hrev.
  apply (revise_narrows (skipped assignment)) in Hrev as [Hn Hdec]; [|done].
  apply narrows_total_size in Hn.
  pose proof (total_size_nonneg doms'). destruct revised.
  - case_bool_decide; [done|].
    apply bind_not_OutOfFuel; [apply get_neighbors_fuel|].
    intros nbrs [-> _]%get_neighbors_Ret. apply IH.
    rewrite length_app, length_fmap.
    pose proof (length_filter (λ xk, xk ≠ xj) (adj csp xi)).
    pose proof (length_adj csp xi). specialize (Hdec eq_refl).
    assert (S (Z.to_nat (total_size doms')) ≤ Z.to_nat (total_size doms))%nat by lia.
    nia.
  - apply IH.
    assert (Z.to_nat (total_size doms') ≤ Z.to_nat (total_size doms))%nat by lia.
    nia.
Qed.

Lemma fc_loop_fuel value assignment nbrs : ∀ (doms : Domains) k,
  fc_loop value assignment nbrs doms k ≠ OutOfFuel.
Proof.
  induction nbrs as [|n nbrs IH]; intros doms k; simpl; [done|].
  destruct (assignment !! n); [by apply IH|].
  destruct (doms !! n); [|done].
  case_bool_decide; [|by apply IH]. case_bool_decide; [done|by apply IH].
Qed.

Lemma forward_checking_fuel csp var value assignment (doms : Domains) :
  forward_checking csp var value assignment doms ≠ OutOfFuel.
Proof.
  unfold forward_checking. apply bind_not_OutOfFuel; [apply get_neighbors_fuel|].
  intros. apply fc_loop_fuel.
Qed.

Lemma ac3_inference_fuel fuel csp var value assignment (doms : Domains) total :
  total_size doms ≤ total → (ac3_rounds csp total ≤ fuel)%nat →
  ac3_inference fuel csp var value assignment doms ≠ OutOfFuel.
Proof.
  intros Htot Hfuel. unfold ac3_inference.
  apply bind_not_OutOfFuel; [apply get_neighbors_fuel|]. intros nbrs _.
  apply bind_not_OutOfFuel.
  { rewrite (ac3_prepass_fc_loop _ _ _ _ 0).
    apply bind_not_OutOfFuel; [apply fc_loop_fuel|done]. }
  intros [doms1 ok] Hpre. apply ac3_prepass_narrows, narrows_total_size in Hpre.
  destruct ok; [|done].
  apply bind_not_OutOfFuel.
  - unfold enforce. apply enforce_loop_fuel. unfold ac3_rounds in Hfuel.
    pose proof (total_size_nonneg doms1).
    assert (Z.to_nat (total_size doms1) ≤ Z.to_nat total)%nat by lia. nia.
  - intros [doms2 consistent] _. by destruct consistent.
Qed.

Lemma apply_inference_fuel ac3_fuel vh oh ih budget csp var value assignment
    (doms : Domains) st total :
  total_size doms ≤ total → (ac3_rounds csp total ≤ ac3_fuel)%nat →
  apply_inference (create_solver ac3_fuel vh oh ih budget) csp var value
    assignment doms st ≠ OutOfFuel.
Proof.
  intros Htot Hfuel. unfold apply_inference. destruct ih; simpl; [done| |].
  - apply bind_not_OutOfFuel; [apply forward_checking_fuel|].
    intros [d' [|n]] _; done.
  - apply bind_not_OutOfFuel; [by eapply ac3_inference_fuel|].
    intros [d' [|n]] _; done.
Qed.

Lemma apply_inference_narrows ac3_fuel vh oh ih budget csp var value assignment
    (doms : Domains) st doms' st' ok :
  apply_inference (create_solver ac3_fuel vh oh ih budget) csp var value
    assignment doms st = Ret (doms', st', ok) →
  narrows (assigned assignment) doms doms'.
Proof.
  unfold apply_inference. destruct ih; simpl.
  - intros [= <- _ _]. apply narrows_refl.
  - intros H. inv_bind H. destruct a as [d1 r].
    apply forward_checking_narrows in Hcall as [Hn _].
    destruct r; by injection H as <- _ _.
  - intros H. inv_bind H. destruct a as [d1 r].
    apply ac3_inference_narrows in Hcall as [Hn _].
    destruct r; by injection H as <- _ _.
Qed.

(** ** A failed call leaves the dictionaries as it found them *)

Definition restoring (rec : Assignment → Domains → SolverStats → res search_state)
    : Prop :=
  ∀ assignment (doms : Domains) st assignment' doms' st',
    rec assignment doms st = Ret (None, assignment', doms', st') →
    assignment' = assignment ∧ doms' = doms.

Lemma try_values_restoring ac3_fuel vh oh ih budget csp rec var values :
  restoring rec →
  ∀ assignment (doms : Domains) st assignment' doms' st',
    assignment !! var = None →
    try_values rec (create_solver ac3_fuel vh oh ih budget) csp var values
      assignment doms st = Ret (None, assignment', doms', st') →
    assignment' = assignment ∧ doms' = doms.
Proof.
  intros Hrec. induction values as [|value rest IH];
    intros assignment doms st assignment' doms' st' Hvar; simpl.
  { by intros [= <- <- <-]. }
  intros H. inv_bind H. destruct a; [|by eapply IH].
  inv_bind H. destruct a as [[doms1 st1] inference_ok].
  apply apply_inference_narrows in Hcall0 as Hn.
  inv_bind H. destruct a as [[[result assignment2] doms2] st2].
  destruct result as [solution|]; [done|].
  assert (assignment2 = <[var:=value]> assignment ∧ doms2 = doms1) as [-> ->].
  { destruct inference_ok; [by eapply Hrec|]. by injection Hcall1 as <- <- <-. }
  rewrite lookup_insert_eq in H.
  rewrite delete_insert_id in H by done.
  rewrite (narrows_union _ _ _ Hn) in H. by eapply IH.
Qed.

Lemma _backtrack_restoring ac3_fuel vh oh ih budget csp fuel :
  restoring (_backtrack fuel (create_solver ac3_fuel vh oh ih budget) csp).
Proof.
  induction fuel as [|fuel IH];
    intros assignment doms st assignment' doms' st'; simpl; [done|].
  case_bool_decide as Hbudget; [by intros [= <- <- <-]|].
  destruct (is_complete csp assignment); [done|].
  intros H. inv_bind H. inv_bind H. destruct a as [var|]; [|done].
  apply select_picks in Hcall as [Hvar _].
  by eapply try_values_restoring.
Qed.

(** ** Termination of the search *)

(** The variables still to be assigned: the measure of the recursion. *)
Definition remaining (csp : CSPModel) (assignment : Assignment) : nat :=
  length (filter (unassigned assignment) (variables csp)).

Lemma length_filter_strict {A} (P Q : A → Prop)
    `{!∀ x, Decision (P x), !∀ x, Decision (Q x)} (l : list A) v :
  (∀ x, P x → Q x) → v ∈ l → Q v → ¬ P v →
  (length (filter P l) < length (filter Q l))%nat.
Proof.
  intros Hpq. induction l as [|x l IH]; [by intros ?%elem_of_nil|].
  intros Hv HQ HP. rewrite !filter_cons.
  assert (length (filter P l) ≤ length (filter Q l))%nat as Hle.
  { clear IH Hv. induction l as [|y l IHl]; [done|]. rewrite !filter_cons.
    destruct (decide (P y)) as [Hy|Hy].
    - rewrite decide_True by auto. simpl. lia.
    - destruct (decide (Q y)); simpl; lia. }
  apply elem_of_cons in Hv as [<-|Hv].
  - rewrite decide_False, decide_True by done. simpl. lia.
  - specialize (IH Hv HQ HP). destruct (decide (P x)) as [Hx|Hx].
    + rewrite decide_True by auto. simpl. lia.
    + destruct (decide (Q x)); simpl; lia.
Qed.

Lemma remaining_insert csp assignment var value :
  assignment !! var = None → var ∈ variables csp →
  (remaining csp (<[var := value]> assignment) < remaining csp assignment)%nat.
Proof.
  intros Hvar Hin. unfold remaining.
  apply (length_filter_strict _ _ _ var); try done.
  - unfold unassigned. intros x Hx. destruct (decide (x = var)) as [->|Hne].
    + by rewrite lookup_insert_eq in Hx.
    + by rewrite lookup_insert_ne in Hx.
  - unfold unassigned. by rewrite lookup_insert_eq.
Qed.

Lemma is_consistent_fuel csp var value assignment :
  is_consistent csp var value assignment ≠ OutOfFuel.
Proof.
  unfold is_consistent. apply bind_not_OutOfFuel; [apply get_neighbors_fuel|done].
Qed.

Lemma try_values_fuel ac3_fuel vh oh ih budget csp rec var total f
    assignment (doms : Domains) :
  restoring rec →
  (∀ a1 d1 st1, (remaining csp a1 < f)%nat → total_size d1 ≤ total →
     rec a1 d1 st1 ≠ OutOfFuel) →
  (ac3_rounds csp total ≤ ac3_fuel)%nat →
  assignment !! var = None → var ∈ variables csp →
  (remaining csp assignment ≤ f)%nat → total_size doms ≤ total →
  ∀ values st,
    try_values rec (create_solver ac3_fuel vh oh ih budget) csp var values
      assignment doms st ≠ OutOfFuel.
Proof.
  intros Hframe Hrec Hac3 Hvar Hin Hrem Htot.
  induction values as [|value rest IH]; intros st; simpl; [done|].
  apply bind_not_OutOfFuel; [apply is_consistent_fuel|].
  intros [] _; [|apply IH].
  apply bind_not_OutOfFuel; [by eapply apply_inference_fuel|].
  intros [[doms1 st1] inference_ok] Hinf.
  apply apply_inference_narrows in Hinf as Hn.
  apply bind_not_OutOfFuel.
  { destruct inference_ok; [|done]. apply Hrec.
    - pose proof (remaining_insert csp assignment var value Hvar Hin). lia.
    - apply narrows_total_size in Hn. lia. }
  intros [[[result assignment2] doms2] st2] Hres.
  destruct result as [solution|]; [done|].
  assert (assignment2 = <[var:=value]> assignment ∧ doms2 = doms1) as [-> ->].
  { destruct inference_ok; [by eapply Hframe|]. by injection Hres as <- <- <-. }
  rewrite lookup_insert_eq, delete_insert_id by done.
  rewrite (narrows_union _ _ _ Hn). apply IH.
Qed.

Lemma _backtrack_fuel ac3_fuel vh oh ih budget csp total fuel :
  (ac3_rounds csp total ≤ ac3_fuel)%nat →
  ∀ assignment (doms : Domains) st,
    (remaining csp assignment < fuel)%nat → total_size doms ≤ total →
    _backtrack fuel (create_solver ac3_fuel vh oh ih budget) csp assignment doms st
      ≠ OutOfFuel.
Proof.
  intros Hac3. induction fuel as [|fuel IH]; intros assignment doms st Hrem Htot;
    [lia|]. simpl.
  case_bool_decide as Hbudget; [done|].
  destruct (is_complete csp assignment); [done|].
  apply bind_not_OutOfFuel; [apply select_fuel|]. intros var Hsel.
  apply bind_not_OutOfFuel; [apply order_values_fuel|]. intros values _.
  destruct var as [var|]; [|done].
  apply select_picks in Hsel as [Hvar Hin].
  eapply try_values_fuel; try done.
  - apply _backtrack_restoring.
  - lia.
Qed.

(** ** A well-formed model raises nothing *)

(** Variables are declared once, constraints relate declared variables,
    and every variable has a domain. *)
Record well_formed (csp : CSPModel) : Prop := {
  wf_NoDup : NoDup (variables csp);
  wf_declared : ∀ u v, (u, v) ∈ constraints csp →
                  u ∈ variables csp ∧ v ∈ variables csp;
  wf_covers : covers csp (domains csp)
}.

Lemma adj_declared csp x n :
  well_formed csp → n ∈ adj csp x → n ∈ variables csp.
Proof.
  intros Hwf [H|H]%elem_of_adj; apply (wf_declared _ Hwf) in H; tauto.
Qed.

Lemma arcs_declared csp xi xj :
  well_formed csp → (xi, xj) ∈ get_all_arcs csp →
  xi ∈ variables csp ∧ xj ∈ variables csp ∧ xj ∈ adj csp xi.
Proof.
  intros Hwf H. unfold get_all_arcs in H.
  apply list_elem_of_In, in_flat_map in H as ([u v] & Hin & Hx).
  apply list_elem_of_In in Hin.
  destruct (wf_declared _ Hwf u v Hin) as [Hu Hv]. simpl in Hx.
  destruct Hx as [[= <- <-]|[[= <- <-]|[]]]; (split; [done|split; [done|]]);
    apply elem_of_adj; tauto.
Qed.

Lemma covers_narrows csp prot doms doms' :
  covers csp doms → narrows prot doms doms' → covers csp doms'.
Proof. intros Hc Hn x Hx. apply (narrows_is_Some _ _ _ x Hn). by apply Hc. Qed.

Lemma incomplete_unassigned csp (assignment : Assignment) :
  NoDup (variables csp) →
  (∀ x, is_Some (assignment !! x) → x ∈ variables csp) →
  is_complete csp assignment = false →
  ∃ x, x ∈ variables csp ∧ assignment !! x = None.
Proof.
  intros Hnd Hsub Hinc.
  destruct (decide (Exists (unassigned assignment) (variables csp))) as [He|Hn].
  { apply Exists_exists in He as (x & ? & ?). by exists x. }
  exfalso. apply not_Exists_Forall in Hn; [|apply _].
  rewrite Forall_forall in Hn.
  assert (dom assignment = (list_to_set (variables csp) : gset string)) as Heq.
  { apply set_eq. intros x. rewrite elem_of_dom, elem_of_list_to_set.
    split; [apply Hsub|]. intros Hx. specialize (Hn x Hx). simpl in Hn.
    unfold unassigned in Hn. by destruct (assignment !! x). }
  apply bool_decide_eq_false in Hinc. apply Hinc.
  by rewrite <- size_dom, Heq, size_list_to_set.
Qed.

Lemma fc_loop_total value assignment nbrs : ∀ (doms : Domains) k,
  (∀ n, n ∈ nbrs → is_Some (doms !! n)) →
  ∃ doms' r, fc_loop value assignment nbrs doms k = Ret (doms', r).
Proof.
  induction nbrs as [|n nbrs IH]; intros doms k Hcov; simpl; [by eexists _, _|].
  assert (Hcov' : ∀ m, m ∈ nbrs → is_Some (doms !! m))
    by (intros m Hm; apply Hcov; by right).
  destruct (assignment !! n); [by apply IH|].
  destruct (Hcov n) as [dn ->]; [by left|].
  case_bool_decide; [|by apply IH]. case_bool_decide; [by eexists _, _|].
  apply IH. intros m Hm. destruct (decide (m = n)) as [->|Hne].
  - rewrite lookup_insert_eq. by eexists.
  - rewrite lookup_insert_ne by done. by apply Hcov'.
Qed.

Lemma forward_checking_total csp var value assignment (doms : Domains) :
  well_formed csp → covers csp doms → var ∈ variables csp →
  ∃ doms' r, forward_checking csp var value assignment doms = Ret (doms', r).
Proof.
  intros Hwf Hcov Hvar. unfold forward_checking.
  rewrite get_neighbors_variable by done. simpl. apply fc_loop_total.
  intros n Hn. by eapply Hcov, adj_declared.
Qed.

Lemma enforce_loop_total csp assignment fuel : ∀ queue (doms : Domains),
  well_formed csp → covers csp doms →
  (∀ xi xj, (xi, xj) ∈ queue → xi ∈ variables csp ∧ xj ∈ variables csp) →
  (length queue + length (get_all_arcs csp) * Z.to_nat (total_size doms) < fuel)%nat →
  ∃ doms' ok, enforce_loop fuel csp assignment queue doms = Ret (doms', ok).
Proof.
  intros queue doms Hwf Hcov Hq Hlt.
  destruct (enforce_loop fuel csp assignment queue doms) as [[d b]|e|] eqn:E.
  - by exists d, b.
  - exfalso. revert queue doms Hcov Hq Hlt E.
    induction fuel as [|fuel IH]; intros queue doms Hcov Hq Hlt; [done|]. simpl.
    destruct queue as [|[xi xj] queue]; [done|]. simpl in Hlt.
    assert (Hq' : ∀ xi xj, (xi, xj) ∈ queue → xi ∈ variables csp ∧ xj ∈ variables csp)
      by (intros ? ? ?; apply Hq; by right).
    case_bool_decide as Hskip; [apply IH; try done; lia|].
    destruct (Hq xi xj) as [Hxi Hxj]; [by left|].
    destruct (Hcov xi Hxi) as [di Hdi]. destruct (Hcov xj Hxj) as [dj Hdj].
    pose proof (revise_Some doms xi xj di dj Hdi Hdj) as Hrev. rewrite Hrev. simpl.
    apply (revise_narrows (skipped assignment)) in Hrev as [Hn Hdec]; [|done].
    pose proof (covers_narrows _ _ _ _ Hcov Hn) as Hcov1.
    apply narrows_total_size in Hn.
    set (doms' := <[xi:=filter (λ x, ¬ unsupported dj x) di]> doms) in *.
    pose proof (total_size_nonneg doms').
    destruct (bool_decide (Exists (unsupported dj) di)).
    + case_bool_decide; [done|]. rewrite get_neighbors_variable by done. simpl.
      apply IH; try done.
      * intros a b [Hab|Hab]%elem_of_app; [by apply Hq'|].
        apply list_elem_of_fmap in Hab as (xk & [= -> ->] & Hk).
        apply list_elem_of_filter in Hk as [_ Hk]. split; [|done].
        by eapply adj_declared.
      * rewrite length_app, length_fmap.
        pose proof (length_filter (λ xk, xk ≠ xj) (adj csp xi)).
        pose proof (length_adj csp xi). specialize (Hdec eq_refl).
        assert (S (Z.to_nat (total_size doms')) ≤ Z.to_nat (total_size doms))%nat
          by lia.
        nia.
    + apply IH; try done.
      assert (Z.to_nat (total_size doms') ≤ Z.to_nat (total_size doms))%nat by lia.
      nia.
  - exfalso. by eapply enforce_loop_fuel.
Qed.

Lemma ac3_inference_total fuel csp var value assignment (doms : Domains) total :
  well_formed csp → covers csp doms → var ∈ variables csp →
  total_size doms ≤ total → (ac3_rounds csp total ≤ fuel)%nat →
  ∃ doms' r, ac3_inference fuel csp var value assignment doms = Ret (doms', r).
Proof.
  intros Hwf Hcov Hvar Htot Hfuel. unfold ac3_inference.
  rewrite get_neighbors_variable by done. simpl.
  rewrite (ac3_prepass_fc_loop _ _ _ _ 0).
  destruct (fc_loop_total value assignment (adj csp var) doms 0)
    as (doms1 & r1 & Hfc).
  { intros n Hn. by eapply Hcov, adj_declared. }
  rewrite Hfc. simpl. apply fc_loop_narrows in Hfc as [Hn _].
  destruct r1; [by eexists _, _|].
  destruct (enforce_loop_total csp (Some assignment) fuel (get_all_arcs csp) doms1)
    as (doms2 & ok & He); try done.
  - by eapply covers_narrows.
  - intros xi xj Harc. apply arcs_declared in Harc; tauto.
  - apply narrows_total_size in Hn. unfold ac3_rounds in Hfuel.
    pose proof (total_size_nonneg doms1).
    assert (Z.to_nat (total_size doms1) ≤ Z.to_nat total)%nat by lia. nia.
  - unfold enforce. rewrite He. simpl. destruct ok; by eexists _, _.
Qed.

Lemma apply_inference_total ac3_fuel vh oh ih budget csp var value assignment
    (doms : Domains) st total :
  well_formed csp → covers csp doms → var ∈ variables csp →
  total_size doms ≤ total → (ac3_rounds csp total ≤ ac3_fuel)%nat →
  ∃ doms' st' ok,
    apply_inference (create_solver ac3_fuel vh oh ih budget) csp var value
      assignment doms st = Ret (doms', st', ok).
Proof.
  intros Hwf Hcov Hvar Htot Hfuel. unfold apply_inference. destruct ih; simpl.
  - by eexists _, _, _.
  - destruct (forward_checking_total csp var value assignment doms)
      as (d' & r & ->); try done. simpl. destruct r; by eexists _, _, _.
  - destruct (ac3_inference_total ac3_fuel csp var value assignment doms total)
      as (d' & r & ->); try done. simpl. destruct r; by eexists _, _, _.
Qed.

Definition declared (csp : CSPModel) (assignment : Assignment) : Prop :=
  ∀ x, is_Some (assignment !! x) → x ∈ variables csp.

Lemma declared_insert csp assignment var value :
  declared csp assignment → var ∈ variables csp →
  declared csp (<[var := value]> assignment).
Proof.
  intros Hd Hvar x [c Hx]. destruct (decide (x = var)) as [->|Hne]; [done|].
  rewrite lookup_insert_ne in Hx by done. apply Hd. by eexists.
Qed.

Lemma try_values_total ac3_fuel vh oh ih budget csp rec var total f
    assignment (doms : Domains) :
  well_formed csp → restoring rec →
  (∀ a1 d1 st1, declared csp a1 → covers csp d1 →
     (remaining csp a1 < f)%nat → total_size d1 ≤ total →
     returns (rec a1 d1 st1)) →
  (ac3_rounds csp total ≤ ac3_fuel)%nat →
  assignment !! var = None → var ∈ variables csp →
  declared csp assignment → covers csp doms →
  (remaining csp assignment ≤ f)%nat → total_size doms ≤ total →
  ∀ values st,
    returns (try_values rec (create_solver ac3_fuel vh oh ih budget) csp var values
               assignment doms st).
Proof.
  intros Hwf Hframe Hrec Hac3 Hvar Hin Hdecl Hcov Hrem Htot.
  induction values as [|value rest IH]; intros st; simpl; [by eexists|].
  unfold is_consistent. rewrite get_neighbors_variable by done. simpl.
  destruct (forallb _ _); [|apply IH].
  destruct (apply_inference_total ac3_fuel vh oh ih budget csp var value
              (<[var:=value]> assignment) doms st total)
    as (doms1 & st1 & inference_ok & Hinf); try done.
  rewrite Hinf. simpl. apply apply_inference_narrows in Hinf as Hn.
  assert (Hnext : ∀ st2,
    returns (match <[var:=value]> assignment !! var with
             | Some _ =>
                 try_values rec (create_solver ac3_fuel vh oh ih budget) csp var rest
                   (delete var (<[var:=value]> assignment)) (doms ∪ doms1)
                   (incr_backtracks st2)
             | None => Raise KeyError
             end)).
  { intros st2. rewrite lookup_insert_eq, delete_insert_id by done.
    rewrite (narrows_union _ _ _ Hn). apply IH. }
  destruct inference_ok; [|apply Hnext].
  destruct (Hrec (<[var:=value]> assignment) doms1 st1)
    as [[[[result assignment2] doms2] st2] Hres].
  - by apply declared_insert.
  - by eapply covers_narrows.
  - pose proof (remaining_insert csp assignment var value Hvar Hin). lia.
  - apply narrows_total_size in Hn. lia.
  - rewrite Hres. simpl. destruct result as [solution|]; [by eexists|].
    apply Hframe in Hres as [-> ->]. apply Hnext.
Qed.

Arguments _order_values : simpl never.
Arguments _select_variable : simpl never.

Lemma _backtrack_total ac3_fuel vh oh ih budget csp total fuel :
  well_formed csp → (ac3_rounds csp total ≤ ac3_fuel)%nat →
  ∀ assignment (doms : Domains) st,
    declared csp assignment → covers csp doms →
    (remaining csp assignment < fuel)%nat → total_size doms ≤ total →
    returns (_backtrack fuel (create_solver ac3_fuel vh oh ih budget) csp
               assignment doms st).
Proof.
  intros Hwf Hac3. induction fuel as [|fuel IH];
    intros assignment doms st Hdecl Hcov Hrem Htot; [lia|]. simpl.
  case_bool_decide as Hbudget; [by eexists|].
  destruct (is_complete csp assignment) eqn:Hcomp; [by eexists|].
  destruct (select_total ac3_fuel vh oh ih budget csp assignment doms Hcov)
    as (var & Hsel).
  { apply incomplete_unassigned; [apply Hwf|done..]. }
  rewrite Hsel. simpl. apply select_picks in Hsel as [Hvar Hin].
  destruct (order_values_total ac3_fuel vh oh ih budget csp var assignment doms)
    as (values & ->); try done.
  { intros n Hn. by eapply adj_declared. }
  simpl. eapply try_values_total; try done.
  - apply _backtrack_restoring.
  - lia.
Qed.

(** C10. Under any configuration that [create_solver] builds, with fuel
    above the number of variables still to be assigned and AC-3 fuel of
    [ac3_rounds] or more, [_backtrack] and [solve] never run out of fuel,
    on any model, any input state and any budget: each recursive call
    has strictly fewer variables left to assign. On a well-formed model
    they return a result (no exception is raised). *)
Theorem search_terminates ac3_fuel vh oh ih budget csp fuel :
  (ac3_rounds csp (total_size (domains csp)) ≤ ac3_fuel)%nat →
  (length (variables csp) < fuel)%nat →
  (∀ assignment (doms : Domains) st,
     total_size doms ≤ total_size (domains csp) →
     _backtrack fuel (create_solver ac3_fuel vh oh ih budget) csp assignment doms st
       ≠ OutOfFuel) ∧
  (∀ start_time end_time self_stats,
     solve fuel (create_solver ac3_fuel vh oh ih budget) csp
           start_time end_time self_stats ≠ OutOfFuel) ∧
  (∀ (assignment : Assignment) value var,
     assignment !! var = None → var ∈ variables csp →
     (remaining csp (<[var := value]> assignment) < remaining csp assignment
      ≤ length (variables csp))%nat) ∧
  (well_formed csp →
   ∀ start_time end_time self_stats,
     ∃ r stats,
       solve fuel (create_solver ac3_fuel vh oh ih budget) csp
             start_time end_time self_stats = Ret (r, stats)).
Proof.
  intros Hac3 Hfuel.
  assert (Hrem : ∀ assignment, (remaining csp assignment ≤ length (variables csp))%nat).
  { intros assignment. apply length_filter. }
  split; [|split; [|split]].
  - intros assignment doms st Htot. eapply _backtrack_fuel; try done.
    specialize (Hrem assignment). lia.
  - intros start_time end_time self_stats. unfold solve.
    apply bind_not_OutOfFuel.
    + eapply _backtrack_fuel; try done. specialize (Hrem ∅). lia.
    + by intros [[[r a] d] st] _.
  - intros assignment value var Hvar Hin. split; [|apply Hrem].
    by apply remaining_insert.
  - intros Hwf start_time end_time self_stats. unfold solve.
    destruct (_backtrack_total ac3_fuel vh oh ih budget csp
                (total_size (domains csp)) fuel Hwf Hac3 ∅ (copy_domains csp)
                fresh_stats) as [[[[r a] d] st] ->]; try done.
    + intros x [c Hx]. by rewrite lookup_empty in Hx.
    + apply Hwf.
    + specialize (Hrem ∅). lia.
    + simpl. by eexists _, _.
Qed.

Lemma search_terminates_witness :
  ∃ r stats,
    solve 7 (create_solver 500 VarMRVDegree ValLCV InfAC3 100000) australia
          0 0 fresh_stats = Ret (r, stats).
Proof.
  assert (well_formed australia) as Hwf.
  { split.
    - by_compute.
    - intros u v Huv.
      assert (Forall (λ e : string * string,
                e.1 ∈ variables australia ∧ e.2 ∈ variables australia)
                (constraints australia)) as HF by by_compute.
      rewrite Forall_forall in HF. apply (HF (u, v) Huv).
    - intros x Hx.
      assert (Forall (λ x, is_Some (domains australia !! x)) (variables australia))
        as HF by by_compute.
      rewrite Forall_forall in HF. by apply HF. }
  refine (proj2 (proj2 (proj2 (search_terminates 500 VarMRVDegree ValLCV InfAC3
            100000 australia 7 _ _))) Hwf 0 0 fresh_stats).
  - vm_compute. lia.
  - vm_compute. lia.
Defined.

(** ** Inference never prunes a value of a satisfying assignment *)

(** [S] gives the two ends of every constraint different values. *)
Definition solution (csp : CSPModel) (S : Assignment) : Prop :=
  ∀ u v, (u, v) ∈ constraints csp →
    ∃ cu cv, S !! u = Some cu ∧ S !! v = Some cv ∧ cu ≠ cv.

(** [S] gives every variable a value of its domain in [doms]. *)
Definition fits (csp : CSPModel) (S : Assignment) (doms : Domains) : Prop :=
  ∀ x, x ∈ variables csp → ∃ c l, S !! x = Some c ∧ doms !! x = Some l ∧ c ∈ l.

(** [S] is a satisfying assignment that the search can still reach from
    the partial [assignment] with the domains [doms]. *)
Definition candidate (csp : CSPModel) (assignment : Assignment) (doms : Domains)
    (S : Assignment) : Prop :=
  solution csp S ∧ assignment ⊆ S ∧ fits csp S doms.

Lemma solution_neighbours csp S x n cx cn :
  solution csp S → n ∈ adj csp x → S !! x = Some cx → S !! n = Some cn → cx ≠ cn.
Proof.
  intros Hsol [H|H]%elem_of_adj Hx Hn;
    destruct (Hsol _ _ H) as (c1 & c2 & H1 & H2 & Hne); simplify_eq; congruence.
Qed.

Lemma fits_insert csp S (doms : Domains) x l :
  fits csp S doms →
  (∀ c, S !! x = Some c → x ∈ variables csp → c ∈ l) →
  fits csp S (<[x := l]> doms).
Proof.
  intros Hf Hx y Hy. destruct (Hf y Hy) as (c & ly & Hc & Hl & Hin).
  destruct (decide (y = x)) as [->|Hne].
  - exists c, l. rewrite lookup_insert_eq. repeat split; try done. by apply Hx.
  - exists c, ly. by rewrite lookup_insert_ne.
Qed.

Lemma fc_loop_fits csp S var value assignment nbrs : ∀ (doms : Domains) k doms' r,
  solution csp S → S !! var = Some value →
  (∀ n, n ∈ nbrs → n ∈ adj csp var ∧ n ∈ variables csp) →
  fits csp S doms →
  fc_loop value assignment nbrs doms k = Ret (doms', r) →
  fits csp S doms' ∧ r ≠ Wipeout.
Proof.
  intros doms k doms' r Hsol Hvar. revert doms k.
  induction nbrs as [|n nbrs IH]; intros doms k Hn Hfit; simpl.
  { by intros [= <- <-]. }
  assert (Hn' : ∀ m, m ∈ nbrs → m ∈ adj csp var ∧ m ∈ variables csp)
    by (intros m Hm; apply Hn; by right).
  destruct (assignment !! n); [by apply IH|].
  destruct (doms !! n) as [dn|] eqn:Hdn; [|done].
  case_bool_decide as Hin; [|by apply IH].
  destruct (Hn n) as [Hadj Hdecl]; [by left|].
  assert (fits csp S (<[n:=list_remove_first value dn]> doms)) as Hfit1.
  { apply fits_insert; [done|]. intros c Hc _.
    destruct (Hfit n Hdecl) as (c' & l & Hc' & Hl & Hcl). simplify_eq.
    apply list_remove_first_other; [|done].
    intros ->. by eapply (solution_neighbours csp S var n). }
  case_bool_decide as Hlen; [|by apply IH].
  intros _. exfalso. destruct (Hfit1 n Hdecl) as (c & l & _ & Hl & Hcl).
  rewrite lookup_insert_eq in Hl. injection Hl as <-.
  apply length_zero_iff_nil in Hlen. rewrite Hlen in Hcl.
  by apply elem_of_nil in Hcl.
Qed.

Lemma revise_inv (doms : Domains) xi xj doms' revised :
  revise doms xi xj = Ret (doms', revised) →
  ∃ di, doms !! xi = Some di ∧
    ((di = [] ∧ doms' = doms) ∨
     (∃ dj, doms !! xj = Some dj ∧
            doms' = <[xi := filter (λ x, ¬ unsupported dj x) di]> doms)).
Proof.
  intros H. destruct (doms !! xi) as [di|] eqn:Hi;
    [|unfold revise in H; by rewrite Hi in H].
  exists di. split; [done|]. destruct (decide (di = [])) as [->|Hne].
  { left. split; [done|]. unfold revise in H. rewrite Hi in H. by injection H as <-. }
  right. destruct (doms !! xj) as [dj|] eqn:Hj.
  - exists dj. split; [done|]. rewrite (revise_Some _ _ _ _ _ Hi Hj) in H.
    by injection H as <-.
  - unfold revise in H. rewrite Hi, Hj in H. by destruct di.
Qed.

Lemma revise_fits csp S (doms : Domains) xi xj doms' revised :
  solution csp S → fits csp S doms →
  xj ∈ adj csp xi → xj ∈ variables csp →
  revise doms xi xj = Ret (doms', revised) →
  fits csp S doms'.
Proof.
  intros Hsol Hfit Hadj Hdecl H.
  apply revise_inv in H as (di & Hi & [[_ ->]|(dj & Hj & ->)]); [done|].
  apply fits_insert; [done|]. intros c Hc Hxi.
  destruct (Hfit xi Hxi) as (c' & l & Hc' & Hl & Hcl).
  destruct (Hfit xj Hdecl) as (cj & lj & Hcj & Hlj & Hclj). simplify_eq.
  apply list_elem_of_filter. split; [|done].
  unfold unsupported. rewrite Forall_forall. intros Hall.
  specialize (Hall cj Hclj). subst cj.
  by eapply (solution_neighbours csp S xi xj).
Qed.

Lemma enforce_loop_fits csp S assignment fuel : ∀ queue (doms : Domains) doms' ok,
  well_formed csp → solution csp S → fits csp S doms →
  (∀ xi xj, (xi, xj) ∈ queue →
     xi ∈ variables csp ∧ xj ∈ variables csp ∧ xj ∈ adj csp xi) →
  enforce_loop fuel csp assignment queue doms = Ret (doms', ok) →
  fits csp S doms' ∧ ok = true.
Proof.
  intros queue doms doms' ok Hwf Hsol. revert queue doms.
  induction fuel as [|fuel IH]; intros queue doms Hfit Hq; simpl; [done|].
  destruct queue as [|[xi xj] queue]; [by intros [= <- <-]|].
  assert (Hq' : ∀ xi xj, (xi, xj) ∈ queue →
     xi ∈ variables csp ∧ xj ∈ variables csp ∧ xj ∈ adj csp xi)
    by (intros ? ? ?; apply Hq; by right).
  case_bool_decide as Hskip; [by apply (IH queue doms)|].
  destruct (Hq xi xj) as (Hxi & Hxj & Hadj); [by left|].
  intros H. inv_bind H. destruct a as [doms1 revised].
  pose proof (revise_fits csp S doms xi xj doms1 revised Hsol Hfit Hadj Hxj Hcall)
    as Hfit1.
  destruct revised; [|by apply (IH queue doms1)].
  case_bool_decide as Hlen.
  { exfalso. destruct (Hfit1 xi Hxi) as (c & l & _ & Hl & Hcl).
    rewrite Hl in Hlen. simpl in Hlen. apply length_zero_iff_nil in Hlen.
    rewrite Hlen in Hcl. by apply elem_of_nil in Hcl. }
  inv_bind H. apply get_neighbors_Ret in Hcall0 as [-> _].
  apply IH in H; [done|done|].
  intros a b [Hab|Hab]%elem_of_app; [by apply Hq'|].
  apply list_elem_of_fmap in Hab as (xk & [= -> ->] & Hk).
  apply list_elem_of_filter in Hk as [_ Hk].
  split; [by eapply adj_declared|]. split; [done|]. by apply adj_sym.
Qed.

Lemma apply_inference_fits ac3_fuel vh oh ih budget csp S var value assignment
    (doms : Domains) st doms' st' ok :
  well_formed csp → solution csp S → S !! var = Some value → fits csp S doms →
  apply_inference (create_solver ac3_fuel vh oh ih budget) csp var value
    assignment doms st = Ret (doms', st', ok) →
  fits csp S doms' ∧ ok = true.
Proof.
  intros Hwf Hsol Hvar Hfit. unfold apply_inference. destruct ih; simpl.
  - by intros [= <- _ <-].
  - intros H. inv_bind H. destruct a as [d1 r].
    unfold forward_checking in Hcall. inv_bind Hcall.
    apply get_neighbors_Ret in Hcall0 as [-> _].
    eapply fc_loop_fits in Hcall as [Hf Hr]; try done.
    + destruct r; [done|]. by injection H as <- _ <-.
    + intros n Hn. split; [done|]. by eapply adj_declared.
  - intros H. inv_bind H. destruct a as [d2 r].
    unfold ac3_inference in Hcall. inv_bind Hcall.
    apply get_neighbors_Ret in Hcall0 as [-> _].
    inv_bind Hcall. destruct a as [d1 ok1].
    rewrite (ac3_prepass_fc_loop _ _ _ _ 0) in Hcall0. inv_bind Hcall0.
    destruct a as [d1' r1]. simpl in Hcall0. injection Hcall0 as -> <-.
    eapply fc_loop_fits in Hcall1 as [Hf1 Hr1]; try done.
    2:{ intros n Hn. split; [done|]. by eapply adj_declared. }
    destruct r1; [done|]. inv_bind Hcall. destruct a as [d2' consistent].
    unfold enforce in Hcall0.
    eapply enforce_loop_fits in Hcall0 as [Hf2 ->]; try done.
    2:{ intros xi xj Harc. by apply arcs_declared. }
    injection Hcall as <- <-. by injection H as <- _ <-.
Qed.

(** ** Completeness of the search *)

Lemma forallb_false {A} (f : A → bool) (l : list A) :
  forallb f l = false → ∃ x, x ∈ l ∧ f x = false.
Proof.
  induction l as [|x l IH]; simpl; [done|].
  destruct (f x) eqn:E; simpl.
  - intros (y & ? & ?)%IH. exists y. split; [by right|done].
  - intros _. exists x. split; [by left|done].
Qed.

Lemma candidate_insert csp assignment (doms : Domains) S var value :
  candidate csp assignment doms S → S !! var = Some value →
  candidate csp (<[var := value]> assignment) doms S.
Proof.
  intros (Hsol & Hsub & Hfit) Hvar. split; [done|]. split; [|done].
  by apply insert_subseteq_l.
Qed.

Lemma try_values_exhausts ac3_fuel vh oh ih budget csp rec var values :
  well_formed csp → restoring rec →
  counted_call (create_solver ac3_fuel vh oh ih budget) csp rec →
  (∀ a1 (d1 : Domains) st1 a2 d2 st2,
     rec a1 d1 st1 = Ret (None, a2, d2, st2) → nodes_explored st2 < budget →
     ∀ S, ¬ candidate csp a1 d1 S) →
  ∀ assignment (doms : Domains) st assignment' doms' st',
    assignment !! var = None →
    try_values rec (create_solver ac3_fuel vh oh ih budget) csp var values
      assignment doms st = Ret (None, assignment', doms', st') →
    nodes_explored st' < budget →
    ∀ S c, candidate csp assignment doms S → S !! var = Some c → c ∉ values.
Proof.
  intros Hwf Hframe Hcnt Hrec. induction values as [|value rest IH];
    intros assignment doms st assignment' doms' st' Hvar; simpl.
  { intros _ _ S c _ _ Hc. by apply elem_of_nil in Hc. }
  intros H Hlt S c Hcand HS. inv_bind H. destruct a.
  - inv_bind H. destruct a as [[doms1 st1] inference_ok].
    apply apply_inference_narrows in Hcall0 as Hn.
    inv_bind H. destruct a as [[[result assignment2] doms2] st2].
    destruct result as [solution0|]; [done|].
    assert (assignment2 = <[var:=value]> assignment ∧ doms2 = doms1) as [-> ->].
    { destruct inference_ok; [by eapply Hframe|]. by injection Hcall1 as <- <- <-. }
    rewrite lookup_insert_eq, delete_insert_id in H by done.
    rewrite (narrows_union _ _ _ Hn) in H.
    pose proof (try_values_counted _ _ rec var rest Hcnt _ _ _ _ _ _ _ H)
      as (Hmono & _). simpl in Hmono.
    intros [->|Hin]%elem_of_cons; [|by eapply IH].
    pose proof (candidate_insert _ _ _ _ _ _ Hcand HS) as Hcand1.
    destruct Hcand1 as (Hsol & Hsub & Hfit).
    eapply apply_inference_fits in Hcall0 as [Hfit1 ->]; try done.
    eapply (Hrec _ _ _ _ _ _ Hcall1); [lia|]. by split.
  - intros [->|Hin]%elem_of_cons; [|by eapply IH].
    unfold is_consistent in Hcall. inv_bind Hcall.
    apply get_neighbors_Ret in Hcall0 as [-> _]. injection Hcall as Hall.
    apply forallb_false in Hall as (n & Hn & Hf).
    apply negb_false_iff, bool_decide_eq_true in Hf.
    destruct Hcand as (Hsol & Hsub & _).
    assert (S !! n = Some value) as HSn by by eapply lookup_weaken.
    by apply (solution_neighbours csp S var n value value Hsol Hn HS HSn).
Qed.

Lemma _backtrack_exhausts ac3_fuel vh oh ih budget csp fuel :
  well_formed csp →
  ∀ assignment (doms : Domains) st assignment' doms' st',
    _backtrack fuel (create_solver ac3_fuel vh oh ih budget) csp assignment doms st
      = Ret (None, assignment', doms', st') →
    nodes_explored st' < budget →
    ∀ S, ¬ candidate csp assignment doms S.
Proof.
  intros Hwf. induction fuel as [|fuel IH];
    intros assignment doms st assignment' doms' st'; simpl; [done|].
  case_bool_decide as Hbudget; [intros [= <- <- <-]; lia|].
  destruct (is_complete csp assignment); [done|].
  intros H Hlt S Hcand. inv_bind H. inv_bind H. destruct a as [var|]; [|done].
  apply select_picks in Hcall as [Hvar Hin].
  apply order_values_permutation in Hcall0 as (dv & Hdv & Hperm).
  destruct Hcand as (Hsol & Hsub & Hfit).
  destruct (Hfit var Hin) as (c & l & Hc & Hl & Hcl). simplify_eq.
  eapply (try_values_exhausts ac3_fuel vh oh ih budget csp _ var a0 Hwf
            (_backtrack_restoring ac3_fuel vh oh ih budget csp fuel)
            (_backtrack_counted _ csp fuel) IH); try done.
  by rewrite Hperm.
Qed.

(** Nodes a search of the given branching width and depth can explore. *)
Fixpoint search_nodes (width depth : nat) : Z :=
  match depth with
  | O => 0
  | S depth' => 1 + Z.of_nat width * search_nodes width depth'
  end.

Lemma search_nodes_nonneg width depth : 0 ≤ search_nodes width depth.
Proof. induction depth as [|depth IH]; simpl; nia. Qed.

Lemma search_nodes_mono width depth depth' :
  (depth ≤ depth')%nat → search_nodes width depth ≤ search_nodes width depth'.
Proof.
  revert depth. induction depth' as [|depth' IH]; intros depth Hle.
  { by assert (depth = O) as -> by lia. }
  destruct depth as [|depth]; [apply search_nodes_nonneg|]. simpl.
  assert (search_nodes width depth ≤ search_nodes width depth') by (apply IH; lia).
  nia.
Qed.

Lemma length_le_total_size (doms : Domains) x l :
  doms !! x = Some l → Z.of_nat (length l) ≤ total_size doms.
Proof.
  intros Hx. rewrite (total_size_delete doms x l) by done.
  pose proof (total_size_nonneg (delete x doms)). lia.
Qed.

Lemma try_values_nodes ac3_fuel vh oh ih budget csp rec var total depth values :
  restoring rec →
  (∀ a1 (d1 : Domains) st1 r a2 d2 st2,
     rec a1 d1 st1 = Ret (r, a2, d2, st2) → total_size d1 ≤ total →
     (remaining csp a1 ≤ depth)%nat →
     nodes_explored st2 ≤ nodes_explored st1 + search_nodes (Z.to_nat total) depth) →
  ∀ assignment (doms : Domains) st r assignment' doms' st',
    assignment !! var = None → var ∈ variables csp →
    (remaining csp assignment ≤ S depth)%nat → total_size doms ≤ total →
    try_values rec (create_solver ac3_fuel vh oh ih budget) csp var values
      assignment doms st = Ret (r, assignment', doms', st') →
    nodes_explored st' ≤ nodes_explored st
      + Z.of_nat (length values) * search_nodes (Z.to_nat total) depth.
Proof.
  intros Hframe Hrec. induction values as [|value rest IH];
    intros assignment doms st r assignment' doms' st' Hvar Hin Hrem Htot; simpl.
  { intros [= <- <- <- <-]. lia. }
  pose proof (search_nodes_nonneg (Z.to_nat total) depth) as Hnn.
  intros H. inv_bind H. destruct a.
  2:{ eapply IH in H; try done. lia. }
  inv_bind H. destruct a as [[doms1 st1] inference_ok].
  apply apply_inference_narrows in Hcall0 as Hn.
  pose proof (apply_inference_counted _ _ _ _ _ _ _ _ _ _ Hcall0) as (Hn1 & _).
  inv_bind H. destruct a as [[[result assignment2] doms2] st2].
  assert (nodes_explored st2
          ≤ nodes_explored st1 + search_nodes (Z.to_nat total) depth) as Hstep.
  { destruct inference_ok.
    - eapply Hrec; [done| |].
      + apply narrows_total_size in Hn. lia.
      + pose proof (remaining_insert csp assignment var value Hvar Hin). lia.
    - injection Hcall1 as <- <- <- <-. lia. }
  destruct result as [solution0|].
  { injection H as <- <- <- <-. lia. }
  assert (assignment2 = <[var:=value]> assignment ∧ doms2 = doms1) as [-> ->].
  { destruct inference_ok; [by eapply Hframe|]. by injection Hcall1 as <- <- <-. }
  rewrite lookup_insert_eq, delete_insert_id in H by done.
  rewrite (narrows_union _ _ _ Hn) in H.
  eapply IH in H; try done. simpl in H. lia.
Qed.

Lemma _backtrack_nodes ac3_fuel vh oh ih budget csp total fuel :
  ∀ assignment (doms : Domains) st r assignment' doms' st',
    _backtrack fuel (create_solver ac3_fuel vh oh ih budget) csp assignment doms st
      = Ret (r, assignment', doms', st') →
    total_size doms ≤ total →
    nodes_explored st' ≤ nodes_explored st
      + search_nodes (Z.to_nat total) (remaining csp assignment).
Proof.
  induction fuel as [|fuel IH];
    intros assignment doms st r assignment' doms' st'; simpl; [done|].
  pose proof (search_nodes_nonneg (Z.to_nat total) (remaining csp assignment))
    as Hnn.
  case_bool_decide as Hbudget; [intros [= <- <- <- <-]; lia|].
  destruct (is_complete csp assignment); [intros [= <- <- <- <-]; lia|].
  intros H Htot. inv_bind H. inv_bind H. destruct a as [var|]; [|done].
  apply select_picks in Hcall as [Hvar Hin].
  apply order_values_permutation in Hcall0 as (dv & Hdv & Hperm).
  destruct (remaining csp assignment) as [|depth] eqn:Hrem.
  { pose proof (remaining_insert csp assignment var var Hvar Hin). lia. }
  eapply (try_values_nodes ac3_fuel vh oh ih budget csp _ var total depth a0
            (_backtrack_restoring ac3_fuel vh oh ih budget csp fuel)) in H;
    try done; [| |lia].
  - simpl in H. rewrite Hperm in H.
    pose proof (length_le_total_size doms var dv Hdv).
    pose proof (search_nodes_nonneg (Z.to_nat total) depth).
    change (search_nodes (Z.to_nat total) (S depth))
      with (1 + Z.of_nat (Z.to_nat total) * search_nodes (Z.to_nat total) depth).
    nia.
  - intros a1 d1 st1 r1 a2 d2 st2 Hr Ht Hd.
    apply IH in Hr; [|done].
    pose proof (search_nodes_mono (Z.to_nat total) _ _ Hd). lia.
Qed.

Lemma no_conflict_solution csp S :
  no_conflict S (constraints csp) = Ret true → solution csp S.
Proof.
  unfold solution. induction (constraints csp) as [|[a b] cs IH]; simpl.
  { intros _ u v Huv. by apply elem_of_nil in Huv. }
  destruct (S !! a) as [ca|] eqn:Ha; [|done].
  destruct (S !! b) as [cb|] eqn:Hb; [|done].
  case_bool_decide as Hne; [done|]. intros Hrest u v [[= -> ->]|Huv]%elem_of_cons.
  - by exists ca, cb.
  - by apply IH.
Qed.

Lemma solution_no_self_pairs csp S :
  solution csp S → ∀ u v, (u, v) ∈ constraints csp → u ≠ v.
Proof.
  intros Hsol u v Huv ->. destruct (Hsol v v Huv) as (c1 & c2 & H1 & H2 & Hne).
  congruence.
Qed.

(** C3. Let the model be well formed and have a satisfying assignment [S]
    (every variable gets a value of its domain, constrained variables get
    different values). Under every configuration that [create_solver]
    builds, the default one included, with a budget above
    [search_nodes total n] (the cutoff is then never met) and enough fuel,
    [solve] returns an assignment; it passes [is_valid_solution] and is
    recorded as found. *)
Theorem solve_complete ac3_fuel vh oh ih budget csp fuel (S : Assignment) :
  well_formed csp →
  solution csp S → fits csp S (domains csp) →
  (ac3_rounds csp (total_size (domains csp)) ≤ ac3_fuel)%nat →
  (length (variables csp) < fuel)%nat →
  search_nodes (Z.to_nat (total_size (domains csp))) (length (variables csp)) < budget →
  ∀ start_time end_time self_stats,
    ∃ A stats,
      solve fuel (create_solver ac3_fuel vh oh ih budget) csp
            start_time end_time self_stats = Ret (Some A, stats) ∧
      is_valid_solution csp A = Ret true ∧
      solution_found stats = true ∧
      nodes_explored stats < budget.
Proof.
  intros Hwf Hsol Hfit Hac3 Hfuel Hbudget start_time end_time self_stats.
  assert (Hrem : (remaining csp ∅ ≤ length (variables csp))%nat)
    by apply length_filter.
  destruct (_backtrack_total ac3_fuel vh oh ih budget csp
              (total_size (domains csp)) fuel Hwf Hac3 ∅ (copy_domains csp)
              fresh_stats) as [[[[r a] d] st] Hrun]; try done.
  { intros x [c Hx]. by rewrite lookup_empty in Hx. }
  { apply Hwf. }
  { lia. }
  pose proof (_backtrack_nodes ac3_fuel vh oh ih budget csp
                (total_size (domains csp)) fuel _ _ _ _ _ _ _ Hrun
                (Z.le_refl _)) as Hnodes.
  pose proof (search_nodes_mono (Z.to_nat (total_size (domains csp))) _ _ Hrem)
    as Hmono.
  change (nodes_explored fresh_stats) with 0 in Hnodes.
  destruct r as [A|].
  - exists A. eexists. unfold solve. rewrite Hrun. simpl. split; [done|].
    split; [|split; [done|simpl; lia]].
    destruct (_backtrack_sound _ csp (solution_no_self_pairs csp S Hsol)
                (wf_declared _ Hwf) fuel _ _ _ _ _ _ _
                (conflict_free_empty csp) Hrun) as [_ Hres].
    destruct (Hres A eq_refl) as [Hfree Hcomp].
    by apply (complete_conflict_free_valid csp
                (solution_no_self_pairs csp S Hsol) (wf_declared _ Hwf)).
  - exfalso.
    apply (_backtrack_exhausts _ _ _ _ _ _ _ Hwf _ _ _ _ _ _ Hrun) with (S := S).
    + lia.
    + split; [done|]. split; [apply map_empty_subseteq|done].
Qed.

Lemma solve_complete_witness :
  ∃ A stats,
    solve 4 (create_solver 100 VarMRVDegree ValLCV InfAC3 100000)
          (triangle ["Red"; "Green"; "Blue"]%string) 0 0 fresh_stats
      = Ret (Some A, stats) ∧
    is_valid_solution (triangle ["Red"; "Green"; "Blue"]%string) A = Ret true.
Proof.
  destruct (solve_complete 100 VarMRVDegree ValLCV InfAC3 100000
              (triangle ["Red"; "Green"; "Blue"]%string) 4
              {["A" := "Red"; "B" := "Green"; "C" := "Blue"]}%string)
    with (start_time := 0) (end_time := 0) (self_stats := fresh_stats)
    as (A & stats & Hrun & Hvalid & _).
  - split.
    + by_compute.
    + intros u v Huv.
      assert (Forall (λ e : string * string,
                e.1 ∈ variables (triangle ["Red"; "Green"; "Blue"]%string) ∧
                e.2 ∈ variables (triangle ["Red"; "Green"; "Blue"]%string))
                (constraints (triangle ["Red"; "Green"; "Blue"]%string))) as HF
        by by_compute.
      rewrite Forall_forall in HF. apply (HF (u, v) Huv).
    + intros x Hx.
      assert (Forall (λ x, is_Some (domains (triangle ["Red"; "Green"; "Blue"]%string) !! x))
                (variables (triangle ["Red"; "Green"; "Blue"]%string))) as HF
        by by_compute.
      rewrite Forall_forall in HF. by apply HF.
  - apply no_conflict_solution. vm_compute. reflexivity.
  - intros x Hx. simpl in Hx.
    repeat (apply elem_of_cons in Hx as [->|Hx]);
      [eexists _, _; (split; [reflexivity|split; [reflexivity|by_compute]])..|].
    by apply elem_of_nil in Hx.
  - vm_compute. lia.
  - vm_compute. lia.
  - vm_compute. reflexivity.
  - by exists A, stats.
Defined.

(** * Further properties of the code *)

(** ** AC-3: what [enforce] establishes *)

(** Every value of Xi's domain has a different value in Xj's domain. *)
Definition arc_consistent (doms : Domains) (xi xj : string) : Prop :=
  ∀ di dj, doms !! xi = Some di → doms !! xj = Some dj →
    ∀ x, x ∈ di → ∃ y, y ∈ dj ∧ y ≠ x.

Lemma elem_of_get_all_arcs csp a b :
  (a, b) ∈ get_all_arcs csp ↔ b ∈ adj csp a.
Proof.
  rewrite elem_of_adj. unfold get_all_arcs.
  rewrite list_elem_of_In, in_flat_map. split.
  - intros ([u v] & Hin%list_elem_of_In & Hx). simpl in Hx.
    destruct Hx as [[= <- <-]|[[= <- <-]|[]]]; tauto.
  - intros [H|H]; eexists; (split; [apply list_elem_of_In, H|]); simpl; tauto.
Qed.

Lemma not_unsupported_support dj x :
  ¬ unsupported dj x → ∃ y, y ∈ dj ∧ y ≠ x.
Proof.
  unfold unsupported. intros H. apply not_Forall_Exists in H; [|apply _].
  apply Exists_exists in H as (y & ? & ?). by exists y.
Qed.

Lemma revise_cases (doms : Domains) xi xj doms' revised :
  revise doms xi xj = Ret (doms', revised) →
  ∃ di, doms !! xi = Some di ∧
    ((revised = false ∧ doms' = doms ∧
      (di = [] ∨ ∃ dj, doms !! xj = Some dj ∧ Forall (λ x, ¬ unsupported dj x) di)) ∨
     (revised = true ∧ ∃ dj, doms !! xj = Some dj ∧
        doms' = <[xi := filter (λ x, ¬ unsupported dj x) di]> doms)).
Proof.
  intros H. destruct (doms !! xi) as [di|] eqn:Hi;
    [|unfold revise in H; by rewrite Hi in H].
  exists di. split; [done|]. destruct (decide (di = [])) as [->|Hne].
  { left. unfold revise in H. rewrite Hi in H. injection H as <- <-. tauto. }
  destruct (doms !! xj) as [dj|] eqn:Hj.
  2:{ unfold revise in H. rewrite Hi, Hj in H. by destruct di. }
  rewrite (revise_Some _ _ _ _ _ Hi Hj) in H. injection H as <- <-.
  case_bool_decide as Hex.
  - right. split; [done|]. by exists dj.
  - left. split; [done|].
    assert (Forall (λ x, ¬ unsupported dj x) di) as Hall.
    { apply Forall_forall. intros x Hx Hu. apply Hex, Exists_exists. by exists x. }
    split; [|right; by exists dj].
    assert (filter (λ x, ¬ unsupported dj x) di = di) as ->.
    { clear Hi Hne Hex. induction di as [|x di IH]; [done|].
      apply Forall_cons in Hall as [Hx Hall]. rewrite filter_cons, decide_True by done.
      by rewrite IH. }
    by apply insert_id.
Qed.

Lemma enforce_loop_consistent csp assignment fuel : ∀ queue (doms : Domains) doms',
  (∀ u v, (u, v) ∈ constraints csp → u ≠ v) →
  (∀ p, p ∈ queue → p ∈ get_all_arcs csp) →
  (∀ xi xj, (xi, xj) ∈ get_all_arcs csp → ¬ skipped assignment xi →
     (xi, xj) ∈ queue ∨ arc_consistent doms xi xj) →
  enforce_loop fuel csp assignment queue doms = Ret (doms', true) →
  ∀ xi xj, (xi, xj) ∈ get_all_arcs csp → ¬ skipped assignment xi →
    arc_consistent doms' xi xj.
Proof.
  intros queue doms doms' Hns. revert queue doms.
  induction fuel as [|fuel IH]; intros queue doms Hq Hinv; simpl; [done|].
  destruct queue as [|[xi xj] queue].
  { intros [= <-] a b Hab Hskip. destruct (Hinv a b Hab Hskip) as [Hin|?]; [|done].
    by apply elem_of_nil in Hin. }
  assert (Hq' : ∀ p, p ∈ queue → p ∈ get_all_arcs csp)
    by (intros p Hp; apply Hq; by right).
  assert (Harc : xj ∈ adj csp xi).
  { apply elem_of_get_all_arcs, Hq. by left. }
  assert (Hne : xi ≠ xj).
  { intros ->. apply elem_of_adj in Harc as [H|H]; by apply Hns in H. }
  case_bool_decide as Hskip.
  { intros H. apply (IH queue doms); [done| |done]. intros a b Hab Ha.
    destruct (Hinv a b Hab Ha) as [[[= -> ->]|Hin]%elem_of_cons|Hc];
      [done|by left|by right]. }
  intros H. inv_bind H. destruct a as [doms1 revised].
  apply revise_cases in Hcall as (di & Hdi & [(-> & -> & Hok)|(-> & dj & Hdj & ->)]).
  - apply (IH queue doms); [done| |done]. intros a b Hab Ha.
    destruct (Hinv a b Hab Ha) as [[[= -> ->]|Hin]%elem_of_cons|Hc];
      [|by left|by right].
    right. intros di' dj' Hdi' Hdj' x Hx. simplify_eq.
    destruct Hok as [->|(dj & Hdj & Hall)]; [by apply elem_of_nil in Hx|].
    simplify_eq. rewrite Forall_forall in Hall.
    by apply not_unsupported_support, Hall.
  - case_bool_decide as Hlen; [done|]. inv_bind H.
    apply get_neighbors_Ret in Hcall as [-> _].
    refine (IH _ _ _ _ H).
    + intros p [Hp|Hp]%elem_of_app; [by apply Hq'|].
      apply list_elem_of_fmap in Hp as (xk & -> & Hk).
      apply list_elem_of_filter in Hk as [_ Hk].
      by apply elem_of_get_all_arcs, adj_sym.
    + intros a b Hab Ha.
      assert (Hab' : a ≠ b).
      { intros ->. apply elem_of_get_all_arcs, elem_of_adj in Hab as [H'|H'];
          by apply Hns in H'. }
      destruct (decide (a = xi ∧ b = xj)) as [[-> ->]|Hnot].
      { right. intros di' dj' Hdi' Hdj' x Hx.
        rewrite lookup_insert_eq in Hdi'. rewrite lookup_insert_ne in Hdj' by done.
        simplify_eq. apply list_elem_of_filter in Hx as [Hx _].
        by apply not_unsupported_support. }
      destruct (Hinv a b Hab Ha) as [[[= -> ->]|Hin]%elem_of_cons|Hc]; [tauto| |].
      { left. apply elem_of_app. by left. }
      destruct (decide (b = xi)) as [->|Hb].
      * destruct (decide (a = xj)) as [->|Haj].
        -- right. intros dj' di' Hdj' Hdi' y Hy.
           rewrite lookup_insert_ne in Hdj' by done.
           rewrite lookup_insert_eq in Hdi'. simplify_eq.
           destruct (Hc _ _ Hdj Hdi y Hy) as (x' & Hx' & Hxy).
           exists x'. split; [|done]. apply list_elem_of_filter. split; [|done].
           unfold unsupported. rewrite Forall_forall. intros Hall.
           specialize (Hall y Hy). congruence.
        -- left. apply elem_of_app. right. apply list_elem_of_fmap.
           exists a. split; [done|]. apply list_elem_of_filter. split; [done|].
           by apply adj_sym, elem_of_get_all_arcs.
      * right. intros da db Hda Hdb x Hx.
        rewrite lookup_insert_ne in Hdb by done.
        destruct (decide (a = xi)) as [->|Hai].
        -- rewrite lookup_insert_eq in Hda. simplify_eq.
           apply list_elem_of_filter in Hx as [_ Hx]. by eapply Hc.
        -- rewrite lookup_insert_ne in Hda by done. by eapply Hc.
Qed.

(** X1. The AC-3 postcondition: on constraints without self-pairs, after
    [enforce] returns true every arc (Xi, Xj) whose source is not in the
    assignment is consistent: each value left in Xi's domain has a
    different value in Xj's domain. Without an assignment this holds for
    every arc. *)
Theorem enforce_arc_consistent fuel csp (doms doms' : Domains)
    (assignment : option Assignment) :
  (∀ u v, (u, v) ∈ constraints csp → u ≠ v) →
  enforce fuel csp doms assignment = Ret (doms', true) →
  ∀ xi xj, (xi, xj) ∈ get_all_arcs csp →
    ¬ is_Some (assignment ≫= (.!! xi)) →
    ∀ di dj, doms' !! xi = Some di → doms' !! xj = Some dj →
      ∀ x, x ∈ di → ∃ y, y ∈ dj ∧ y ≠ x.
Proof.
  intros Hns H xi xj Harc Hskip.
  apply (enforce_loop_consistent csp assignment fuel (get_all_arcs csp) doms doms');
    try done.
  intros a b Hab _. by left.
Qed.

Definition chain : CSPModel :=
  {| variables := ["A"; "B"; "C"]%string;
     domains := {["A" := ["Red"]; "B" := ["Red"; "Green"];
                  "C" := ["Red"; "Green"; "Blue"]]}%string;
     constraints := [("A", "B"); ("B", "C")]%string |}.

Lemma enforce_arc_consistent_witness :
  ∃ doms',
    enforce 20 chain (domains chain) None = Ret (doms', true) ∧
    doms' !! "B"%string = Some ["Green"%string] ∧
    doms' !! "C"%string = Some ["Red"; "Blue"]%string ∧
    ∀ x, x ∈ ["Red"; "Blue"]%string → ∃ y, y ∈ ["Green"%string] ∧ y ≠ x.
Proof.
  eexists. split; [vm_compute; reflexivity|].
  split; [reflexivity|]. split; [reflexivity|].
  refine (enforce_arc_consistent 20 chain (domains chain) _ None _ _
            "C"%string "B"%string _ _ _ _ _ _).
  - intros u v Huv.
    assert (Forall (λ e : string * string, e.1 ≠ e.2) (constraints chain)) as HF
      by by_compute.
    rewrite Forall_forall in HF. apply (HF (u, v) Huv).
  - vm_compute. reflexivity.
  - by_compute.
  - by intros [? ?].
  - reflexivity.
  - reflexivity.
Defined.

Lemma enforce_loop_wipeout csp assignment fuel : ∀ queue (doms : Domains) doms',
  enforce_loop fuel csp assignment queue doms = Ret (doms', false) →
  ∃ xi l, ¬ skipped assignment xi ∧ doms' !! xi = Some [] ∧
          doms !! xi = Some l ∧ l ≠ [].
Proof.
  induction fuel as [|fuel IH]; intros queue doms doms'; simpl; [done|].
  destruct queue as [|[xi xj] queue]; [done|].
  case_bool_decide as Hskip; [by apply (IH queue doms)|].
  intros H. inv_bind H. destruct a as [doms1 revised].
  pose proof (revise_narrows (skipped assignment) _ _ _ _ _ Hcall Hskip) as [Hn _].
  assert (Hback : (∃ x l, ¬ skipped assignment x ∧ doms' !! x = Some [] ∧
                          doms1 !! x = Some l ∧ l ≠ []) →
                  ∃ x l, ¬ skipped assignment x ∧ doms' !! x = Some [] ∧
                         doms !! x = Some l ∧ l ≠ []).
  { intros (x & l & Hx & He & Hl & Hne).
    destruct (narrows_lookup _ _ _ _ _ Hn Hl) as (l0 & Hl0 & Hsub & _).
    exists x, l0. repeat split; try done. intros ->.
    by apply sublist_nil_r in Hsub. }
  pose proof (revise_cases _ _ _ _ _ Hcall)
    as (di & Hdi & [(-> & -> & _)|(-> & dj & Hdj & ->)]).
  - by apply (IH queue doms).
  - case_bool_decide as Hlen.
    + injection H as <-. exists xi, di. rewrite lookup_insert_eq in Hlen |- *.
      simpl in Hlen. apply length_zero_iff_nil in Hlen. rewrite Hlen.
      repeat split; try done. intros ->.
      unfold revise in Hcall. by rewrite Hdi in Hcall.
    + inv_bind H. apply Hback. by eapply IH.
Qed.

(** X2. On a well-formed model whose variables all have domains, with
    [ac3_rounds] fuel, [enforce] returns; the domains it leaves are
    sublists of what they were, those of the assigned variables untouched;
    and when it returns false, the domain of some unassigned variable that
    was not empty has become empty. *)
Theorem enforce_returns fuel csp (doms : Domains) (assignment : option Assignment) :
  well_formed csp → covers csp doms →
  (ac3_rounds csp (total_size doms) ≤ fuel)%nat →
  ∃ doms' ok,
    enforce fuel csp doms assignment = Ret (doms', ok) ∧
    narrows (λ x, is_Some (assignment ≫= (.!! x))) doms doms' ∧
    (ok = false →
       ∃ xi l, ¬ is_Some (assignment ≫= (.!! xi)) ∧
               doms' !! xi = Some [] ∧ doms !! xi = Some l ∧ l ≠ []).
Proof.
  intros Hwf Hcov Hfuel. unfold enforce.
  destruct (enforce_loop_total csp assignment fuel (get_all_arcs csp) doms Hwf Hcov)
    as (doms' & ok & He).
  - intros xi xj Harc. apply arcs_declared in Harc; tauto.
  - unfold ac3_rounds in Hfuel. nia.
  - exists doms', ok. split; [done|]. split.
    + by eapply enforce_loop_narrows.
    + intros ->. by eapply enforce_loop_wipeout.
Qed.

Lemma enforce_returns_witness :
  ∃ doms' ok, enforce 40 chain (domains chain) None = Ret (doms', ok).
Proof.
  destruct (enforce_returns 40 chain (domains chain) None)
    as (doms' & ok & He & _).
  - split.
    + by_compute.
    + intros u v Huv.
      assert (Forall (λ e : string * string,
                e.1 ∈ variables chain ∧ e.2 ∈ variables chain)
                (constraints chain)) as HF by by_compute.
      rewrite Forall_forall in HF. apply (HF (u, v) Huv).
    + intros x Hx.
      assert (Forall (λ x, is_Some (domains chain !! x)) (variables chain))
        as HF by by_compute.
      rewrite Forall_forall in HF. by apply HF.
  - intros x Hx.
    assert (Forall (λ x, is_Some (domains chain !! x)) (variables chain))
      as HF by by_compute.
    rewrite Forall_forall in HF. by apply HF.
  - vm_compute. lia.
  - by exists doms', ok.
Defined.

(** ** Degree heuristic *)

(** Number of neighbours of [x] outside the assignment. *)
Definition udeg (csp : CSPModel) (assignment : Assignment) (x : string) : Z :=
  Z.of_nat (length (filter (λ n, assignment !! n = None) (adj csp x))).

Lemma unassigned_degree_udeg csp assignment x :
  x ∈ variables csp → unassigned_degree csp assignment x = Ret (udeg csp assignment x).
Proof.
  intros Hx. unfold unassigned_degree. by rewrite get_neighbors_variable.
Qed.

(** What the loop of [degree_heuristic] knows after the variables [seen]. *)
Definition degree_inv (csp : CSPModel) (assignment : Assignment)
    (seen : list string) (max_degree : Z) (best : option string) : Prop :=
  match best with
  | None => max_degree = -1 ∧ ∀ u, u ∈ seen → is_Some (assignment !! u)
  | Some b =>
      assignment !! b = None ∧ max_degree = udeg csp assignment b ∧
      ∃ pre post, seen = pre ++ b :: post ∧
        (∀ u, u ∈ pre → assignment !! u = None → udeg csp assignment u < max_degree) ∧
        (∀ u, u ∈ post → assignment !! u = None → udeg csp assignment u ≤ max_degree)
  end.

Lemma degree_loop_inv csp assignment vars : ∀ seen max_degree best,
  (∀ x, x ∈ vars → x ∈ variables csp) →
  degree_inv csp assignment seen max_degree best →
  ∃ best' max', degree_loop csp assignment vars max_degree best = Ret best' ∧
                degree_inv csp assignment (seen ++ vars) max' best'.
Proof.
  induction vars as [|var vars IH]; intros seen max_degree best Hsub Hinv; simpl.
  { exists best, max_degree. by rewrite app_nil_r. }
  assert (Hsub' : ∀ x, x ∈ vars → x ∈ variables csp)
    by (intros x Hx; apply Hsub; by right).
  assert (Hnext : ∀ m b, degree_inv csp assignment (seen ++ [var]) m b →
    ∃ best' max', degree_loop csp assignment vars m b = Ret best' ∧
                  degree_inv csp assignment (seen ++ var :: vars) max' best').
  { intros m b Hi. destruct (IH _ _ _ Hsub' Hi) as (b' & m' & Hl & Hi').
    exists b', m'. split; [done|]. by rewrite <- app_assoc in Hi'. }
  destruct (assignment !! var) as [c|] eqn:Ha.
  - apply Hnext. destruct best as [b|]; simpl in *.
    + destruct Hinv as (Hb & Hm & pre & post & -> & Hpre & Hpost).
      repeat split; try done. exists pre, (post ++ [var]).
      split; [by rewrite <- app_assoc|]. split; [done|].
      intros u [Hu|Hu]%elem_of_app; [by apply Hpost|].
      apply list_elem_of_singleton in Hu as ->. congruence.
    + destruct Hinv as [Hm Hall]. split; [done|].
      intros u [Hu|Hu]%elem_of_app; [by apply Hall|].
      apply list_elem_of_singleton in Hu as ->. by eexists.
  - rewrite unassigned_degree_udeg by (apply Hsub; by left). simpl.
    assert (0 ≤ udeg csp assignment var) by (unfold udeg; lia).
    case_bool_decide as Hgt; apply Hnext.
    + simpl. repeat split; try done. exists seen, [].
      split; [done|]. split; [|by intros u ?%elem_of_nil].
      destruct best as [b|]; simpl in Hinv.
      * destruct Hinv as (Hb & Hm & pre & post & -> & Hpre & Hpost).
        intros u [Hu|Hu]%elem_of_app Hun.
        { specialize (Hpre u Hu Hun). lia. }
        apply elem_of_cons in Hu as [->|Hu]; [lia|].
        specialize (Hpost u Hu Hun). lia.
      * destruct Hinv as [_ Hall]. intros u Hu Hun.
        destruct (Hall u Hu) as [? ?]. congruence.
    + destruct best as [b|]; simpl in Hinv |- *.
      * destruct Hinv as (Hb & Hm & pre & post & -> & Hpre & Hpost).
        repeat split; try done. exists pre, (post ++ [var]).
        split; [by rewrite <- app_assoc|]. split; [done|].
        intros u [Hu|Hu]%elem_of_app Hun; [by apply Hpost|].
        apply list_elem_of_singleton in Hu as ->. lia.
      * destruct Hinv as [Hm _]. lia.
Qed.

(** X3. Given an unassigned variable, [degree_heuristic] returns an
    unassigned variable with the most unassigned neighbours, and every
    unassigned variable declared before it has strictly fewer: ties go to
    the first in declaration order. The domains play no part. *)
Theorem degree_selects_first_maximum csp (assignment : Assignment) (doms : Domains) :
  (∃ u, u ∈ variables csp ∧ assignment !! u = None) →
  ∃ best pre post,
    degree_heuristic csp assignment doms = Ret (Some best) ∧
    variables csp = pre ++ best :: post ∧
    assignment !! best = None ∧
    (∀ u, u ∈ variables csp → assignment !! u = None →
          udeg csp assignment u ≤ udeg csp assignment best) ∧
    (∀ u, u ∈ pre → assignment !! u = None →
          udeg csp assignment u < udeg csp assignment best).
Proof.
  intros (u0 & Hu0 & Hun0). unfold degree_heuristic.
  destruct (degree_loop_inv csp assignment (variables csp) [] (-1) None)
    as (best & m & -> & Hinv); [done| |].
  { split; [done|]. by intros u ?%elem_of_nil. }
  simpl in Hinv. destruct best as [b|]; simpl in Hinv.
  - destruct Hinv as (Hb & -> & pre & post & Heq & Hpre & Hpost).
    exists b, pre, post. repeat split; try done.
    intros u Hu Hun. rewrite Heq in Hu.
    apply elem_of_app in Hu as [Hu|Hu]; [specialize (Hpre u Hu Hun); lia|].
    apply elem_of_cons in Hu as [->|Hu]; [lia|]. by apply Hpost.
  - destruct Hinv as [_ Hall]. destruct (Hall u0 Hu0) as [? ?]. congruence.
Qed.

Lemma degree_selects_first_maximum_witness :
  ∃ best pre post,
    degree_heuristic australia ∅ (domains australia) = Ret (Some best) ∧
    variables australia = pre ++ best :: post ∧ best = "SA"%string.
Proof.
  destruct (degree_selects_first_maximum australia ∅ (domains australia))
    as (best & pre & post & Hd & Hv & _).
  - exists "WA"%string. split; [by_compute|reflexivity].
  - exists best, pre, post. repeat split; try done.
    vm_compute in Hd. congruence.
Defined.

(** ** Least constraining value *)

(** The score [lcv] sorts on: the unassigned neighbours of [variable]
    whose domain holds [value]. *)
Definition eliminated (csp : CSPModel) (variable : string) (assignment : Assignment)
    (doms : Domains) (value : string) : nat :=
  length (filter (λ n, value ∈ default [] (doms !! n))
                 (filter (λ n, assignment !! n = None) (adj csp variable))).

Lemma insert_by_sorted x l :
  StronglySorted (λ p q : string * nat, (p.2 ≤ q.2)%nat) l →
  StronglySorted (λ p q : string * nat, (p.2 ≤ q.2)%nat) (insert_by x l).
Proof.
  induction 1 as [|y l Hs IH Hall]; simpl.
  { repeat constructor. }
  case_bool_decide as Hle.
  - constructor; [by constructor|]. constructor; [done|].
    eapply Forall_impl; [exact Hall|]. simpl. intros; lia.
  - constructor; [done|]. rewrite insert_by_Permutation.
    constructor; [lia|done].
Qed.

Lemma sort_by_score_sorted l :
  StronglySorted (λ p q : string * nat, (p.2 ≤ q.2)%nat) (sort_by_score l).
Proof.
  unfold sort_by_score. induction l as [|x l IH]; simpl; [constructor|].
  by apply insert_by_sorted.
Qed.

Lemma insert_by_filter (k : nat) x l :
  filter (λ p : string * nat, p.2 = k) (insert_by x l)
  = filter (λ p : string * nat, p.2 = k) (x :: l).
Proof.
  induction l as [|y l IH]; simpl; [done|].
  case_bool_decide as Hle; [done|].
  rewrite (filter_cons _ y), IH, !filter_cons.
  destruct (decide (x.2 = k)), (decide (y.2 = k)); try done. lia.
Qed.

Lemma sort_by_score_filter (k : nat) l :
  filter (λ p : string * nat, p.2 = k) (sort_by_score l)
  = filter (λ p : string * nat, p.2 = k) l.
Proof.
  unfold sort_by_score. induction l as [|x l IH]; simpl; [done|].
  rewrite insert_by_filter, !filter_cons. by rewrite IH.
Qed.

Lemma scored_filter (score : string → nat) (k : nat) (l : list (string * nat)) :
  Forall (λ p, p.2 = score p.1) l →
  filter (λ v, score v = k) l.*1 = (filter (λ p : string * nat, p.2 = k) l).*1.
Proof.
  induction 1 as [|p l Hp Hall IH]; [done|].
  rewrite fmap_cons, !filter_cons, IH.
  destruct (decide (score p.1 = k)), (decide (p.2 = k)); try done; congruence.
Qed.

Lemma scored_sorted (score : string → nat) (l : list (string * nat)) :
  Forall (λ p, p.2 = score p.1) l →
  StronglySorted (λ p q : string * nat, (p.2 ≤ q.2)%nat) l →
  StronglySorted (λ v w, (score v ≤ score w)%nat) l.*1.
Proof.
  intros Hsc Hs. induction Hs as [|p l Hs IH Hall]; [constructor|].
  apply Forall_cons in Hsc as [Hp Hsc]. rewrite fmap_cons.
  constructor; [by apply IH|].
  apply Forall_fmap. rewrite Forall_forall in Hall, Hsc |- *.
  intros q Hq. simpl. specialize (Hall q Hq). specialize (Hsc q Hq). lia.
Qed.

Lemma fmap_fst_scored (score : string → nat) (l : list string) :
  ((λ value, (value, score value)) <$> l).*1 = l.
Proof. induction l as [|x l IH]; [done|]. rewrite !fmap_cons. by f_equal. Qed.

(** X5. When the variable has a domain and its unassigned neighbours have
    domains, [lcv] returns the values of the domain (a permutation of it)
    in ascending order of [eliminated], and values with the same score
    keep the order they have in the domain. On a variable without a
    domain it raises KeyError. *)
Theorem lcv_sorts_stably csp (variable : string) (assignment : Assignment)
    (doms : Domains) dv :
  doms !! variable = Some dv →
  variable ∈ graph_nodes csp →
  (∀ n, n ∈ adj csp variable → assignment !! n = None → is_Some (doms !! n)) →
  ∃ values,
    lcv csp variable assignment doms = Ret values ∧
    values ≡ₚ dv ∧
    StronglySorted (λ v w, (eliminated csp variable assignment doms v
                            ≤ eliminated csp variable assignment doms w)%nat) values ∧
    (∀ k, filter (λ v, eliminated csp variable assignment doms v = k) values
          = filter (λ v, eliminated csp variable assignment doms v = k) dv) ∧
    lcv csp variable assignment (delete variable doms) = Raise KeyError.
Proof.
  intros Hdv Hnode Hcov.
  set (score := eliminated csp variable assignment doms).
  set (pairs := (λ value, (value, score value)) <$> dv).
  assert (Hsc : Forall (λ p : string * nat, p.2 = score p.1) (sort_by_score pairs)).
  { rewrite sort_by_score_Permutation. unfold pairs. apply Forall_fmap.
    by apply Forall_forall. }
  assert (Hpairs : pairs.*1 = dv).
  { apply fmap_fst_scored. }
  exists (sort_by_score pairs).*1. split; [|split; [|split; [|split]]].
  - unfold lcv. rewrite Hdv. destruct dv as [|x dv]; [done|].
    rewrite get_neighbors_node by done. simpl.
    rewrite bool_decide_eq_true_2; [done|].
    apply Forall_forall. intros n [Hun Hn]%list_elem_of_filter. by apply Hcov.
  - exact (sorted_scores_Permutation score dv).
  - apply scored_sorted; [done|apply sort_by_score_sorted].
  - intros k. rewrite (scored_filter score k _ Hsc), sort_by_score_filter.
    rewrite <- (scored_filter score k pairs), Hpairs; [done|].
    unfold pairs. apply Forall_fmap. by apply Forall_forall.
  - unfold lcv. by rewrite lookup_delete_eq.
Qed.

Lemma lcv_sorts_stably_witness :
  ∃ values,
    lcv australia "SA"%string {["WA" := "Red"]}%string
        (<["NT" := ["Green"; "Blue"]]> (domains australia))%string
      = Ret values ∧
    values ≡ₚ ["Red"; "Green"; "Blue"; "Yellow"]%string.
Proof.
  destruct (lcv_sorts_stably australia "SA"%string {["WA" := "Red"]}%string
              (<["NT" := ["Green"; "Blue"]]> (domains australia))%string
              ["Red"; "Green"; "Blue"; "Yellow"]%string)
    as (values & Hl & Hp & _).
  - reflexivity.
  - by_compute.
  - intros n Hn _. revert n Hn. apply Forall_forall. by_compute.
  - by exists values.
Defined.

(** ** MRV with the degree tie-break *)

(** The candidates of [mrv_with_degree_tiebreaker] after the variables
    [seen]: the unassigned ones of the smallest domain size, in order. *)
Definition candidates_inv (assignment : Assignment) (doms : Domains)
    (seen : list string) (min_values : option nat) (cands : list string) : Prop :=
  match min_values with
  | None => cands = [] ∧ ∀ u, u ∈ seen → is_Some (assignment !! u)
  | Some k =>
      cands = filter (λ x, assignment !! x = None ∧ dsize doms x = k) seen ∧
      cands ≠ [] ∧
      ∀ u, u ∈ seen → assignment !! u = None → (k ≤ dsize doms u)%nat
  end.

Lemma filter_nil_strict {A} (P : A → Prop) `{!∀ x, Decision (P x)} (l : list A) :
  (∀ x, x ∈ l → ¬ P x) → filter P l = [].
Proof.
  induction l as [|x l IH]; intros Hn; [done|]. rewrite filter_cons.
  rewrite decide_False by (apply Hn; by left). apply IH.
  intros y Hy. apply Hn. by right.
Qed.

Lemma mrv_candidates_inv assignment doms vars : ∀ seen min_values cands,
  (∀ u, u ∈ vars → assignment !! u = None → is_Some (doms !! u)) →
  candidates_inv assignment doms seen min_values cands →
  ∃ cands' min', mrv_candidates assignment doms vars min_values cands = Ret cands' ∧
                 candidates_inv assignment doms (seen ++ vars) min' cands'.
Proof.
  induction vars as [|var vars IH]; intros seen min_values cands Hcov Hinv; simpl.
  { exists cands, min_values. by rewrite app_nil_r. }
  assert (Hcov' : ∀ u, u ∈ vars → assignment !! u = None → is_Some (doms !! u))
    by (intros u Hu; apply Hcov; by right).
  assert (Hnext : ∀ m cs, candidates_inv assignment doms (seen ++ [var]) m cs →
    ∃ cands' min', mrv_candidates assignment doms vars m cs = Ret cands' ∧
                   candidates_inv assignment doms (seen ++ var :: vars) min' cands').
  { intros m cs Hi. destruct (IH _ _ _ Hcov' Hi) as (c' & m' & Hl & Hi').
    exists c', m'. split; [done|]. by rewrite <- app_assoc in Hi'. }
  destruct (assignment !! var) as [c|] eqn:Ha.
  - apply Hnext. destruct min_values as [k|]; simpl in *.
    + destruct Hinv as (-> & Hne & Hmin). rewrite filter_app, filter_cons.
      rewrite decide_False by (intros [? _]; congruence).
      rewrite filter_nil, app_nil_r. repeat split; try done.
      intros u [Hu|Hu]%elem_of_app; [by apply Hmin|].
      apply list_elem_of_singleton in Hu as ->. congruence.
    + destruct Hinv as [-> Hall]. split; [done|].
      intros u [Hu|Hu]%elem_of_app; [by apply Hall|].
      apply list_elem_of_singleton in Hu as ->. by eexists.
  - destruct (Hcov var) as [dv Hdv]; [by left|done|]. rewrite Hdv.
    assert (Hsize : dsize doms var = length dv) by (unfold dsize; by rewrite Hdv).
    destruct min_values as [k|]; simpl in Hinv.
    + destruct Hinv as (-> & Hne & Hmin). case_bool_decide as Hlt.
      * apply Hnext. simpl. rewrite filter_app, filter_cons.
        rewrite decide_True by done. rewrite filter_nil.
        rewrite filter_nil_strict.
        2:{ intros u Hu [Hun Hk]. specialize (Hmin u Hu Hun). lia. }
        repeat split; try done.
        intros u [Hu|Hu]%elem_of_app Hun.
        { specialize (Hmin u Hu Hun). lia. }
        apply list_elem_of_singleton in Hu as ->. lia.
      * case_bool_decide as Heq; apply Hnext; simpl.
        -- rewrite filter_app, filter_cons.
           rewrite decide_True by (split; [done|lia]). rewrite filter_nil.
           repeat split; try done.
           ++ by destruct (filter _ seen).
           ++ intros u [Hu|Hu]%elem_of_app Hun; [by apply Hmin|].
              apply list_elem_of_singleton in Hu as ->. lia.
        -- rewrite filter_app, filter_cons.
           rewrite decide_False by (intros [_ ?]; lia).
           rewrite filter_nil, app_nil_r. repeat split; try done.
           intros u [Hu|Hu]%elem_of_app Hun; [by apply Hmin|].
           apply list_elem_of_singleton in Hu as ->. lia.
    + destruct Hinv as [-> Hall]. apply Hnext. simpl.
      rewrite filter_app, filter_cons. rewrite decide_True by done.
      rewrite filter_nil. rewrite filter_nil_strict.
      * repeat split; try done.
        intros u [Hu|Hu]%elem_of_app Hun.
        { destruct (Hall u Hu) as [? ?]. congruence. }
        apply list_elem_of_singleton in Hu as ->. lia.
      * intros u Hu [Hun _]. destruct (Hall u Hu) as [? ?]. congruence.
Qed.

(** What [tiebreak_loop] knows after the candidates [seen]. *)
Definition tiebreak_inv (csp : CSPModel) (assignment : Assignment)
    (seen : list string) (max_degree : Z) (best : string) : Prop :=
  (seen = [] ∧ max_degree = -1) ∨
  (max_degree = udeg csp assignment best ∧
   ∃ pre post, seen = pre ++ best :: post ∧
     (∀ u, u ∈ pre → udeg csp assignment u < max_degree) ∧
     (∀ u, u ∈ post → udeg csp assignment u ≤ max_degree)).

Lemma tiebreak_loop_inv csp assignment cands : ∀ seen max_degree best,
  (∀ x, x ∈ cands → x ∈ variables csp) →
  tiebreak_inv csp assignment seen max_degree best →
  ∃ best' max', tiebreak_loop csp assignment cands max_degree best = Ret best' ∧
                tiebreak_inv csp assignment (seen ++ cands) max' best'.
Proof.
  induction cands as [|c cands IH]; intros seen max_degree best Hsub Hinv; simpl.
  { exists best, max_degree. by rewrite app_nil_r. }
  assert (Hsub' : ∀ x, x ∈ cands → x ∈ variables csp)
    by (intros x Hx; apply Hsub; by right).
  assert (Hnext : ∀ m b, tiebreak_inv csp assignment (seen ++ [c]) m b →
    ∃ best' max', tiebreak_loop csp assignment cands m b = Ret best' ∧
                  tiebreak_inv csp assignment (seen ++ c :: cands) max' best').
  { intros m b Hi. destruct (IH _ _ _ Hsub' Hi) as (b' & m' & Hl & Hi').
    exists b', m'. split; [done|]. by rewrite <- app_assoc in Hi'. }
  rewrite unassigned_degree_udeg by (apply Hsub; by left). simpl.
  assert (0 ≤ udeg csp assignment c) by (unfold udeg; lia).
  case_bool_decide as Hgt; apply Hnext; right.
  - split; [done|]. exists seen, []. split; [done|].
    split; [|by intros u ?%elem_of_nil].
    destruct Hinv as [[-> _]|(Hm & pre & post & -> & Hpre & Hpost)].
    { by intros u ?%elem_of_nil. }
    intros u [Hu|Hu]%elem_of_app.
    { specialize (Hpre u Hu). lia. }
    apply elem_of_cons in Hu as [->|Hu]; [lia|]. specialize (Hpost u Hu). lia.
  - destruct Hinv as [[_ ->]|(Hm & pre & post & -> & Hpre & Hpost)]; [lia|].
    split; [done|]. exists pre, (post ++ [c]). split; [by rewrite <- app_assoc|].
    split; [done|]. intros u [Hu|Hu]%elem_of_app; [by apply Hpost|].
    apply list_elem_of_singleton in Hu as ->. lia.
Qed.

Lemma filter_split {A} (P : A → Prop) `{!∀ x, Decision (P x)} (l : list A) :
  ∀ cpre b cpost, filter P l = cpre ++ b :: cpost →
  ∃ pre post, l = pre ++ b :: post ∧ filter P pre = cpre ∧ filter P post = cpost.
Proof.
  induction l as [|x l IH]; intros cpre b cpost; [by destruct cpre|].
  rewrite filter_cons. destruct (decide (P x)) as [Hx|Hx].
  - destruct cpre as [|c cpre]; simpl.
    + intros [= <- Hf]. exists [], l. by rewrite filter_nil.
    + intros [= <- Hf]. destruct (IH _ _ _ Hf) as (pre & post & -> & Hp & Hq).
      exists (x :: pre), post. rewrite filter_cons, decide_True by done.
      by rewrite Hp.
  - intros Hf. destruct (IH _ _ _ Hf) as (pre & post & -> & Hp & Hq).
    exists (x :: pre), post. by rewrite filter_cons, decide_False.
Qed.

(** X4. Given an unassigned variable (and a domain for every unassigned
    variable), [mrv_with_degree_tiebreaker] returns an unassigned variable
    of the smallest domain size; among the unassigned variables of that
    size it has the most unassigned neighbours, and those declared before
    it have strictly fewer. *)
Theorem mrv_degree_selects csp (assignment : Assignment) (doms : Domains) :
  (∀ u, u ∈ variables csp → assignment !! u = None → is_Some (doms !! u)) →
  (∃ u, u ∈ variables csp ∧ assignment !! u = None) →
  ∃ best pre post,
    mrv_with_degree_tiebreaker csp assignment doms = Ret (Some best) ∧
    variables csp = pre ++ best :: post ∧
    assignment !! best = None ∧
    (∀ u, u ∈ variables csp → assignment !! u = None →
          (dsize doms best ≤ dsize doms u)%nat) ∧
    (∀ u, u ∈ variables csp → assignment !! u = None →
          dsize doms u = dsize doms best →
          udeg csp assignment u ≤ udeg csp assignment best) ∧
    (∀ u, u ∈ pre → assignment !! u = None →
          dsize doms u = dsize doms best →
          udeg csp assignment u < udeg csp assignment best).
Proof.
  intros Hcov (u0 & Hu0 & Hun0). unfold mrv_with_degree_tiebreaker.
  destruct (mrv_candidates_inv assignment doms (variables csp) [] None [] Hcov)
    as (cands & m & -> & Hinv).
  { split; [done|]. by intros u ?%elem_of_nil. }
  simpl in Hinv. destruct m as [k|]; simpl in Hinv.
  2:{ destruct Hinv as [_ Hall]. destruct (Hall u0 Hu0) as [? ?]. congruence. }
  destruct Hinv as (Hcands & Hne & Hmin).
  set (P := λ x, assignment !! x = None ∧ dsize doms x = k) in *.
  assert (Hpick : ∃ best cpre cpost,
    match cands with
    | [c] => Ret (Some c)
    | [] => Raise IndexError
    | c0 :: _ =>
        tiebreak_loop csp assignment cands (-1) c0 ≫= λ best, Ret (Some best)
    end = Ret (Some best) ∧
    cands = cpre ++ best :: cpost ∧
    (∀ u, u ∈ cpre → udeg csp assignment u < udeg csp assignment best) ∧
    (∀ u, u ∈ cpost → udeg csp assignment u ≤ udeg csp assignment best)).
  { destruct cands as [|c0 [|c1 cs]]; [done| |].
    - exists c0, [], []. repeat split; try done; by intros u ?%elem_of_nil.
    - destruct (tiebreak_loop_inv csp assignment (c0 :: c1 :: cs) [] (-1) c0)
        as (best & m' & -> & Hi).
      + intros x Hx. rewrite Hcands in Hx.
        by apply list_elem_of_filter in Hx as [_ ?].
      + by left.
      + simpl in Hi. destruct Hi as [[? _]|(-> & cpre & cpost & Heq & Hpre & Hpost)];
          [done|].
        by exists best, cpre, cpost. }
  destruct Hpick as (best & cpre & cpost & Hres & Heq & Hpre & Hpost).
  rewrite Heq in Hcands. symmetry in Hcands.
  destruct (filter_split P (variables csp) cpre best cpost Hcands)
    as (pre & post & Hvars & Hfpre & Hfpost).
  assert (HP : P best).
  { assert (best ∈ filter P (variables csp)) as Hin.
    { rewrite Hcands. apply elem_of_app. right. by left. }
    by apply list_elem_of_filter in Hin as [? _]. }
  destruct HP as [Hbest Hk].
  exists best, pre, post. split; [exact Hres|]. repeat split; try done.
  - intros u Hu Hun. rewrite Hk. by apply Hmin.
  - intros u Hu Hun Hsz.
    assert (u ∈ filter P (variables csp)) as Hin.
    { apply list_elem_of_filter. split; [|done]. split; [done|congruence]. }
    rewrite Hcands in Hin. apply elem_of_app in Hin as [Hin|Hin].
    { specialize (Hpre u Hin). lia. }
    apply elem_of_cons in Hin as [->|Hin]; [lia|]. by apply Hpost.
  - intros u Hu Hun Hsz. apply Hpre. rewrite <- Hfpre.
    apply list_elem_of_filter. split; [|done]. split; [done|congruence].
Qed.

Lemma mrv_degree_selects_witness :
  ∃ best pre post,
    mrv_with_degree_tiebreaker australia ∅ (domains australia) = Ret (Some best) ∧
    variables australia = pre ++ best :: post ∧ best = "SA"%string.
Proof.
  destruct (mrv_degree_selects australia ∅ (domains australia))
    as (best & pre & post & Hd & Hv & _).
  - intros u Hu _. revert u Hu. apply Forall_forall. by_compute.
  - exists "WA"%string. split; [by_compute|reflexivity].
  - exists best, pre, post. repeat split; try done.
    vm_compute in Hd. congruence.
Defined.
